(** * CPU scheduling simulation (project1.py): shallow embedding and properties

    The development follows [p1/project1.py].  Python objects of class
    [Process] live in a store (the list [cpu._procs]); every other place that
    holds a process ([_curr], [_ready], the keys of [_io] and [_finished])
    holds a reference, modelled as the index of the object in the store, so
    that a mutation through one alias is seen through all of them.

    Python [int] is [Z].  The [float] accumulators [_total_wait],
    [_total_turnaround] and [_total_num] only ever hold sums of integers and
    are modelled as [Z]; the three averages are quotients of two such sums and
    are modelled as reduced rationals [Q] (the float quotient is exact
    whenever the rational one is representable, which is the case for every
    concrete value computed below). *)

From Stdlib Require Import ZArith List String Ascii QArith Qreduction Lia Bool
  Arith Permutation DecimalString.
From Stdlib Require Import Sorting.Sorted.
Import ListNotations.
Open Scope Z_scope.

(** ** Exceptions and the error monad *)

Inductive exn : Type :=
| AttributeError      (* attribute access on [None] *)
| ZeroDivisionError.  (* float division by zero *)

Inductive result (A : Type) : Type :=
| Ok (a : A)
| Raise (e : exn).
Arguments Ok {A} a.
Arguments Raise {A} e.

Definition bind {A B : Type} (m : result A) (k : A -> result B) : result B :=
  match m with
  | Ok a => k a
  | Raise e => Raise e
  end.

Notation "x <- m ;; k" := (bind m (fun x => k))
  (at level 61, m at next level, right associativity).

(** ** Module-level globals

    [t_cs] and [t_slice] are never reassigned.  [n] and [rr_add] are assigned
    by the main block before the runs; [n] is a parameter of the runs below. *)

Definition t_cs : Z := 8.
Definition t_slice : Z := 80.

(** ** class Process *)

Module Process.

Record t : Type := mk {
  _start : Z;          (* most recent start time *)
  _readied : Z;        (* most recent ready time *)
  _last_arrival : Z;   (* most recent arrival time *)
  _remaining : Z;      (* remaining time for burst *)
  _pid : string;
  _arrival : Z;
  _burst : Z;
  _num : Z;
  _io : Z
}.

(** [Process.__init__] *)
Definition init (pid : string) (arrival burst num io : Z) : t :=
  {| _start := 0; _readied := 0; _last_arrival := arrival;
     _remaining := burst; _pid := pid; _arrival := arrival;
     _burst := burst; _num := num; _io := io |}.

Definition set_start (v : Z) (p : t) : t :=
  {| _start := v; _readied := _readied p; _last_arrival := _last_arrival p;
     _remaining := _remaining p; _pid := _pid p; _arrival := _arrival p;
     _burst := _burst p; _num := _num p; _io := _io p |}.

Definition set_readied (v : Z) (p : t) : t :=
  {| _start := _start p; _readied := v; _last_arrival := _last_arrival p;
     _remaining := _remaining p; _pid := _pid p; _arrival := _arrival p;
     _burst := _burst p; _num := _num p; _io := _io p |}.

Definition set_last_arrival (v : Z) (p : t) : t :=
  {| _start := _start p; _readied := _readied p; _last_arrival := v;
     _remaining := _remaining p; _pid := _pid p; _arrival := _arrival p;
     _burst := _burst p; _num := _num p; _io := _io p |}.

Definition set_remaining (v : Z) (p : t) : t :=
  {| _start := _start p; _readied := _readied p;
     _last_arrival := _last_arrival p;
     _remaining := v; _pid := _pid p; _arrival := _arrival p;
     _burst := _burst p; _num := _num p; _io := _io p |}.

Definition set_num (v : Z) (p : t) : t :=
  {| _start := _start p; _readied := _readied p;
     _last_arrival := _last_arrival p;
     _remaining := _remaining p; _pid := _pid p; _arrival := _arrival p;
     _burst := _burst p; _num := v; _io := _io p |}.

(** The object read through a dangling reference; references built by the
    runs are always indices below the length of the store. *)
Definition dummy : t := init EmptyString 0 0 0 0.

End Process.

(** A reference to a [Process] object: its index in [cpu._procs]. *)
Abbreviation pref := nat (only parsing).

(** Mutation of the object behind a reference. *)
Fixpoint upd (i : pref) (f : Process.t -> Process.t) (ps : list Process.t)
  : list Process.t :=
  match ps, i with
  | [], _ => []
  | p :: ps', O => f p :: ps'
  | p :: ps', S i' => p :: upd i' f ps'
  end.

(** ** Dictionaries keyed by object identity

    [_io] and [_finished] are [defaultdict(int)] keyed by [Process] objects,
    which hash by identity.  Iteration order is insertion order, so they are
    association lists with at most one entry per key. *)

Definition dict : Type := list (pref * Z).

Fixpoint dict_set (k : pref) (v : Z) (d : dict) : dict :=
  match d with
  | [] => [(k, v)]
  | (k', v') :: d' =>
      if Nat.eqb k k' then (k, v) :: d' else (k', v') :: dict_set k v d'
  end.

Definition dict_del (k : pref) (d : dict) : dict :=
  filter (fun kv => negb (Nat.eqb k (fst kv))) d.

Definition dict_keys (d : dict) : list pref := map fst d.

(** ** sorted(..., key = ...)

    Python's [sorted] is stable; insertion before the first element that is
    not smaller gives the stable sorted arrangement. *)

Section Sorted.
Context {A : Type} (leb : A -> A -> bool).

Fixpoint insert_sorted (x : A) (l : list A) : list A :=
  match l with
  | [] => [x]
  | y :: l' => if leb x y then x :: l else y :: insert_sorted x l'
  end.

Definition sorted (l : list A) : list A := fold_right insert_sorted [] l.
End Sorted.

(** ** Float division

    [a / b] on floats raises [ZeroDivisionError] when the divisor is zero. *)

Definition fdiv (a b : Z) : result Q :=
  if Z.eqb b 0 then Raise ZeroDivisionError
  else Ok (Qred (Qdiv (inject_Z a) (inject_Z b))).

Definition zsum (l : list Z) : Z := fold_right Z.add 0 l.

(** ** class CPU *)

Module CPU.

Record t : Type := mk {
  _procs : list Process.t;       (* processes found in input file *)
  _total_turnaround : Z;         (* total turnaround time *)
  _total_wait : Z;               (* total wait time *)
  _total_num : Z;
  _avg_burst : Q;
  _avg_wait : Q;
  _avg_turnaround : Q;
  _context : Z;
  _preempt : Z;
  _ticker : Z;                   (* time ticker *)
  _curr : option pref;           (* running process *)
  _ready : list pref;            (* ready queue, leftmost first *)
  _finished : dict;              (* maps process to final burst finish *)
  _io : dict                     (* maps process to I/O finish *)
}.

Definition set_procs (v : list Process.t) (c : t) : t :=
  mk v (_total_turnaround c) (_total_wait c) (_total_num c) (_avg_burst c)
     (_avg_wait c) (_avg_turnaround c) (_context c) (_preempt c) (_ticker c)
     (_curr c) (_ready c) (_finished c) (_io c).

Definition set_total_turnaround (v : Z) (c : t) : t :=
  mk (_procs c) v (_total_wait c) (_total_num c) (_avg_burst c)
     (_avg_wait c) (_avg_turnaround c) (_context c) (_preempt c) (_ticker c)
     (_curr c) (_ready c) (_finished c) (_io c).

Definition set_total_wait (v : Z) (c : t) : t :=
  mk (_procs c) (_total_turnaround c) v (_total_num c) (_avg_burst c)
     (_avg_wait c) (_avg_turnaround c) (_context c) (_preempt c) (_ticker c)
     (_curr c) (_ready c) (_finished c) (_io c).

Definition set_avg_wait (v : Q) (c : t) : t :=
  mk (_procs c) (_total_turnaround c) (_total_wait c) (_total_num c)
     (_avg_burst c) v (_avg_turnaround c) (_context c) (_preempt c)
     (_ticker c) (_curr c) (_ready c) (_finished c) (_io c).

Definition set_avg_turnaround (v : Q) (c : t) : t :=
  mk (_procs c) (_total_turnaround c) (_total_wait c) (_total_num c)
     (_avg_burst c) (_avg_wait c) v (_context c) (_preempt c)
     (_ticker c) (_curr c) (_ready c) (_finished c) (_io c).

Definition set_context (v : Z) (c : t) : t :=
  mk (_procs c) (_total_turnaround c) (_total_wait c) (_total_num c)
     (_avg_burst c) (_avg_wait c) (_avg_turnaround c) v (_preempt c)
     (_ticker c) (_curr c) (_ready c) (_finished c) (_io c).

Definition set_preempt (v : Z) (c : t) : t :=
  mk (_procs c) (_total_turnaround c) (_total_wait c) (_total_num c)
     (_avg_burst c) (_avg_wait c) (_avg_turnaround c) (_context c) v
     (_ticker c) (_curr c) (_ready c) (_finished c) (_io c).

Definition set_ticker (v : Z) (c : t) : t :=
  mk (_procs c) (_total_turnaround c) (_total_wait c) (_total_num c)
     (_avg_burst c) (_avg_wait c) (_avg_turnaround c) (_context c)
     (_preempt c) v (_curr c) (_ready c) (_finished c) (_io c).

Definition set_curr (v : option pref) (c : t) : t :=
  mk (_procs c) (_total_turnaround c) (_total_wait c) (_total_num c)
     (_avg_burst c) (_avg_wait c) (_avg_turnaround c) (_context c)
     (_preempt c) (_ticker c) v (_ready c) (_finished c) (_io c).

Definition set_ready (v : list pref) (c : t) : t :=
  mk (_procs c) (_total_turnaround c) (_total_wait c) (_total_num c)
     (_avg_burst c) (_avg_wait c) (_avg_turnaround c) (_context c)
     (_preempt c) (_ticker c) (_curr c) v (_finished c) (_io c).

Definition set_finished (v : dict) (c : t) : t :=
  mk (_procs c) (_total_turnaround c) (_total_wait c) (_total_num c)
     (_avg_burst c) (_avg_wait c) (_avg_turnaround c) (_context c)
     (_preempt c) (_ticker c) (_curr c) (_ready c) v (_io c).

Definition set_io (v : dict) (c : t) : t :=
  mk (_procs c) (_total_turnaround c) (_total_wait c) (_total_num c)
     (_avg_burst c) (_avg_wait c) (_avg_turnaround c) (_context c)
     (_preempt c) (_ticker c) (_curr c) (_ready c) (_finished c) v.

(** The object behind a reference. *)
Definition deref (c : t) (proc : pref) : Process.t :=
  nth proc (_procs c) Process.dummy.

(** Attribute assignment through a reference. *)
Definition mutate (proc : pref) (f : Process.t -> Process.t) (c : t) : t :=
  set_procs (upd proc f (_procs c)) c.

(** [CPU.__init__]: the division that computes [_avg_burst] raises when the
    burst counts sum to zero (an empty workload, for one). *)
Definition init (procs : list Process.t) : result t :=
  let total_num := zsum (map Process._num procs) in
  avg_burst <-
    fdiv (zsum (map (fun p => Process._burst p * Process._num p) procs))
         total_num ;;
  Ok (mk procs 0 0 total_num avg_burst 0%Q 0%Q 0 0 0 None [] [] []).

(** [CPU.get_queue] *)
Definition get_queue (c : t) : string :=
  let contents :=
    fold_left (fun acc proc =>
                 append acc (append " " (Process._pid (deref c proc))))
              (_ready c) "[Q"%string in
  let contents := append contents "]" in
  if String.eqb contents "[Q]" then "[Q <empty>]"%string else contents.

(** [CPU.add] *)
Definition add (proc : pref) (c : t) : result t :=
  let c := mutate proc (Process.set_start (_ticker c)) c in
  let c := set_total_wait
             (_total_wait c + (_ticker c - Process._readied (deref c proc)))
             c in
  let c := set_ticker (_ticker c + t_cs / 2) c in
  let c := set_curr (Some proc) c in
  Ok (set_context (_context c + 1) c).

(** [CPU.ready] *)
Definition ready (proc : pref) (c : t) : result t :=
  let c := mutate proc (Process.set_readied (_ticker c)) c in
  let c := mutate proc (Process.set_last_arrival (_ticker c)) c in
  Ok (set_ready (_ready c ++ [proc]) c).

(** [CPU.remove]: reading [_last_arrival] of [None] raises. *)
Definition remove (c : t) : result t :=
  let c := set_ticker (_ticker c + t_cs / 2) c in
  match _curr c with
  | None => Raise AttributeError
  | Some cur =>
      let c := set_total_turnaround
                 (_total_turnaround c
                  + (_ticker c - Process._last_arrival (deref c cur))) c in
      Ok (set_curr None c)
  end.

(** [CPU.preempt]: writing [_readied] of [None] raises. *)
Definition preempt (proc : pref) (c : t) : result t :=
  let c := set_ticker (_ticker c + t_cs / 2) c in
  match _curr c with
  | None => Raise AttributeError
  | Some cur =>
      let c := mutate cur (Process.set_readied (_ticker c)) c in
      let c := set_ready (cur :: _ready c) c in
      let c := set_curr None c in
      let c := set_ticker (_ticker c + t_cs / 2) c in
      let c := set_curr (Some proc) c in
      let c := mutate proc
                 (fun p => Process.set_remaining (Process._remaining p - 1) p)
                 c in
      let c := set_context (_context c + 1) c in
      Ok (set_preempt (_preempt c + 1) c)
  end.

End CPU.

Import Process CPU.

(** ** Printed events

    Every [print] of the runs is one event, carrying the values that are
    formatted into the line; the last component is [cpu.get_queue()]. *)

Inductive event : Type :=
| SimStarted (time : Z) (q : string)
| BurstCompleted (time : Z) (pid : string) (left : Z) (q : string)
| SwitchingOut (time : Z) (pid : string) (until : Z) (q : string)
| Terminated (time : Z) (pid : string) (q : string)
| IOCompleted (time : Z) (pid : string) (q : string)
| IOPreempts (time : Z) (pid victim : string) (q : string)
| Arrived (time : Z) (pid : string) (q : string)
| ArrivalPreempts (time : Z) (pid victim : string) (q : string)
| StartedCPU (time : Z) (pid : string) (q : string)
| StartedCPURemaining (time : Z) (pid : string) (rem : Z) (q : string)
| SimEnded (time : Z).

Definition is_terminated (e : event) : bool :=
  match e with
  | Terminated _ _ _ => true
  | _ => false
  end.

Definition is_preemption (e : event) : bool :=
  match e with
  | IOPreempts _ _ _ _ | ArrivalPreempts _ _ _ _ => true
  | _ => false
  end.

Notation "' p <- m ;; k" :=
  (bind m (fun x => match x with p => k end))
  (at level 61, p pattern, m at next level, right associativity).

(** [cpu._curr] read where the code goes on to access an attribute of it. *)
Definition the_curr (c : CPU.t) : result pref :=
  match _curr c with
  | Some cur => Ok cur
  | None => Raise AttributeError
  end.

(** A [for] loop whose body may mutate the CPU and print. *)
Fixpoint for_each {A : Type} (l : list A)
    (body : A -> CPU.t -> result (CPU.t * list event)) (c : CPU.t)
  : result (CPU.t * list event) :=
  match l with
  | [] => Ok (c, [])
  | x :: l' =>
      '(c1, e1) <- body x c ;;
      '(c2, e2) <- for_each l' body c1 ;;
      Ok (c2, e1 ++ e2)
  end.

(** The processes of [cpu._io] whose I/O finishes at the current tick, in
    dictionary order. *)
Definition io_at_ticker (c : CPU.t) : list pref :=
  map fst (filter (fun kv => Z.eqb (snd kv) (_ticker c)) (_io c)).

(** The processes of [cpu._procs] that arrive at the current tick. *)
Definition arriving (c : CPU.t) : list pref :=
  filter (fun i => Z.eqb (Process._arrival (deref c i)) (_ticker c))
         (seq 0 (List.length (_procs c))).

(** [key = lambda obj : obj._pid] *)
Definition pid_leb (c : CPU.t) (a b : pref) : bool :=
  String.leb (_pid (deref c a)) (_pid (deref c b)).

(** [key = lambda obj : (obj._remaining, obj._pid)] *)
Definition srt_leb (c : CPU.t) (a b : pref) : bool :=
  let ra := _remaining (deref c a) in
  let rb := _remaining (deref c b) in
  Z.ltb ra rb || (Z.eqb ra rb && String.leb (_pid (deref c a)) (_pid (deref c b))).

(** ** run_fcfs *)

(** The check for a finished process at the top of the loop body; the flag is
    [removed]. *)
Definition fcfs_check_finished (c : CPU.t) : CPU.t * bool * list event :=
  match _curr c with
  | None => (c, false, [])
  | Some cur =>
      if Z.leb (_remaining (deref c cur)) 0 then
        let c := mutate cur (fun p => set_num (_num p - 1) p) c in
        if Z.ltb 0 (_num (deref c cur)) then
          let e1 := BurstCompleted (_ticker c) (_pid (deref c cur))
                      (_num (deref c cur)) (get_queue c) in
          let until := _ticker c + Process._io (deref c cur) + t_cs / 2 in
          let c := set_io (dict_set cur until (CPU._io c)) c in
          let e2 := SwitchingOut (_ticker c) (_pid (deref c cur)) until
                      (get_queue c) in
          (c, true, [e1; e2])
        else
          let e := Terminated (_ticker c) (_pid (deref c cur)) (get_queue c) in
          let c := set_finished (dict_set cur (_ticker c) (_finished c)) c in
          (c, true, [e])
      else
        (mutate cur (fun p => set_remaining (_remaining p - 1) p) c, false, [])
  end.

Definition fcfs_io_done (c : CPU.t) : result (CPU.t * list event) :=
  let io_done := sorted (pid_leb c) (io_at_ticker c) in
  for_each io_done
    (fun proc c =>
       c <- ready proc c ;;
       let c := set_io (dict_del proc (CPU._io c)) c in
       Ok (c, [IOCompleted (_ticker c) (_pid (deref c proc)) (get_queue c)]))
    c.

Definition fcfs_arrivals (c : CPU.t) : result (CPU.t * list event) :=
  for_each (seq 0 (List.length (_procs c)))
    (fun proc c =>
       if Z.eqb (_arrival (deref c proc)) (_ticker c) then
         let c := mutate proc (set_last_arrival (_ticker c)) c in
         c <- ready proc c ;;
         Ok (c, [Arrived (_ticker c) (_pid (deref c proc)) (get_queue c)])
       else Ok (c, []))
    c.

Definition fcfs_admit (c : CPU.t) : result (CPU.t * list event) :=
  match _curr c with
  | Some _ => Ok (c, [])
  | None =>
      match _ready c with
      | [] => Ok (c, [])
      | proc :: rest =>
          c <- add proc (set_ready rest c) ;;
          cur <- the_curr c ;;
          let c := mutate cur (fun p => set_remaining (_burst p - 1) p) c in
          Ok (c, [StartedCPU (_ticker c) (_pid (deref c cur)) (get_queue c)])
      end
  end.

(** One pass through the body of [while 1]; the flag says whether the pass
    ended in [break]. *)
Definition fcfs_body (n : Z) (c : CPU.t) : result (CPU.t * list event * bool) :=
  let '(c, removed, e1) := fcfs_check_finished c in
  '(c, e2) <- fcfs_io_done c ;;
  '(c, e3) <- fcfs_arrivals c ;;
  c <- (if removed then remove c else Ok c) ;;
  '(c, e4) <- fcfs_admit c ;;
  let evs := e1 ++ e2 ++ e3 ++ e4 in
  if Z.eqb (Z.of_nat (List.length (_finished c))) n then Ok (c, evs, true)
  else Ok (set_ticker (_ticker c + 1) c, evs, false).

(** What a run gives after a bounded number of passes. *)
Inductive outcome (A : Type) : Type :=
| Returned (a : A)
| Raised (e : exn)
| OutOfFuel.
Arguments Returned {A} a.
Arguments Raised {A} e.
Arguments OutOfFuel {A}.

Fixpoint fcfs_loop (fuel : nat) (n : Z) (c : CPU.t) (out : list event)
  : outcome (CPU.t * list event) :=
  match fuel with
  | O => OutOfFuel
  | S fuel' =>
      match fcfs_body n c with
      | Raise e => Raised e
      | Ok (c', evs, true) => Returned (c', out ++ evs)
      | Ok (c', evs, false) => fcfs_loop fuel' n c' (out ++ evs)
      end
  end.

(** The five-tuple of a run: average burst, wait and turnaround times, context
    switches and preemptions. *)
Definition stats : Type := (Q * Q * Q * Z * Z)%type.

(** The tail shared by the three runs: the averages and the tuple. *)
Definition summary (c : CPU.t) : result stats :=
  w <- fdiv (_total_wait c) (_total_num c) ;;
  let c := set_avg_wait w c in
  ta <- fdiv (_total_turnaround c) (_total_num c) ;;
  let c := set_avg_turnaround ta c in
  Ok (_avg_burst c, _avg_wait c, _avg_turnaround c, _context c, _preempt c).

Definition lift {A : Type} (r : result A) : outcome A :=
  match r with
  | Ok a => Returned a
  | Raise e => Raised e
  end.

Definition run_fcfs (fuel : nat) (n : Z) (procs : list Process.t)
  : outcome (stats * list event) :=
  match CPU.init procs with
  | Raise e => Raised e
  | Ok cpu =>
      let out := [SimStarted (_ticker cpu) (get_queue cpu)] in
      match fcfs_loop fuel n cpu out with
      | Returned (cpu, out) =>
          let out := out ++ [SimEnded (_ticker cpu)] in
          lift (s <- summary cpu ;; Ok (s, out))
      | Raised e => Raised e
      | OutOfFuel => OutOfFuel
      end
  end.

(** ** run_srt *)

Definition srt_check_finished (c : CPU.t) : CPU.t * bool * list event :=
  match _curr c with
  | None => (c, false, [])
  | Some cur =>
      if Z.leb (_remaining (deref c cur)) 0 then
        let c := mutate cur (fun p => set_num (_num p - 1) p) c in
        if Z.ltb 0 (_num (deref c cur)) then
          let e1 := BurstCompleted (_ticker c) (_pid (deref c cur))
                      (_num (deref c cur)) (get_queue c) in
          let c := mutate cur (fun p => set_remaining (_burst p) p) c in
          let until := _ticker c + Process._io (deref c cur) + t_cs / 2 in
          let c := set_io (dict_set cur until (CPU._io c)) c in
          let e2 := SwitchingOut (_ticker c) (_pid (deref c cur)) until
                      (get_queue c) in
          (c, true, [e1; e2])
        else
          let e := Terminated (_ticker c) (_pid (deref c cur)) (get_queue c) in
          let c := set_finished (dict_set cur (_ticker c) (_finished c)) c in
          (c, true, [e])
      else
        (mutate cur (fun p => set_remaining (_remaining p - 1) p) c, false, [])
  end.

(** The comparison of the first candidate of a sorted group with the running
    process: on success the candidate preempts and is deleted from the group.
    The result carries the candidates that are left. *)
Definition srt_try_preempt
    (preempts : Z -> string -> string -> string -> event)
    (removed : bool) (group : list pref) (c : CPU.t)
  : result (CPU.t * list event * list pref) :=
  match group, _curr c with
  | best :: rest, Some cur =>
      if negb removed
         && Z.ltb (_remaining (deref c best)) (_remaining (deref c cur))
      then
        let e1 := preempts (_ticker c) (_pid (deref c best))
                    (_pid (deref c cur)) (get_queue c) in
        c <- preempt best c ;;
        cur' <- the_curr c ;;
        Ok (c, [e1; StartedCPU (_ticker c) (_pid (deref c cur')) (get_queue c)],
            rest)
      else Ok (c, [], group)
  | _, _ => Ok (c, [], group)
  end.

(** [cpu.ready( proc )] followed by the re-sorting of the ready queue. *)
Definition srt_enqueue (added : Z -> string -> string -> event)
    (proc : pref) (c : CPU.t) : result (CPU.t * list event) :=
  c <- ready proc c ;;
  let c := set_ready (sorted (srt_leb c) (_ready c)) c in
  Ok (c, [added (_ticker c) (_pid (deref c proc)) (get_queue c)]).

(** The block [if ( io_done ): ...], and the block [if ( arrived ): ...]
    which is the same code with other messages. *)
Definition srt_group
    (preempts : Z -> string -> string -> string -> event)
    (added : Z -> string -> string -> event)
    (removed : bool) (group : list pref) (c : CPU.t)
  : result (CPU.t * list event) :=
  match group with
  | [] => Ok (c, [])
  | _ :: _ =>
      '(c, e1, group) <- srt_try_preempt preempts removed group c ;;
      '(c, e2) <- for_each group (srt_enqueue added) c ;;
      Ok (c, e1 ++ e2)
  end.

Definition srt_io_done (removed : bool) (c : CPU.t)
  : result (CPU.t * list event) :=
  let io_done := sorted (srt_leb c) (io_at_ticker c) in
  srt_group IOPreempts IOCompleted removed io_done c.

Definition srt_arrivals (removed : bool) (c : CPU.t)
  : result (CPU.t * list event) :=
  let arrived := sorted (srt_leb c) (arriving c) in
  srt_group ArrivalPreempts Arrived removed arrived c.

Definition srt_admit (c : CPU.t) : result (CPU.t * list event) :=
  match _curr c with
  | Some _ => Ok (c, [])
  | None =>
      match _ready c with
      | [] => Ok (c, [])
      | proc :: rest =>
          c <- add proc (set_ready rest c) ;;
          cur <- the_curr c ;;
          let c := mutate cur (set_start (_ticker c - t_cs / 2)) c in
          if Z.eqb (_remaining (deref c cur)) (_burst (deref c cur)) then
            let c := mutate cur (fun p => set_remaining (_burst p - 1) p) c in
            Ok (c, [StartedCPU (_ticker c) (_pid (deref c cur)) (get_queue c)])
          else
            Ok (c, [StartedCPURemaining (_ticker c) (_pid (deref c cur))
                      (_remaining (deref c cur) + 1) (get_queue c)])
      end
  end.

Definition srt_body (n : Z) (c : CPU.t) : result (CPU.t * list event * bool) :=
  let '(c, removed, e1) := srt_check_finished c in
  '(c, e2) <- srt_io_done removed c ;;
  '(c, e3) <- srt_arrivals removed c ;;
  c <- (if removed then remove c else Ok c) ;;
  '(c, e4) <- srt_admit c ;;
  let evs := e1 ++ e2 ++ e3 ++ e4 in
  if Z.eqb (Z.of_nat (List.length (_finished c))) n then Ok (c, evs, true)
  else Ok (set_ticker (_ticker c + 1) c, evs, false).

Fixpoint srt_loop (fuel : nat) (n : Z) (c : CPU.t) (out : list event)
  : outcome (CPU.t * list event) :=
  match fuel with
  | O => OutOfFuel
  | S fuel' =>
      match srt_body n c with
      | Raise e => Raised e
      | Ok (c', evs, true) => Returned (c', out ++ evs)
      | Ok (c', evs, false) => srt_loop fuel' n c' (out ++ evs)
      end
  end.

Definition run_srt (fuel : nat) (n : Z) (procs : list Process.t)
  : outcome (stats * list event) :=
  match CPU.init procs with
  | Raise e => Raised e
  | Ok cpu =>
      let out := [SimStarted (_ticker cpu) (get_queue cpu)] in
      match srt_loop fuel n cpu out with
      | Returned (cpu, out) =>
          let out := out ++ [SimEnded (_ticker cpu)] in
          lift (s <- summary cpu ;; Ok (s, out))
      | Raised e => Raised e
      | OutOfFuel => OutOfFuel
      end
  end.

(** ** run_rr

    The whole body of the function: the two prints and the averages. *)
Definition run_rr (procs : list Process.t) : result (stats * list event) :=
  cpu <- CPU.init procs ;;
  let out := [SimStarted (_ticker cpu) (get_queue cpu)] in
  let out := out ++ [SimEnded (_ticker cpu)] in
  ta <- fdiv (_total_turnaround cpu) (_total_num cpu) ;;
  let cpu := set_avg_turnaround ta cpu in
  w <- fdiv (_total_wait cpu) (_total_num cpu) ;;
  let cpu := set_avg_wait w cpu in
  Ok ((_avg_burst cpu, _avg_wait cpu, _avg_turnaround cpu, _context cpu,
       _preempt cpu), out).

(** The main block sets [n = len( procs )] before the runs. *)
Definition main_n (procs : list Process.t) : Z := Z.of_nat (List.length procs).

(** ** Operations of a run, as data *)

Inductive op : Type :=
| OpAdd (proc : pref)
| OpReady (proc : pref)
| OpRemove
| OpPreempt (proc : pref)
| OpFcfsPass (n : Z)
| OpSrtPass (n : Z).

Definition run_op (o : op) (c : CPU.t) : result CPU.t :=
  match o with
  | OpAdd proc => add proc c
  | OpReady proc => ready proc c
  | OpRemove => remove c
  | OpPreempt proc => preempt proc c
  | OpFcfsPass n => '(c', _, _) <- fcfs_body n c ;; Ok c'
  | OpSrtPass n => '(c', _, _) <- srt_body n c ;; Ok c'
  end.

Fixpoint run_ops (os : list op) (c : CPU.t) : result CPU.t :=
  match os with
  | [] => Ok c
  | o :: os' => c' <- run_op o c ;; run_ops os' c'
  end.

(** ** Workloads used below *)

(** [A|0|4|1|0] *)
Definition wl_single : list Process.t := [Process.init "A" 0 4 1 0].

(** [A|0|100|1|0]: one burst longer than [t_slice]. *)
Definition wl_long : list Process.t := [Process.init "A" 0 100 1 0].

(** [A|0|4|1|0] and [B|1|4|1|0]: the second process arrives while the first
    is being switched in. *)
Definition wl_late : list Process.t :=
  [Process.init "A" 0 4 1 0; Process.init "B" 1 4 1 0].

(** [A|0|4|2|0]: one process, two bursts, no I/O time. *)
Definition wl_zero_io : list Process.t := [Process.init "A" 0 4 2 0].

(** [A|0|4|2|1]: one process, two bursts. *)
Definition wl_two_bursts : list Process.t := [Process.init "A" 0 4 2 1].

(** [A|0|3|2|9], [B|7|100|1|0], [C|28|1|1|0] *)
Definition wl_double : list Process.t :=
  [Process.init "A" 0 3 2 9; Process.init "B" 7 100 1 0;
   Process.init "C" 28 1 1 0].

(** ** Auxiliary notions used in the statements *)

(** What the scheduler has decided: who runs, and the two counters. *)
Definition decided (c : CPU.t) : option pref * Z * Z :=
  (_curr c, _context c, _preempt c).

Definition quiet (e : event) : Prop := is_preemption e = false.

(** Two states whose stores give every process the same sorting key. *)
Definition same_keys (c c' : CPU.t) : Prop :=
  forall i, _remaining (deref c' i) = _remaining (deref c i)
            /\ _pid (deref c' i) = _pid (deref c i).

Definition srt_le (c : CPU.t) (a b : pref) : Prop := srt_leb c a b = true.



(** A CPU at tick 20 that runs [B] with 3 ms left while the I/O of [A], whose
    next burst is 3 ms, completes. *)
Definition cpu_equal_20 : CPU.t :=
  CPU.mk [Process.init "A" 0 3 2 9;
          Process.mk 11 7 7 3 "B" 7 100 1 0]
         11 4 3 (203 # 3) 0%Q 0%Q 2 0 20 (Some 1%nat) [] [] [(0%nat, 20)].

(** The FCFS run of [wl_late] once [A] has terminated: nothing runs, nothing
    is ready or blocked, [B] has not been seen, and the clock is [t]. *)
Definition cpu_late_idle (t : Z) : CPU.t :=
  CPU.mk [Process.mk 0 0 0 0 "A" 0 4 0 0; Process.init "B" 1 4 1 0]
         12 0 2 4%Q 0%Q 0%Q 1 0 t None [] [(0%nat, 8)] [].

(** The live entries of [_io]: the processes whose I/O completes at tick
    [lo] or later. *)
Definition live (lo : Z) (d : dict) : list pref :=
  map fst (filter (fun kv => Z.leb lo (snd kv)) d).

(** The running slot, as a number of occurrences of [p].  When the running
    process has completed its burst in the current pass ([removed]), it is
    already on its way out and is not counted. *)
Definition curr_count (c : CPU.t) (removed : bool) (p : pref) : nat :=
  if removed then 0%nat
  else match _curr c with
       | Some q => if Nat.eq_dec q p then 1%nat else 0%nat
       | None => 0%nat
       end.

(** In how many places a process is: running, ready, blocked on I/O that
    completes at [lo] or later, terminated. *)
Definition occ (c : CPU.t) (lo : Z) (removed : bool) (p : pref) : nat :=
  (curr_count c removed p
   + count_occ Nat.eq_dec (_ready c) p
   + count_occ Nat.eq_dec (live lo (CPU._io c)) p
   + count_occ Nat.eq_dec (dict_keys (_finished c)) p)%nat.

(** Every process is in at most one place, and a process that is somewhere
    has arrived before [la]. *)
Record one_place (c : CPU.t) (lo la : Z) (removed : bool) : Prop := {
  op_io_keys : NoDup (dict_keys (CPU._io c));
  op_occ : forall p, (occ c lo removed p <= 1)%nat;
  op_arrived :
    forall p, (1 <= occ c lo removed p)%nat -> _arrival (deref c p) < la
}.

(** The part of the store that no step changes. *)
Definition static (c c' : CPU.t) : Prop :=
  List.length (_procs c') = List.length (_procs c)
  /\ forall i, _arrival (deref c' i) = _arrival (deref c i).

(** The number of [Terminated] events of a trace. *)
Definition terminations (out : list event) : nat :=
  List.length (filter is_terminated out).

(** A step that moves no clock, terminates nothing and keeps [_io] a
    dictionary. *)
Definition quiet_step (c c' : CPU.t) : Prop :=
  static c c'
  /\ _ticker c' = _ticker c
  /\ _finished c' = _finished c
  /\ (NoDup (dict_keys (CPU._io c)) -> NoDup (dict_keys (CPU._io c'))).

Definition not_terminated (e : event) : Prop := is_terminated e = false.

(** 1 when the two references are the same, 0 otherwise. *)
Definition same_ref (x q : pref) : nat :=
  if Nat.eq_dec x q then 1%nat else 0%nat.

(** The FCFS run of [wl_zero_io] once the first burst of [A] is over: [A] is
    blocked until tick 12, and the clock [t] is past it. *)
Definition cpu_zero_io_idle (t : Z) : CPU.t :=
  CPU.mk [Process.mk 0 0 0 0 "A" 0 4 1 0]
         12 0 2 4%Q 0%Q 0%Q 1 0 t None [] [] [(0%nat, 12)].

(** The "started using the CPU" lines, with or without remaining time. *)
Definition is_started (e : event) : bool :=
  match e with
  | StartedCPU _ _ _ | StartedCPURemaining _ _ _ _ => true
  | _ => false
  end.

Definition started (out : list event) : nat :=
  List.length (filter is_started out).

Definition preemptions (out : list event) : nat :=
  List.length (filter is_preemption out).

(** The two counters move with the printed events. *)
Definition tally (c : CPU.t) (evs : list event) (c' : CPU.t) : Prop :=
  _context c' = _context c + Z.of_nat (started evs)
  /\ _preempt c' = _preempt c + Z.of_nat (preemptions evs).

(** The lines printed when processes become ready or get the CPU. *)
Definition is_sched (e : event) : bool :=
  match e with
  | IOCompleted _ _ _ | IOPreempts _ _ _ _ | Arrived _ _ _
  | ArrivalPreempts _ _ _ _ | StartedCPU _ _ _
  | StartedCPURemaining _ _ _ _ => true
  | _ => false
  end.

(** The lines printed when a CPU burst completes: "completed a CPU burst" and
    "terminated". *)
Definition is_completion (e : event) : bool :=
  match e with
  | BurstCompleted _ _ _ _ | Terminated _ _ _ => true
  | _ => false
  end.

Definition completions (out : list event) : nat :=
  List.length (filter is_completion out).

(** A step that leaves an attribute of every process as it was. *)
Definition kept {X : Type} (g : Process.t -> X) (c c' : CPU.t) : Prop :=
  map g (_procs c') = map g (_procs c).

(** Every process that is in a place is a process of the workload. *)
Definition valid_places (c : CPU.t) (lo : Z) : Prop :=
  forall q, (1 <= occ c lo false q)%nat -> (q < List.length (_procs c))%nat.

(** The bursts that the processes still have to run. *)
Definition bursts_left (c : CPU.t) : Z := zsum (map _num (_procs c)).

(** A terminated process has no burst left, any other process of the workload
    has at least one. *)
Definition bursts_left_ok (c : CPU.t) : Prop :=
  forall q, (q < List.length (_procs c))%nat ->
    (count_occ Nat.eq_dec (dict_keys (_finished c)) q = 0%nat ->
     1 <= _num (deref c q))
    /\ ((1 <= count_occ Nat.eq_dec (dict_keys (_finished c)) q)%nat ->
        _num (deref c q) = 0).

(** The state at the head of pass [k] of the FCFS loop, when no earlier pass
    has left the loop. *)
Fixpoint fcfs_passes (k : nat) (n : Z) (c : CPU.t) : option CPU.t :=
  match k with
  | O => Some c
  | S k' =>
      match fcfs_body n c with
      | Ok (c', _, false) => fcfs_passes k' n c'
      | _ => None
      end
  end.

(** The same for the SRT loop. *)
Fixpoint srt_passes (k : nat) (n : Z) (c : CPU.t) : option CPU.t :=
  match k with
  | O => Some c
  | S k' =>
      match srt_body n c with
      | Ok (c', _, false) => srt_passes k' n c'
      | _ => None
      end
  end.

(** A process of the workload that is in no place although the clock has
    passed its arrival time. *)
Definition missed (c : CPU.t) (p : pref) : Prop :=
  (p < List.length (_procs c))%nat
  /\ _arrival (deref c p) < _ticker c
  /\ occ c (_ticker c) false p = 0%nat.

(** A process that the CPU holds: the running one, those of the ready queue
    and those blocked on I/O. *)
Definition held (c : CPU.t) (p : pref) : Prop :=
  _curr c = Some p \/ In p (_ready c) \/ In p (dict_keys (CPU._io c)).

(** The clock bounds the instants that waits and turnarounds are measured
    from, and the accumulated times and the divisor of the averages are not
    negative. *)
Definition timed (c : CPU.t) : Prop :=
  0 <= _ticker c
  /\ 0 <= _total_num c
  /\ 0 <= _total_wait c
  /\ 0 <= _total_turnaround c
  /\ (forall p, _readied (deref c p) <= _ticker c)
  /\ (forall p, _last_arrival (deref c p)
                <= Z.max (_ticker c) (_arrival (deref c p)))
  /\ (forall p, held c p -> _last_arrival (deref c p) <= _ticker c).

(** What [Process.__init__] gives the two instants. *)
Definition as_constructed (p : Process.t) : Prop :=
  _readied p = 0 /\ _last_arrival p = _arrival p.

(** The time that a printed line starts with. *)
Definition event_time (e : event) : Z :=
  match e with
  | SimStarted t _ | BurstCompleted t _ _ _ | SwitchingOut t _ _ _
  | Terminated t _ _ | IOCompleted t _ _ | IOPreempts t _ _ _
  | Arrived t _ _ | ArrivalPreempts t _ _ _ | StartedCPU t _ _
  | StartedCPURemaining t _ _ _ | SimEnded t => t
  end.

(** No line of the trace has a time before [lo] or before the time of the
    line that precedes it. *)
Fixpoint chronological (lo : Z) (out : list event) : Prop :=
  match out with
  | [] => True
  | e :: out' => lo <= event_time e /\ chronological (event_time e) out'
  end.

(** The lines are in the order of their times, between [lo] and [hi]. *)
Definition spans (lo : Z) (evs : list event) (hi : Z) : Prop :=
  lo <= hi
  /\ chronological lo evs
  /\ Forall (fun e => event_time e <= hi) evs.

(** A step whose lines are timed by the clock, and that leaves the average
    burst time of the constructor alone. *)
Definition paced (c : CPU.t) (evs : list event) (c' : CPU.t) : Prop :=
  spans (_ticker c) evs (_ticker c') /\ _avg_burst c' = _avg_burst c.

(** ** CPU.__repr__ *)

(** [str.format] of an [int]: its decimal numeral. *)
Definition format_int (z : Z) : string := NilZero.string_of_int (Z.to_int z).

(** The slice [s[ :-2 ]]: the string without its last two characters. *)
Definition drop_last_two (s : string) : string :=
  substring 0 (String.length s - 2) s.

(** [CPU.__repr__]: reading [_pid] of [None] raises. *)
Definition __repr__ (c : CPU.t) : result string :=
  cur <- the_curr c ;;
  let repr_rep :=
    append "CPU(_ticker = "
      (append (format_int (_ticker c))
         (append ", _curr = "
            (append (_pid (deref c cur)) ", _ready = deque(["))) in
  let repr_rep :=
    fold_left (fun acc proc => append acc (append (_pid (deref c proc)) ", "))
              (_ready c) repr_rep in
  Ok (append (drop_last_two repr_rep) "]))").

(* ================================================================== *)
(** * Properties *)

(** ** Basic facts: the monad, the store *)

Lemma bind_Ok {A B : Type} (m : result A) (k : A -> result B) (r : B) :
  bind m k = Ok r -> exists a, m = Ok a /\ k a = Ok r.
Proof.
  destruct m as [a|e]; simpl; intros H; [eauto | discriminate].
Qed.

(** Inversion of a successful monadic computation, one bind at a time. *)
Ltac inv_bind H :=
  let a := fresh "x" in
  let Ha := fresh "Hx" in
  apply bind_Ok in H; destruct H as (a & Ha & H).

Lemma upd_length (i : pref) f ps : List.length (upd i f ps) = List.length ps.
Proof.
  revert i; induction ps as [|p ps IH]; intros [|i]; simpl; auto.
Qed.

Lemma nth_upd_same (i : pref) f ps d :
  (i < List.length ps)%nat -> nth i (upd i f ps) d = f (nth i ps d).
Proof.
  revert i; induction ps as [|p ps IH]; intros [|i] Hi; simpl in *;
    try lia; auto.
  apply IH; lia.
Qed.

Lemma nth_upd_other (i j : pref) f ps d :
  i <> j -> nth j (upd i f ps) d = nth j ps d.
Proof.
  revert i j; induction ps as [|p ps IH]; intros [|i] [|j] Hij; simpl;
    auto; try congruence.
Qed.

(** A mutation that keeps a field keeps it through any reference. *)
Lemma nth_upd_field {X : Type} (g : Process.t -> X) (i j : pref) f ps d :
  (forall p, g (f p) = g p) -> g (nth j (upd i f ps) d) = g (nth j ps d).
Proof.
  intros Hg. revert i j; induction ps as [|p ps IH]; intros [|i] [|j];
    simpl; auto.
Qed.

Lemma half_t_cs : t_cs / 2 = 4.
Proof. reflexivity. Qed.

(** ** The clock through the methods and the phases of a pass *)

Lemma for_each_inv {A : Type} (P : CPU.t -> Prop)
    (body : A -> CPU.t -> result (CPU.t * list event)) :
  (forall x c c' e, P c -> body x c = Ok (c', e) -> P c') ->
  forall l c c' e, P c -> for_each l body c = Ok (c', e) -> P c'.
Proof.
  intros Hbody l; induction l as [|x l IH]; simpl; intros c c' e Hc H.
  - injection H as <- _; exact Hc.
  - inv_bind H. destruct x0 as [c1 e1].
    inv_bind H. destruct x0 as [c2 e2].
    injection H as <- _. eauto.
Qed.

Lemma add_ticker proc c c' :
  add proc c = Ok c' -> _ticker c' = _ticker c + t_cs / 2.
Proof. unfold add; intros H; injection H as <-; reflexivity. Qed.

Lemma ready_ticker proc c c' : ready proc c = Ok c' -> _ticker c' = _ticker c.
Proof. unfold ready; intros H; injection H as <-; reflexivity. Qed.

Lemma remove_ticker c c' :
  remove c = Ok c' -> _ticker c' = _ticker c + t_cs / 2.
Proof.
  unfold remove; simpl; destruct (_curr c); intros H;
    [injection H as <-; reflexivity | discriminate].
Qed.

Lemma preempt_ticker proc c c' :
  preempt proc c = Ok c' -> _ticker c' = _ticker c + t_cs / 2 + t_cs / 2.
Proof.
  unfold preempt; simpl; destruct (_curr c); intros H;
    [injection H as <-; reflexivity | discriminate].
Qed.

Lemma fcfs_check_finished_ticker c c' r e :
  fcfs_check_finished c = (c', r, e) -> _ticker c' = _ticker c.
Proof.
  unfold fcfs_check_finished.
  destruct (_curr c) as [cur|]; [|intros H; injection H as <- _ _; auto].
  destruct (Z.leb _ _); [|intros H; injection H as <- _ _; auto].
  match goal with |- context [Z.ltb ?a ?b] => destruct (Z.ltb a b) end;
    intros H; injection H as <- _ _; reflexivity.
Qed.

Lemma srt_check_finished_ticker c c' r e :
  srt_check_finished c = (c', r, e) -> _ticker c' = _ticker c.
Proof.
  unfold srt_check_finished.
  destruct (_curr c) as [cur|]; [|intros H; injection H as <- _ _; auto].
  destruct (Z.leb _ _); [|intros H; injection H as <- _ _; auto].
  match goal with |- context [Z.ltb ?a ?b] => destruct (Z.ltb a b) end;
    intros H; injection H as <- _ _; reflexivity.
Qed.

Lemma fcfs_io_done_ticker c c' e :
  fcfs_io_done c = Ok (c', e) -> _ticker c' = _ticker c.
Proof.
  unfold fcfs_io_done.
  apply (for_each_inv (fun x => _ticker x = _ticker c)); [|reflexivity].
  intros proc c1 c2 e1 H1 H. inv_bind H. injection H as <- _.
  apply ready_ticker in Hx. simpl. congruence.
Qed.

Lemma fcfs_arrivals_ticker c c' e :
  fcfs_arrivals c = Ok (c', e) -> _ticker c' = _ticker c.
Proof.
  unfold fcfs_arrivals.
  apply (for_each_inv (fun x => _ticker x = _ticker c)); [|reflexivity].
  intros proc c1 c2 e1 H1 H.
  destruct (Z.eqb _ _).
  - inv_bind H. injection H as <- _.
    apply ready_ticker in Hx. simpl in Hx. congruence.
  - injection H as <- _. exact H1.
Qed.

Lemma fcfs_admit_ticker c c' e :
  fcfs_admit c = Ok (c', e) -> _ticker c <= _ticker c'.
Proof.
  unfold fcfs_admit.
  destruct (_curr c); [intros H; injection H as <- _; lia|].
  destruct (_ready c) as [|proc rest]; [intros H; injection H as <- _; lia|].
  intros H. inv_bind H. inv_bind H. injection H as <- _.
  apply add_ticker in Hx. simpl in *. rewrite Hx, half_t_cs. lia.
Qed.

Lemma srt_admit_ticker c c' e :
  srt_admit c = Ok (c', e) -> _ticker c <= _ticker c'.
Proof.
  unfold srt_admit.
  destruct (_curr c); [intros H; injection H as <- _; lia|].
  destruct (_ready c) as [|proc rest]; [intros H; injection H as <- _; lia|].
  intros H. inv_bind H. inv_bind H.
  apply add_ticker in Hx. simpl in Hx. rewrite half_t_cs in Hx.
  destruct (Z.eqb _ _); injection H as <- _; simpl; lia.
Qed.

Lemma srt_try_preempt_ticker pre removed group c c' e group' :
  srt_try_preempt pre removed group c = Ok (c', e, group') ->
  _ticker c <= _ticker c'.
Proof.
  unfold srt_try_preempt.
  destruct group as [|best rest]; [intros H; injection H as <- _ _; lia|].
  destruct (_curr c) as [cur|]; [|intros H; injection H as <- _ _; lia].
  destruct (_ && _); [|intros H; injection H as <- _ _; lia].
  intros H. inv_bind H. inv_bind H. injection H as <- _ _.
  apply preempt_ticker in Hx. rewrite Hx, half_t_cs. lia.
Qed.

Lemma srt_enqueue_ticker added proc c c' e :
  srt_enqueue added proc c = Ok (c', e) -> _ticker c' = _ticker c.
Proof.
  unfold srt_enqueue. intros H. inv_bind H. injection H as <- _.
  apply ready_ticker in Hx. exact Hx.
Qed.

Lemma srt_group_ticker pre added removed group c c' e :
  srt_group pre added removed group c = Ok (c', e) -> _ticker c <= _ticker c'.
Proof.
  unfold srt_group. destruct group as [|g0 group].
  { intros H; injection H as <- _; lia. }
  intros H. inv_bind H. destruct x as [[c1 e1] group1].
  inv_bind H. destruct x as [c2 e2]. injection H as <- _.
  apply srt_try_preempt_ticker in Hx.
  revert Hx0.
  apply (for_each_inv (fun x => _ticker c <= _ticker x)); [|exact Hx].
  intros proc a b e0 Ha Hb. apply srt_enqueue_ticker in Hb. lia.
Qed.

Lemma fcfs_body_ticker n c c' evs b :
  fcfs_body n c = Ok (c', evs, b) -> _ticker c <= _ticker c'.
Proof.
  unfold fcfs_body.
  destruct (fcfs_check_finished c) as [[c1 removed] e1] eqn:H1.
  apply fcfs_check_finished_ticker in H1.
  intros H. inv_bind H. destruct x as [c2 e2].
  inv_bind H. destruct x as [c3 e3].
  inv_bind H. inv_bind H. destruct x0 as [c5 e5].
  apply fcfs_io_done_ticker in Hx. apply fcfs_arrivals_ticker in Hx0.
  apply fcfs_admit_ticker in Hx2.
  assert (_ticker c3 <= _ticker x).
  { destruct removed; [apply remove_ticker in Hx1; rewrite Hx1, half_t_cs; lia
                      | injection Hx1 as <-; lia]. }
  destruct (Z.eqb _ _); injection H as <- _ _; simpl; lia.
Qed.

Lemma srt_body_ticker n c c' evs b :
  srt_body n c = Ok (c', evs, b) -> _ticker c <= _ticker c'.
Proof.
  unfold srt_body.
  destruct (srt_check_finished c) as [[c1 removed] e1] eqn:H1.
  apply srt_check_finished_ticker in H1.
  intros H. inv_bind H. destruct x as [c2 e2].
  inv_bind H. destruct x as [c3 e3].
  inv_bind H. inv_bind H. destruct x0 as [c5 e5].
  apply srt_group_ticker in Hx. apply srt_group_ticker in Hx0.
  apply srt_admit_ticker in Hx2.
  assert (_ticker c3 <= _ticker x).
  { destruct removed; [apply remove_ticker in Hx1; rewrite Hx1, half_t_cs; lia
                      | injection Hx1 as <-; lia]. }
  destruct (Z.eqb _ _); injection H as <- _ _; simpl; lia.
Qed.

(** C10. The clock never goes back: each operation of a run (admit [add],
    [ready], retire [remove], [preempt], and a whole pass of the FCFS or of
    the SRT loop, which ends with the per-tick advance) that completes from
    any state leaves [_ticker] greater than or equal to its previous value. *)
Theorem clock_monotone (o : op) (c c' : CPU.t) :
  run_op o c = Ok c' -> _ticker c <= _ticker c'.
Proof.
  destruct o as [proc|proc| |proc|n|n]; simpl; intros H.
  - apply add_ticker in H. rewrite H, half_t_cs. lia.
  - apply ready_ticker in H. lia.
  - apply remove_ticker in H. rewrite H, half_t_cs. lia.
  - apply preempt_ticker in H. rewrite H, half_t_cs. lia.
  - inv_bind H. destruct x as [[c1 e] b]. injection H as <-.
    eapply fcfs_body_ticker; eauto.
  - inv_bind H. destruct x as [[c1 e] b]. injection H as <-.
    eapply srt_body_ticker; eauto.
Qed.

(** The same along any sequence of operations, hence at every state a run
    reaches. *)
Lemma clock_monotone_ops (os : list op) (c c' : CPU.t) :
  run_ops os c = Ok c' -> _ticker c <= _ticker c'.
Proof.
  revert c; induction os as [|o os IH]; simpl; intros c H.
  - injection H as <-. lia.
  - inv_bind H. apply IH in H.
    destruct o as [proc|proc| |proc|n|n]; simpl in Hx.
    + apply add_ticker in Hx. rewrite half_t_cs in Hx. lia.
    + apply ready_ticker in Hx. lia.
    + apply remove_ticker in Hx. rewrite half_t_cs in Hx. lia.
    + apply preempt_ticker in Hx. rewrite half_t_cs in Hx. lia.
    + inv_bind Hx. destruct x0 as [[c1 e] b]. injection Hx as <-.
      apply fcfs_body_ticker in Hx0. lia.
    + inv_bind Hx. destruct x0 as [[c1 e] b]. injection Hx as <-.
      apply srt_body_ticker in Hx0. lia.
Qed.

Lemma clock_monotone_witness :
  exists c',
    run_op (OpFcfsPass 1) (CPU.mk wl_single 0 0 1 4%Q 0%Q 0%Q 0 0 0 None [] [] [])
    = Ok c'
    /\ _ticker (CPU.mk wl_single 0 0 1 4%Q 0%Q 0%Q 0 0 0 None [] [] [])
       <= _ticker c'.
Proof.
  eexists; split; [vm_compute; reflexivity|].
  apply (clock_monotone (OpFcfsPass 1)). vm_compute. reflexivity.
Defined.

(** ** Fuel *)

Lemma fcfs_loop_more (k fuel : nat) n c out r :
  fcfs_loop fuel n c out = Returned r ->
  fcfs_loop (fuel + k) n c out = Returned r.
Proof.
  revert c out; induction fuel as [|fuel IH]; simpl; intros c out H;
    [discriminate|].
  destruct (fcfs_body n c) as [[[c' evs] [|]]|e]; auto.
Qed.

Lemma srt_loop_more (k fuel : nat) n c out r :
  srt_loop fuel n c out = Returned r ->
  srt_loop (fuel + k) n c out = Returned r.
Proof.
  revert c out; induction fuel as [|fuel IH]; simpl; intros c out H;
    [discriminate|].
  destruct (srt_body n c) as [[[c' evs] [|]]|e]; auto.
Qed.

Lemma run_fcfs_more (k fuel : nat) n procs r :
  run_fcfs fuel n procs = Returned r ->
  run_fcfs (fuel + k) n procs = Returned r.
Proof.
  unfold run_fcfs. destruct (CPU.init procs) as [cpu|e]; [|discriminate].
  destruct (fcfs_loop fuel n cpu _) as [[c' out]|e|] eqn:H;
    try discriminate.
  rewrite (fcfs_loop_more k _ _ _ _ _ H). auto.
Qed.

Lemma run_srt_more (k fuel : nat) n procs r :
  run_srt fuel n procs = Returned r ->
  run_srt (fuel + k) n procs = Returned r.
Proof.
  unfold run_srt. destruct (CPU.init procs) as [cpu|e]; [|discriminate].
  destruct (srt_loop fuel n cpu _) as [[c' out]|e|] eqn:H;
    try discriminate.
  rewrite (srt_loop_more k _ _ _ _ _ H). auto.
Qed.

(** ** The single-process scenario *)

(** C8. For the workload [A|0|4|1|0] with [t_cs = 8] (and [n = 1], as the main
    block sets it), the FCFS run returns, after five passes of its loop,
    average wait 0, average turnaround 12, one context switch and no
    preemption (the average burst time is 4). *)
Theorem fcfs_single_process_scenario (k : nat) :
  t_cs = 8 /\
  exists out,
    run_fcfs (5 + k) (main_n wl_single) wl_single
    = Returned ((4%Q, 0%Q, 12%Q, 1, 0), out).
Proof.
  split; [reflexivity|]. eexists.
  apply run_fcfs_more. vm_compute. reflexivity.
Qed.

(** ** Round robin *)

(** Whatever the workload, [run_rr] admits no process: it either raises in the
    constructor, or returns zero averages and zero counters after printing
    its two lines. *)
Lemma run_rr_no_simulation (procs : list Process.t) :
  run_rr procs = Raise ZeroDivisionError \/
  exists avg_burst,
    run_rr procs
    = Ok ((avg_burst, 0%Q, 0%Q, 0, 0),
          [SimStarted 0 "[Q <empty>]"; SimEnded 0]).
Proof.
  unfold run_rr, CPU.init, fdiv.
  destruct (Z.eqb (zsum (map Process._num procs)) 0) eqn:E; simpl;
    [left; reflexivity|].
  rewrite E. simpl. right. eexists. reflexivity.
Qed.

(** C1 (the code does not do it). On [A|0|100|1|0], whose only burst is
    longer than [t_slice = 80], [run_rr] returns no context switch and no
    preemption, and prints no event between the start and the end of the
    simulation: no process is admitted, none is preempted at the end of a
    slice. *)
Theorem run_rr_long_burst :
  t_slice = 80 /\
  run_rr wl_long
  = Ok ((100%Q, 0%Q, 0%Q, 0, 0), [SimStarted 0 "[Q <empty>]"; SimEnded 0]).
Proof. split; reflexivity. Qed.

(** ** preempt *)

(** C4. A call of [preempt] on a CPU that runs a process [cur] completes and
    - puts [cur] at the front of the ready queue, the rest of the queue kept;
    - sets the ready time of [cur] to the clock at that moment (the clock of
      the call plus the first half of [t_cs]);
    - installs the incoming process as the running one;
    - advances the clock by the two halves of [t_cs], that is by [t_cs];
    - adds exactly 1 to the context-switch counter and exactly 1 to the
      preemption counter. *)
Theorem preempt_spec (proc cur : pref) (c : CPU.t) :
  _curr c = Some cur ->
  (cur < List.length (_procs c))%nat ->
  exists c',
    preempt proc c = Ok c'
    /\ _ready c' = cur :: _ready c
    /\ _readied (deref c' cur) = _ticker c + t_cs / 2
    /\ _curr c' = Some proc
    /\ _ticker c' = _ticker c + (t_cs / 2 + t_cs / 2)
    /\ t_cs / 2 + t_cs / 2 = t_cs
    /\ _context c' = _context c + 1
    /\ _preempt c' = _preempt c + 1.
Proof.
  intros Hcur Hlt. unfold preempt. simpl. rewrite Hcur.
  eexists; split; [reflexivity|]. simpl.
  split; [reflexivity|]. split.
  - unfold deref; simpl.
    rewrite (nth_upd_field _readied) by reflexivity.
    rewrite nth_upd_same by exact Hlt. reflexivity.
  - rewrite half_t_cs. repeat split; try reflexivity; lia.
Qed.

Lemma preempt_spec_witness :
  exists c',
    preempt 1%nat (CPU.mk wl_late 0 0 2 4%Q 0%Q 0%Q 1 0 4 (Some 0%nat) [] [] [])
    = Ok c'
    /\ _ready c' = [0%nat]
    /\ _readied (deref c' 0%nat) = 8
    /\ _curr c' = Some 1%nat
    /\ _ticker c' = 12
    /\ _context c' = 2
    /\ _preempt c' = 1.
Proof.
  destruct (preempt_spec 1%nat 0%nat
              (CPU.mk wl_late 0 0 2 4%Q 0%Q 0%Q 1 0 4 (Some 0%nat) [] [] [])
              eq_refl)
    as (c' & H1 & H2 & H3 & H4 & H5 & H6 & H7 & H8); [simpl; lia|].
  exists c'. repeat split; assumption.
Defined.

(** ** add *)

(** C7, as stated, fails: on a CPU that already runs process 0, [add] of
    process 1 completes and process 1 is the running one afterwards. *)
Lemma add_on_busy_cpu_replaces :
  let busy := CPU.mk wl_late 0 0 2 4%Q 0%Q 0%Q 1 0 4 (Some 0%nat) [1%nat] [] [] in
  _curr busy = Some 0%nat /\
  exists c', add 1%nat busy = Ok c' /\ _curr c' = Some 1%nat.
Proof. simpl. split; [reflexivity|]. eexists; split; reflexivity. Qed.

(** C7 (amended). [add] makes no check of the running slot and never fails:
    from every state it completes and the given process is the running one,
    whatever the slot held; the clock advances by half of [t_cs] and the
    context-switch counter by 1.  The guard is in the callers: the admission
    step of [run_fcfs] and of [run_srt] calls [add] only when the running slot
    is empty, and leaves a busy CPU untouched. *)
Theorem add_never_fails :
  (forall proc c, exists c',
      add proc c = Ok c'
      /\ _curr c' = Some proc
      /\ _ticker c' = _ticker c + t_cs / 2
      /\ _context c' = _context c + 1)
  /\ (forall c cur, _curr c = Some cur ->
        fcfs_admit c = Ok (c, []) /\ srt_admit c = Ok (c, [])).
Proof.
  split.
  - intros proc c. eexists; split; [reflexivity|]. simpl. auto.
  - intros c cur H. unfold fcfs_admit, srt_admit. rewrite H. auto.
Qed.

Lemma add_never_fails_witness :
  fcfs_admit (CPU.mk wl_late 0 0 2 4%Q 0%Q 0%Q 1 0 4 (Some 0%nat) [1%nat] [] [])
  = Ok (CPU.mk wl_late 0 0 2 4%Q 0%Q 0%Q 1 0 4 (Some 0%nat) [1%nat] [] [], []).
Proof.
  exact (proj1 (proj2 add_never_fails
                  (CPU.mk wl_late 0 0 2 4%Q 0%Q 0%Q 1 0 4 (Some 0%nat)
                          [1%nat] [] [])
                  0%nat eq_refl)).
Defined.

(** ** FCFS never preempts *)

(** A [for] loop keeps an invariant of the state and prints only events of a
    given kind when its body does. *)
Lemma for_each_inv_events {A : Type} (P : CPU.t -> Prop) (Q : event -> Prop)
    (body : A -> CPU.t -> result (CPU.t * list event)) :
  (forall x c c' e, P c -> body x c = Ok (c', e) -> P c' /\ Forall Q e) ->
  forall l c c' e, P c -> for_each l body c = Ok (c', e) -> P c' /\ Forall Q e.
Proof.
  intros Hbody l; induction l as [|x l IH]; simpl; intros c c' e Hc H.
  - injection H as <- <-; auto.
  - inv_bind H. destruct x0 as [c1 e1].
    inv_bind H. destruct x0 as [c2 e2].
    injection H as <- <-.
    destruct (Hbody _ _ _ _ Hc Hx) as [H1 H2].
    destruct (IH _ _ _ H1 Hx0) as [H3 H4].
    split; [assumption | apply Forall_app; auto].
Qed.

Lemma ready_decided proc c c' : ready proc c = Ok c' -> decided c' = decided c.
Proof. unfold ready; intros H; injection H as <-; reflexivity. Qed.

Lemma fcfs_io_done_decided c c' e :
  fcfs_io_done c = Ok (c', e) -> decided c' = decided c /\ Forall quiet e.
Proof.
  unfold fcfs_io_done.
  apply (for_each_inv_events (fun x => decided x = decided c) quiet);
    [|reflexivity].
  intros proc c1 c2 e1 H1 H. inv_bind H. injection H as <- <-.
  apply ready_decided in Hx. split; [rewrite <- H1, <- Hx; reflexivity|].
  repeat constructor.
Qed.

Lemma fcfs_arrivals_decided c c' e :
  fcfs_arrivals c = Ok (c', e) -> decided c' = decided c /\ Forall quiet e.
Proof.
  unfold fcfs_arrivals.
  apply (for_each_inv_events (fun x => decided x = decided c) quiet);
    [|reflexivity].
  intros proc c1 c2 e1 H1 H.
  destruct (Z.eqb _ _).
  - inv_bind H. injection H as <- <-.
    apply ready_decided in Hx. split; [rewrite <- H1, Hx; reflexivity|].
    repeat constructor.
  - injection H as <- <-. split; [exact H1 | constructor].
Qed.

Lemma fcfs_check_finished_preempt c c' r e :
  fcfs_check_finished c = (c', r, e) ->
  _preempt c' = _preempt c /\ Forall quiet e.
Proof.
  unfold fcfs_check_finished.
  destruct (_curr c) as [cur|];
    [|intros H; injection H as <- _ <-; split; [auto | constructor]].
  destruct (Z.leb _ _);
    [|intros H; injection H as <- _ <-; split; [auto | constructor]].
  match goal with |- context [Z.ltb ?a ?b] => destruct (Z.ltb a b) end;
    intros H; injection H as <- _ <-; split; try reflexivity;
    repeat constructor.
Qed.

Lemma remove_preempt c c' : remove c = Ok c' -> _preempt c' = _preempt c.
Proof.
  unfold remove; simpl; destruct (_curr c); intros H;
    [injection H as <-; reflexivity | discriminate].
Qed.

Lemma fcfs_admit_preempt c c' e :
  fcfs_admit c = Ok (c', e) -> _preempt c' = _preempt c /\ Forall quiet e.
Proof.
  unfold fcfs_admit.
  destruct (_curr c);
    [intros H; injection H as <- <-; split; [auto | constructor]|].
  destruct (_ready c) as [|proc rest];
    [intros H; injection H as <- <-; split; [auto | constructor]|].
  intros H. inv_bind H. inv_bind H. injection H as <- <-.
  unfold add in Hx. injection Hx as <-. split; [reflexivity|].
  repeat constructor.
Qed.

Lemma fcfs_body_preempt n c c' evs b :
  fcfs_body n c = Ok (c', evs, b) ->
  _preempt c' = _preempt c /\ Forall quiet evs.
Proof.
  unfold fcfs_body.
  destruct (fcfs_check_finished c) as [[c1 removed] e1] eqn:H1.
  apply fcfs_check_finished_preempt in H1. destruct H1 as [H1 Q1].
  intros H. inv_bind H. destruct x as [c2 e2].
  inv_bind H. destruct x as [c3 e3].
  inv_bind H. inv_bind H. destruct x0 as [c5 e5].
  apply fcfs_io_done_decided in Hx. destruct Hx as [H2 Q2].
  apply fcfs_arrivals_decided in Hx0. destruct Hx0 as [H3 Q3].
  apply fcfs_admit_preempt in Hx2. destruct Hx2 as [H5 Q5].
  assert (H4 : _preempt x = _preempt c3).
  { destruct removed; [apply remove_preempt in Hx1; exact Hx1
                      | injection Hx1 as <-; reflexivity]. }
  unfold decided in H2, H3. injection H2 as _ _ H2. injection H3 as _ _ H3.
  assert (Forall quiet (e1 ++ e2 ++ e3 ++ e5))
    by (repeat (apply Forall_app; split); assumption).
  destruct (Z.eqb _ _); injection H as <- <- _; simpl; split; auto;
    congruence.
Qed.

Lemma fcfs_loop_preempt fuel n c out c' out' :
  fcfs_loop fuel n c out = Returned (c', out') ->
  Forall quiet out ->
  _preempt c' = _preempt c /\ Forall quiet out'.
Proof.
  revert c out; induction fuel as [|fuel IH]; simpl; intros c out H Hout;
    [discriminate|].
  destruct (fcfs_body n c) as [[[c1 evs] b]|e] eqn:Hb; [|discriminate].
  apply fcfs_body_preempt in Hb. destruct Hb as [Hp Hq].
  assert (Forall quiet (out ++ evs)) by (apply Forall_app; auto).
  destruct b.
  - injection H as <- <-. auto.
  - apply IH in H; [|assumption]. destruct H as [H1 H2]. split; congruence.
Qed.

(** While the burst of the running process is not over, a pass of the FCFS
    loop keeps it on the CPU and switches no context. *)
Lemma fcfs_body_keeps_running n c c' evs b cur :
  fcfs_body n c = Ok (c', evs, b) ->
  _curr c = Some cur ->
  0 < _remaining (deref c cur) ->
  decided c' = decided c.
Proof.
  unfold fcfs_body, fcfs_check_finished. intros H Hcur Hrem.
  rewrite Hcur in H.
  destruct (Z.leb_spec (_remaining (deref c cur)) 0) as [Hle|_]; [lia|].
  inv_bind H. destruct x as [c2 e2].
  inv_bind H. destruct x as [c3 e3].
  inv_bind H. inv_bind H. destruct x0 as [c5 e5].
  apply fcfs_io_done_decided in Hx. destruct Hx as [H2 _].
  apply fcfs_arrivals_decided in Hx0. destruct Hx0 as [H3 _].
  injection Hx1 as <-.
  assert (Hc3 : decided c3 = decided c) by (rewrite H3, H2; reflexivity).
  unfold fcfs_admit in Hx2.
  assert (Hc3' : _curr c3 = Some cur)
    by (unfold decided in Hc3; congruence).
  rewrite Hc3' in Hx2. injection Hx2 as <- <-.
  destruct (Z.eqb _ _); injection H as <- _ _; exact Hc3.
Qed.

(** C9. Under FCFS no preemption occurs.  For every workload, a run that
    returns has preemption count 0 in its five-tuple and has printed no
    preemption event; and in every pass of the loop, from every state, a
    running process whose current burst is not over stays on the CPU (no
    context switch is counted either): it leaves only at the completion of
    its burst. *)
Theorem fcfs_never_preempts :
  (forall fuel n procs avg_burst avg_wait avg_turnaround context preempt out,
      run_fcfs fuel n procs
      = Returned ((avg_burst, avg_wait, avg_turnaround, context, preempt), out)
      -> preempt = 0 /\ Forall (fun e => is_preemption e = false) out)
  /\ (forall n c c' evs b cur,
        fcfs_body n c = Ok (c', evs, b) ->
        _curr c = Some cur ->
        0 < _remaining (deref c cur) ->
        _curr c' = Some cur
        /\ _context c' = _context c /\ _preempt c' = _preempt c).
Proof.
  split.
  - intros fuel n procs ab aw at_ cs pre out. unfold run_fcfs.
    destruct (CPU.init procs) as [cpu|e] eqn:Hi; [|discriminate].
    destruct (fcfs_loop fuel n cpu _) as [[c' out']|e|] eqn:Hl;
      try discriminate.
    apply fcfs_loop_preempt in Hl; [|repeat constructor].
    destruct Hl as [Hp Hq].
    unfold CPU.init in Hi. inv_bind Hi. injection Hi as <-. simpl in Hp.
    unfold summary. intros H.
    destruct (fdiv (_total_wait c') (_total_num c')) as [w|]; [|discriminate].
    simpl in H.
    destruct (fdiv (_total_turnaround c') (_total_num c')) as [ta|];
      [|discriminate].
    simpl in H. injection H as _ _ _ _ <- <-.
    split; [exact Hp|]. apply Forall_app; split; [exact Hq|].
    repeat constructor.
  - intros n c c' evs b cur H Hcur Hrem.
    pose proof (fcfs_body_keeps_running _ _ _ _ _ _ H Hcur Hrem) as Hd.
    unfold decided in Hd. injection Hd as H1 H2 H3.
    repeat split; congruence.
Qed.

Lemma fcfs_never_preempts_witness :
  exists out,
    run_fcfs 5 1 wl_single = Returned ((4%Q, 0%Q, 12%Q, 1, 0), out)
    /\ Forall (fun e => is_preemption e = false) out.
Proof.
  eexists. split; [vm_compute; reflexivity|].
  refine (proj2 (proj1 fcfs_never_preempts 5%nat 1 wl_single
                   4%Q 0%Q 12%Q 1 0 _ _)).
  vm_compute. reflexivity.
Defined.

(** ** Sorting *)

Section SortedFacts.
Context {A : Type} (leb : A -> A -> bool).
Hypothesis leb_total : forall a b, leb a b = true \/ leb b a = true.

Lemma insert_sorted_perm x l : Permutation (insert_sorted leb x l) (x :: l).
Proof.
  induction l as [|y l IH]; simpl; [reflexivity|].
  destruct (leb x y); [reflexivity|].
  rewrite IH. apply perm_swap.
Qed.

Lemma sorted_perm l : Permutation (sorted leb l) l.
Proof.
  induction l as [|x l IH]; simpl; [reflexivity|].
  rewrite insert_sorted_perm. apply perm_skip, IH.
Qed.

Lemma insert_sorted_HdRel a x l :
  leb a x = true -> HdRel (fun u v => leb u v = true) a l ->
  HdRel (fun u v => leb u v = true) a (insert_sorted leb x l).
Proof.
  intros Hax Hl. destruct l as [|y l]; simpl; [constructor; exact Hax|].
  destruct (leb x y); constructor; [exact Hax|].
  inversion Hl; assumption.
Qed.

Lemma insert_sorted_Sorted x l :
  Sorted (fun u v => leb u v = true) l ->
  Sorted (fun u v => leb u v = true) (insert_sorted leb x l).
Proof.
  induction l as [|y l IH]; simpl; intros Hs.
  - repeat constructor.
  - destruct (leb x y) eqn:E.
    + constructor; [exact Hs | constructor; exact E].
    + inversion Hs as [|? ? Hs' Hhd]; subst.
      constructor; [apply IH; exact Hs'|].
      apply insert_sorted_HdRel; [|exact Hhd].
      destruct (leb_total x y) as [H|H]; [congruence | exact H].
Qed.

Lemma sorted_Sorted l : Sorted (fun u v => leb u v = true) (sorted leb l).
Proof.
  induction l as [|x l IH]; simpl; [constructor|].
  apply insert_sorted_Sorted, IH.
Qed.

Hypothesis leb_trans :
  forall a b c, leb a b = true -> leb b c = true -> leb a c = true.


End SortedFacts.



Lemma srt_leb_total c a b : srt_leb c a b = true \/ srt_leb c b a = true.
Proof.
  unfold srt_leb.
  destruct (Z.ltb_spec (_remaining (deref c a)) (_remaining (deref c b)));
    [left; reflexivity|].
  destruct (Z.ltb_spec (_remaining (deref c b)) (_remaining (deref c a)));
    [right; reflexivity|].
  assert (E : _remaining (deref c a) = _remaining (deref c b)) by lia.
  rewrite E, Z.eqb_refl. simpl.
  apply String.leb_total.
Qed.


(** The key depends on the store only through [_remaining] and [_pid]. *)
Lemma srt_leb_ext c c' :
  (forall i, _remaining (deref c' i) = _remaining (deref c i)
             /\ _pid (deref c' i) = _pid (deref c i)) ->
  forall a b, srt_leb c' a b = srt_leb c a b.
Proof.
  intros H a b. unfold srt_leb.
  destruct (H a) as [-> ->], (H b) as [-> ->]. reflexivity.
Qed.

(** ** The two groups of newly ready processes under SRT *)

Lemma same_keys_refl c : same_keys c c.
Proof. intros i; auto. Qed.

Lemma same_keys_trans c1 c2 c3 :
  same_keys c1 c2 -> same_keys c2 c3 -> same_keys c1 c3.
Proof.
  intros H1 H2 i. destruct (H1 i), (H2 i). split; congruence.
Qed.

Lemma ready_spec proc c c' :
  ready proc c = Ok c' ->
  decided c' = decided c /\ same_keys c c' /\ _ready c' = _ready c ++ [proc].
Proof.
  unfold ready. intros H. injection H as <-. simpl.
  split; [reflexivity|]. split; [|reflexivity].
  intros i. unfold deref, mutate; simpl.
  split.
  - rewrite !(nth_upd_field _remaining) by reflexivity. reflexivity.
  - rewrite !(nth_upd_field _pid) by reflexivity. reflexivity.
Qed.

Lemma Sorted_ext {A : Type} (R R' : A -> A -> Prop) l :
  (forall a b, R a b -> R' a b) -> Sorted R l -> Sorted R' l.
Proof.
  intros HR. induction 1 as [|a l Hs IH Hhd]; constructor; auto.
  destruct Hhd; constructor; auto.
Qed.

Lemma srt_enqueue_spec added proc c c' e :
  srt_enqueue added proc c = Ok (c', e) ->
  decided c' = decided c /\ same_keys c c'
  /\ Permutation (_ready c') (_ready c ++ [proc])
  /\ Sorted (srt_le c') (_ready c').
Proof.
  unfold srt_enqueue. intros H. inv_bind H. injection H as <- _.
  apply ready_spec in Hx. destruct Hx as (Hd & Hk & Hr).
  simpl. split; [exact Hd|]. split; [exact Hk|]. split.
  - rewrite <- Hr. apply sorted_perm.
  - apply (sorted_Sorted (srt_leb x)). apply srt_leb_total.
Qed.

Lemma for_each_cons_Ok {A : Type} (x : A) l body c c' e :
  for_each (x :: l) body c = Ok (c', e) ->
  exists c1 e1 e2,
    body x c = Ok (c1, e1) /\ for_each l body c1 = Ok (c', e2)
    /\ e = e1 ++ e2.
Proof.
  simpl. intros H. inv_bind H. destruct x0 as [c1 e1].
  inv_bind H. destruct x0 as [c2 e2]. injection H as <- <-.
  exists c1, e1, e2. auto.
Qed.

Lemma srt_enqueue_all added l c c' e :
  for_each l (srt_enqueue added) c = Ok (c', e) ->
  decided c' = decided c /\ same_keys c c'
  /\ Permutation (_ready c') (_ready c ++ l)
  /\ (l <> [] -> Sorted (srt_le c') (_ready c')).
Proof.
  revert c c' e; induction l as [|proc l IH]; intros c c' e H.
  - simpl in H. injection H as <- _. rewrite app_nil_r.
    repeat split; try reflexivity; try apply same_keys_refl; congruence.
  - apply for_each_cons_Ok in H. destruct H as (c1 & e1 & e2 & Hx & Hx0 & _).
    apply srt_enqueue_spec in Hx. destruct Hx as (Hd1 & Hk1 & Hp1 & Hs1).
    destruct l as [|q l].
    + simpl in Hx0. injection Hx0 as <- _.
      split; [exact Hd1|]. split; [exact Hk1|]. split; [exact Hp1|].
      intros _; exact Hs1.
    + apply IH in Hx0. destruct Hx0 as (Hd2 & Hk2 & Hp2 & Hs2).
      split; [congruence|]. split; [eapply same_keys_trans; eauto|]. split.
      * rewrite Hp2, Hp1, <- app_assoc. reflexivity.
      * intros _. apply Hs2. discriminate.
Qed.

Lemma preempt_spec_gen proc c c' :
  preempt proc c = Ok c' ->
  exists cur,
    _curr c = Some cur
    /\ _curr c' = Some proc
    /\ _ready c' = cur :: _ready c
    /\ _context c' = _context c + 1
    /\ _preempt c' = _preempt c + 1.
Proof.
  unfold preempt. simpl. destruct (_curr c) as [cur|]; [|discriminate].
  intros H; injection H as <-. exists cur. simpl. auto.
Qed.

Lemma srt_try_preempt_cases pre removed group c c' e group' :
  srt_try_preempt pre removed group c = Ok (c', e, group') ->
  (c' = c /\ group' = group
   /\ forall best rest cur,
        group = best :: rest -> _curr c = Some cur -> removed = false ->
        _remaining (deref c cur) <= _remaining (deref c best))
  \/ (exists best cur,
        group = best :: group'
        /\ _curr c = Some cur
        /\ removed = false
        /\ _remaining (deref c best) < _remaining (deref c cur)
        /\ preempt best c = Ok c').
Proof.
  unfold srt_try_preempt.
  destruct group as [|best rest].
  { intros H; injection H as <- _ <-. left. repeat split. discriminate. }
  destruct (_curr c) as [cur|] eqn:Hcur.
  2:{ intros H; injection H as <- _ <-. left. repeat split. discriminate. }
  destruct removed; simpl.
  { intros H; injection H as <- _ <-. left. repeat split. discriminate. }
  destruct (Z.ltb_spec (_remaining (deref c best))
                       (_remaining (deref c cur))) as [Hlt|Hge].
  - intros H. inv_bind H. inv_bind H. injection H as <- _ <-.
    right. exists best, cur. auto.
  - intros H; injection H as <- _ <-. left. repeat split.
    intros b r k Hb Hk _. injection Hb as <- _. injection Hk as <-. lia.
Qed.

Lemma preempt_keys proc c c' :
  preempt proc c = Ok c' ->
  forall i, _pid (deref c' i) = _pid (deref c i).
Proof.
  unfold preempt. simpl. destruct (_curr c) as [cur|]; [|discriminate].
  intros H; injection H as <-. intros i. unfold deref, mutate. simpl.
  rewrite !(nth_upd_field _pid) by reflexivity. reflexivity.
Qed.

(** The two ways through a group: either no preemption and every candidate
    is enqueued, or the first candidate preempts and the others are
    enqueued. *)
Lemma srt_group_cases pre added removed group c c' evs :
  srt_group pre added removed group c = Ok (c', evs) ->
  (decided c' = decided c
   /\ Permutation (_ready c') (_ready c ++ group)
   /\ (group <> [] -> Sorted (srt_le c') (_ready c'))
   /\ forall best rest cur,
        group = best :: rest -> _curr c = Some cur -> removed = false ->
        _remaining (deref c cur) <= _remaining (deref c best))
  \/ (exists best rest cur,
        group = best :: rest
        /\ _curr c = Some cur
        /\ removed = false
        /\ _remaining (deref c best) < _remaining (deref c cur)
        /\ _curr c' = Some best
        /\ _context c' = _context c + 1
        /\ _preempt c' = _preempt c + 1
        /\ Permutation (_ready c') (cur :: _ready c ++ rest)
        /\ (rest <> [] -> Sorted (srt_le c') (_ready c'))).
Proof.
  unfold srt_group. destruct group as [|g0 group].
  { intros H; injection H as <- _. left. rewrite app_nil_r.
    repeat split; try reflexivity; try congruence. }
  intros H. inv_bind H. destruct x as [[c1 e1] group1].
  inv_bind H. destruct x as [c2 e2]. injection H as <- _.
  apply srt_enqueue_all in Hx0. destruct Hx0 as (Hd & Hk & Hp & Hs).
  apply srt_try_preempt_cases in Hx.
  destruct Hx as [(-> & -> & Hge) | (best & cur & Hg & Hcur & Hrm & Hlt & Hpre)].
  - left. repeat split; auto; congruence.
  - right. injection Hg as -> ->. exists best, group1, cur.
    apply preempt_spec_gen in Hpre.
    destruct Hpre as (cur' & Hcur' & Hc1 & Hr1 & Hcs & Hpc).
    assert (cur' = cur) by congruence. subst cur'.
    unfold decided in Hd. injection Hd as Hd1 Hd2 Hd3.
    repeat split; try congruence; try exact Hs.
    rewrite Hp, Hr1. reflexivity.
Qed.

Lemma srt_check_finished_preempt c c' r e :
  srt_check_finished c = (c', r, e) -> _preempt c' = _preempt c.
Proof.
  unfold srt_check_finished.
  destruct (_curr c) as [cur|]; [|intros H; injection H as <- _ _; auto].
  destruct (Z.leb _ _); [|intros H; injection H as <- _ _; auto].
  match goal with |- context [Z.ltb ?a ?b] => destruct (Z.ltb a b) end;
    intros H; injection H as <- _ _; reflexivity.
Qed.

Lemma srt_admit_preempt c c' e :
  srt_admit c = Ok (c', e) -> _preempt c' = _preempt c.
Proof.
  unfold srt_admit.
  destruct (_curr c); [intros H; injection H as <- _; auto|].
  destruct (_ready c) as [|proc rest]; [intros H; injection H as <- _; auto|].
  intros H. inv_bind H. inv_bind H.
  unfold add in Hx. injection Hx as <-.
  destruct (Z.eqb _ _); injection H as <- _; reflexivity.
Qed.

(** A pass of the SRT loop, cut at the places where a preemption can occur. *)
Lemma srt_body_phases n c c' evs b :
  srt_body n c = Ok (c', evs, b) ->
  exists c1 removed e1 c2 e2 c3 e3,
    srt_check_finished c = (c1, removed, e1)
    /\ srt_io_done removed c1 = Ok (c2, e2)
    /\ srt_arrivals removed c2 = Ok (c3, e3)
    /\ _preempt c1 = _preempt c
    /\ _preempt c' = _preempt c3.
Proof.
  unfold srt_body.
  destruct (srt_check_finished c) as [[c1 removed] e1] eqn:H1.
  intros H. inv_bind H. destruct x as [c2 e2].
  inv_bind H. destruct x as [c3 e3].
  inv_bind H. inv_bind H. destruct x0 as [c5 e5].
  exists c1, removed, e1, c2, e2, c3, e3.
  repeat split; auto.
  - eapply srt_check_finished_preempt; eauto.
  - apply srt_admit_preempt in Hx2.
    assert (_preempt x = _preempt c3).
    { destruct removed; [apply remove_preempt in Hx1; exact Hx1
                        | injection Hx1 as <-; reflexivity]. }
    destruct (Z.eqb _ _); injection H as <- _ _; simpl; congruence.
Qed.


Lemma srt_sorted_group_preempt pre added removed l c c' evs :
  srt_group pre added removed (sorted (srt_leb c) l) c = Ok (c', evs) ->
  (_preempt c' <> _preempt c ->
   exists cand cur,
     In cand l /\ _curr c = Some cur
     /\ _remaining (deref c cand) < _remaining (deref c cur)
     /\ _curr c' = Some cand /\ _preempt c' = _preempt c + 1)
  /\ (forall cur,
        _curr c = Some cur ->
        (forall cand, In cand l ->
                      _remaining (deref c cur) <= _remaining (deref c cand)) ->
        _curr c' = Some cur /\ _preempt c' = _preempt c).
Proof.
  intros H. apply srt_group_cases in H.
  destruct H as [(Hd & _) | (best & rest & cur & Hg & Hcur & _ & Hlt & Hc' & _ & Hp & _)].
  - unfold decided in Hd. injection Hd as H1 _ H3. split.
    + intros Hne. congruence.
    + intros cur Hcur _. split; congruence.
  - assert (Hin : In best l).
    { apply Permutation_in with (l := sorted (srt_leb c) l);
        [apply sorted_perm | rewrite Hg; left; reflexivity]. }
    split.
    + intros _. exists best, cur. auto.
    + intros cur' Hcur' Hall. assert (cur' = cur) by congruence. subst cur'.
      specialize (Hall best Hin). lia.
Qed.

(** C2. Under SRT a preemption occurs only for a newly ready candidate whose
    remaining burst time is strictly less than that of the running process.
    In the group of the I/O completions and in the group of the arrivals of a
    pass: if the preemption counter moves, then a candidate of the group with
    strictly less remaining time than the running process has taken the CPU;
    and if no candidate has strictly less remaining time (in particular when
    the times are equal), the running process and the counter are unchanged.
    The other steps of a pass do not touch the counter. *)
Theorem srt_preempts_only_strictly_shorter :
  (forall removed c c' evs,
      srt_io_done removed c = Ok (c', evs) ->
      (_preempt c' <> _preempt c ->
       exists cand cur,
         In cand (io_at_ticker c) /\ _curr c = Some cur
         /\ _remaining (deref c cand) < _remaining (deref c cur)
         /\ _curr c' = Some cand /\ _preempt c' = _preempt c + 1)
      /\ (forall cur,
            _curr c = Some cur ->
            (forall cand, In cand (io_at_ticker c) ->
               _remaining (deref c cur) <= _remaining (deref c cand)) ->
            _curr c' = Some cur /\ _preempt c' = _preempt c))
  /\ (forall removed c c' evs,
      srt_arrivals removed c = Ok (c', evs) ->
      (_preempt c' <> _preempt c ->
       exists cand cur,
         In cand (arriving c) /\ _curr c = Some cur
         /\ _remaining (deref c cand) < _remaining (deref c cur)
         /\ _curr c' = Some cand /\ _preempt c' = _preempt c + 1)
      /\ (forall cur,
            _curr c = Some cur ->
            (forall cand, In cand (arriving c) ->
               _remaining (deref c cur) <= _remaining (deref c cand)) ->
            _curr c' = Some cur /\ _preempt c' = _preempt c))
  /\ (forall n c c' evs b,
      srt_body n c = Ok (c', evs, b) ->
      exists c1 removed e1 c2 e2 c3 e3,
        srt_check_finished c = (c1, removed, e1)
        /\ srt_io_done removed c1 = Ok (c2, e2)
        /\ srt_arrivals removed c2 = Ok (c3, e3)
        /\ _preempt c1 = _preempt c
        /\ _preempt c' = _preempt c3).
Proof.
  split; [|split].
  - intros removed c c' evs H. eapply srt_sorted_group_preempt. exact H.
  - intros removed c c' evs H. eapply srt_sorted_group_preempt. exact H.
  - apply srt_body_phases.
Qed.

(** Equal remaining times: the I/O of [A] (3 ms) completes while [B] runs
    with 3 ms left; [B] keeps the CPU. *)
Lemma srt_preempts_only_strictly_shorter_witness :
  exists c' evs,
    srt_io_done false cpu_equal_20 = Ok (c', evs)
    /\ _remaining (deref cpu_equal_20 0%nat)
       = _remaining (deref cpu_equal_20 1%nat)
    /\ _curr c' = Some 1%nat /\ _preempt c' = _preempt cpu_equal_20.
Proof.
  do 2 eexists. split; [vm_compute; reflexivity|]. split; [reflexivity|].
  refine (proj2 (proj1 srt_preempts_only_strictly_shorter
                   false cpu_equal_20 _ _ _) 1%nat eq_refl _).
  - vm_compute. reflexivity.
  - intros cand [<-|[]]. vm_compute. discriminate.
Defined.





(** ** A process that arrives during a context switch *)

Lemma fcfs_loop_step n c c' evs out :
  fcfs_body n c = Ok (c', evs, false) ->
  (forall fuel, fcfs_loop fuel n c' (out ++ evs) = OutOfFuel) ->
  forall fuel, fcfs_loop fuel n c out = OutOfFuel.
Proof.
  intros Hb Hrest [|fuel]; simpl; [reflexivity|]. rewrite Hb. apply Hrest.
Qed.

Lemma cpu_late_idle_pass (t : Z) :
  13 <= t ->
  fcfs_body 2 (cpu_late_idle t) = Ok (cpu_late_idle (t + 1), [], false).
Proof.
  intros Ht.
  destruct t as [|p|p]; try lia.
  destruct p as [p|p|]; try lia; reflexivity.
Qed.

Lemma cpu_late_idle_forever (fuel : nat) :
  forall t out, 13 <= t -> fcfs_loop fuel 2 (cpu_late_idle t) out = OutOfFuel.
Proof.
  induction fuel as [|fuel IH]; intros t out Ht; simpl; [reflexivity|].
  rewrite cpu_late_idle_pass by exact Ht. apply IH. lia.
Qed.

(** C5 (the code does not do it).  On [wl_late], two processes of one 4 ms
    burst each, arriving at 0 and at 1, the FCFS loop never ends: whatever the
    number of passes allowed, the run is still going.  The arrival of [B] at
    tick 1 falls inside the context switch that admits [A] (the clock goes
    from 0 to 4, then to 5), the test [proc._arrival == cpu._ticker] never
    holds for it, and [len(cpu._finished)] stays at 1. *)
Theorem fcfs_late_arrival_never_ends (fuel : nat) :
  run_fcfs fuel (main_n wl_late) wl_late = OutOfFuel.
Proof.
  unfold run_fcfs.
  change (CPU.init wl_late)
    with (Ok (CPU.mk wl_late 0 0 2 4%Q 0%Q 0%Q 0 0 0 None [] [] [])).
  cbv iota beta.
  enough (H : forall fuel,
             fcfs_loop fuel (main_n wl_late)
               (CPU.mk wl_late 0 0 2 4%Q 0%Q 0%Q 0 0 0 None [] [] [])
               [SimStarted 0 "[Q <empty>]"] = OutOfFuel).
  { change (get_queue _) with "[Q <empty>]"%string. simpl _ticker.
    rewrite H. reflexivity. }
  clear fuel.
  do 5 (eapply fcfs_loop_step; [vm_compute; reflexivity|]).
  intros fuel. apply (cpu_late_idle_forever fuel 13). lia.
Qed.

(** The same slip loses an I/O completion.  With no I/O time, the completion
    time of the I/O of [A] is the tick at which [remove] leaves the clock,
    and the pass ends one tick later. *)
Lemma cpu_zero_io_idle_pass (t : Z) :
  13 <= t ->
  fcfs_body 1 (cpu_zero_io_idle t) = Ok (cpu_zero_io_idle (t + 1), [], false).
Proof.
  intros Ht.
  unfold fcfs_body, fcfs_check_finished, fcfs_io_done, fcfs_arrivals,
    io_at_ticker, cpu_zero_io_idle.
  cbn -[Z.eqb Z.add].
  rewrite (proj2 (Z.eqb_neq 12 t)) by lia.
  cbn -[Z.eqb Z.add].
  rewrite (proj2 (Z.eqb_neq 0 t)) by lia.
  reflexivity.
Qed.

Lemma cpu_zero_io_idle_forever (fuel : nat) :
  forall t out,
    13 <= t -> fcfs_loop fuel 1 (cpu_zero_io_idle t) out = OutOfFuel.
Proof.
  induction fuel as [|fuel IH]; intros t out Ht; simpl; [reflexivity|].
  rewrite cpu_zero_io_idle_pass by exact Ht. apply IH. lia.
Qed.

Lemma fcfs_zero_io_never_ends (fuel : nat) :
  run_fcfs fuel (main_n wl_zero_io) wl_zero_io = OutOfFuel.
Proof.
  unfold run_fcfs.
  change (CPU.init wl_zero_io)
    with (Ok (CPU.mk wl_zero_io 0 0 2 4%Q 0%Q 0%Q 0 0 0 None [] [] [])).
  cbv iota beta.
  enough (H : forall fuel,
             fcfs_loop fuel (main_n wl_zero_io)
               (CPU.mk wl_zero_io 0 0 2 4%Q 0%Q 0%Q 0 0 0 None [] [] [])
               [SimStarted 0 "[Q <empty>]"] = OutOfFuel).
  { change (get_queue _) with "[Q <empty>]"%string. simpl _ticker.
    rewrite H. reflexivity. }
  clear fuel.
  do 5 (eapply fcfs_loop_step; [vm_compute; reflexivity|]).
  intros fuel. apply (cpu_zero_io_idle_forever fuel 13). lia.
Qed.

(** ** One place per process *)

(** C6, as stated, fails.  The FCFS run of [A|0|4|2|1] returns; the burst
    counts sum to 2 and exactly one [Terminated] event is printed. *)
Lemma terminated_events_not_burst_count :
  zsum (map Process._num wl_two_bursts) = 2
  /\ exists s out,
      run_fcfs 10 (main_n wl_two_bursts) wl_two_bursts = Returned (s, out)
      /\ terminations out = 1%nat.
Proof.
  split; [reflexivity|]. do 2 eexists.
  split; [vm_compute; reflexivity | reflexivity].
Qed.

Section DictFacts.
Variables (q : pref).

Lemma keys_filter_count (f : pref * Z -> bool) (d : dict) :
  (count_occ Nat.eq_dec (map fst (filter f d)) q
   <= count_occ Nat.eq_dec (map fst d) q)%nat.
Proof.
  induction d as [|[k v] d IH]; simpl; [lia|].
  destruct (f (k, v)); simpl; destruct (Nat.eq_dec k q); lia.
Qed.

Lemma keys_filter_filter_count (f g : pref * Z -> bool) (d : dict) :
  (count_occ Nat.eq_dec (map fst (filter f (filter g d))) q
   <= count_occ Nat.eq_dec (map fst (filter f d)) q)%nat.
Proof.
  induction d as [|[k v] d IH]; simpl; [lia|].
  destruct (g (k, v)), (f (k, v)) eqn:E; simpl; rewrite ?E; simpl;
    destruct (Nat.eq_dec k q); lia.
Qed.

Lemma live_mono (lo lo' : Z) (d : dict) :
  lo <= lo' ->
  (count_occ Nat.eq_dec (live lo' d) q
   <= count_occ Nat.eq_dec (live lo d) q)%nat.
Proof.
  intros Hlo. unfold live.
  induction d as [|[k v] d IH]; simpl; [lia|].
  destruct (Z.leb_spec lo' v), (Z.leb_spec lo v); simpl;
    try destruct (Nat.eq_dec k q); lia.
Qed.

Lemma live_le_keys (lo : Z) (d : dict) :
  (count_occ Nat.eq_dec (live lo d) q
   <= count_occ Nat.eq_dec (dict_keys d) q)%nat.
Proof. apply keys_filter_count. Qed.

Lemma live_dict_del (lo : Z) (k : pref) (d : dict) :
  (count_occ Nat.eq_dec (live lo (dict_del k d)) q
   <= count_occ Nat.eq_dec (live lo d) q)%nat.
Proof. apply keys_filter_filter_count. Qed.

Lemma live_dict_set_other (lo : Z) (k : pref) (v : Z) (d : dict) :
  k <> q ->
  count_occ Nat.eq_dec (live lo (dict_set k v d)) q
  = count_occ Nat.eq_dec (live lo d) q.
Proof.
  intros Hk. unfold live.
  induction d as [|[k' v'] d IH]; simpl.
  - destruct (Z.leb lo v); simpl; [|reflexivity].
    destruct (Nat.eq_dec k q); [contradiction | reflexivity].
  - destruct (Nat.eqb_spec k k') as [<-|Hne]; simpl.
    + destruct (Z.leb lo v), (Z.leb lo v'); simpl;
        destruct (Nat.eq_dec k q); try contradiction; reflexivity.
    + destruct (Z.leb lo v'); simpl; rewrite IH; reflexivity.
Qed.

End DictFacts.

Lemma keys_dict_set_count (q k : pref) (v : Z) (d : dict) :
  (count_occ Nat.eq_dec (dict_keys d) q <= 1)%nat ->
  (count_occ Nat.eq_dec (dict_keys (dict_set k v d)) q <= 1)%nat.
Proof.
  unfold dict_keys.
  induction d as [|[k' v'] d IH]; simpl.
  - destruct (Nat.eq_dec k q); lia.
  - destruct (Nat.eqb_spec k k') as [<-|Hne]; simpl; [auto|].
    destruct (Nat.eq_dec k' q); intros H; [|auto].
    assert (H0 : count_occ Nat.eq_dec (map fst d) q = 0%nat) by lia.
    clear IH H. subst k'.
    enough (count_occ Nat.eq_dec (map fst (dict_set k v d)) q = 0%nat) by lia.
    induction d as [|[k2 v2] d IH]; simpl in *.
    + destruct (Nat.eq_dec k q); [congruence | reflexivity].
    + destruct (Nat.eq_dec k2 q); [discriminate|].
      destruct (Nat.eqb_spec k k2); simpl.
      * destruct (Nat.eq_dec k q); [congruence | exact H0].
      * destruct (Nat.eq_dec k2 q); [contradiction | auto].
Qed.

Lemma NoDup_count_le {l : list pref} :
  NoDup l <-> forall q, (count_occ Nat.eq_dec l q <= 1)%nat.
Proof. apply NoDup_count_occ. Qed.

Lemma dict_set_NoDup (k : pref) (v : Z) (d : dict) :
  NoDup (dict_keys d) -> NoDup (dict_keys (dict_set k v d)).
Proof.
  rewrite !NoDup_count_le. intros H q. apply keys_dict_set_count, H.
Qed.

Lemma dict_del_NoDup (k : pref) (d : dict) :
  NoDup (dict_keys d) -> NoDup (dict_keys (dict_del k d)).
Proof.
  rewrite !NoDup_count_le. intros H q.
  unfold dict_keys, dict_del.
  pose proof (keys_filter_count q (fun kv => negb (Nat.eqb k (fst kv))) d).
  specialize (H q). unfold dict_keys in H. lia.
Qed.

(** A new key goes to the end of the dictionary. *)
Lemma dict_set_fresh (k : pref) (v : Z) (d : dict) :
  count_occ Nat.eq_dec (dict_keys d) k = 0%nat ->
  dict_set k v d = d ++ [(k, v)].
Proof.
  unfold dict_keys.
  induction d as [|[k' v'] d IH]; simpl; [reflexivity|].
  destruct (Nat.eq_dec k' k) as [->|Hne]; [discriminate|].
  destruct (Nat.eqb_spec k k'); [congruence|].
  intros H. rewrite IH by exact H. reflexivity.
Qed.

(** With one entry per key, the entry of a process says whether it is
    live. *)
Lemma live_entry (lo : Z) (k : pref) (v : Z) (d : dict) :
  NoDup (dict_keys d) -> In (k, v) d ->
  count_occ Nat.eq_dec (live lo d) k = if Z.leb lo v then 1%nat else 0%nat.
Proof.
  unfold dict_keys, live.
  induction d as [|[k' v'] d IH]; simpl; [contradiction|].
  intros Hnd [E|Hin].
  - injection E as -> ->. inversion Hnd as [|? ? Hnot _]; subst.
    assert (H0 : count_occ Nat.eq_dec
                   (map fst (filter (fun kv => Z.leb lo (snd kv)) d)) k
                 = 0%nat).
    { pose proof (keys_filter_count k (fun kv => Z.leb lo (snd kv)) d).
      apply (count_occ_not_In Nat.eq_dec) in Hnot. lia. }
    destruct (Z.leb lo v); simpl; [|exact H0].
    destruct (Nat.eq_dec k k); [lia | contradiction].
  - inversion Hnd as [|? ? Hnot Hnd']; subst.
    assert (k' <> k).
    { intros ->. apply Hnot. apply in_map_iff. exists (k, v). auto. }
    destruct (Z.leb lo v'); simpl;
      [destruct (Nat.eq_dec k' k); [contradiction|]|]; apply IH; auto.
Qed.

Lemma static_refl c : static c c.
Proof. split; auto. Qed.

Lemma static_trans c1 c2 c3 : static c1 c2 -> static c2 c3 -> static c1 c3.
Proof.
  intros [H1 H2] [H3 H4]. split; [congruence|].
  intros i. rewrite H4, H2. reflexivity.
Qed.

Lemma mutate_static proc f c :
  (forall p, _arrival (f p) = _arrival p) -> static c (mutate proc f c).
Proof.
  intros Hf. split; simpl; [apply upd_length|].
  intros i. unfold deref; simpl. apply (nth_upd_field _arrival). exact Hf.
Qed.

Lemma quiet_step_refl c : quiet_step c c.
Proof. repeat split; auto. Qed.

Lemma quiet_step_trans c1 c2 c3 :
  quiet_step c1 c2 -> quiet_step c2 c3 -> quiet_step c1 c3.
Proof.
  intros (S1 & T1 & F1 & N1) (S2 & T2 & F2 & N2).
  split; [eapply static_trans; eauto|].
  repeat split; try congruence. auto.
Qed.

Lemma terminations_app a b :
  terminations (a ++ b) = (terminations a + terminations b)%nat.
Proof. unfold terminations. rewrite filter_app, length_app. reflexivity. Qed.

Lemma terminations_none e : Forall not_terminated e -> terminations e = 0%nat.
Proof.
  unfold terminations. induction 1 as [|x l Hx _ IH]; simpl; [reflexivity|].
  rewrite Hx. exact IH.
Qed.

(** The invariant goes through a step that puts the processes of [extra],
    which were nowhere, each in one place, and moves no other process to a
    second place. *)
Lemma one_place_transfer (extra : list pref) c c' lo la lo' la' r r' :
  one_place c lo la r ->
  NoDup (dict_keys (CPU._io c')) ->
  (forall i, _arrival (deref c' i) = _arrival (deref c i)) ->
  (forall q, (occ c' lo' r' q
              <= occ c lo r q + count_occ Nat.eq_dec extra q)%nat) ->
  NoDup extra ->
  (forall p, In p extra ->
             occ c lo r p = 0%nat /\ _arrival (deref c p) < la') ->
  la <= la' ->
  one_place c' lo' la' r'.
Proof.
  intros [Hio Hocc Harr] Hio' Hst Hle Hnd Hex Hla.
  rewrite NoDup_count_le in Hnd.
  assert (Hcases : forall q,
             (count_occ Nat.eq_dec extra q = 0)%nat
             \/ (occ c lo r q = 0%nat /\ _arrival (deref c q) < la')).
  { intros q. destruct (count_occ Nat.eq_dec extra q) eqn:E; [left; auto|].
    right. apply Hex. apply (count_occ_In Nat.eq_dec). lia. }
  constructor; [exact Hio'| |].
  - intros p. specialize (Hle p). specialize (Hocc p). specialize (Hnd p).
    destruct (Hcases p) as [H0|[H0 _]]; lia.
  - intros p Hp. rewrite Hst. specialize (Hle p).
    destruct (Hcases p) as [H0|[_ H0]]; [|exact H0].
    assert (Hp' : (1 <= occ c lo r p)%nat) by lia.
    specialize (Harr p Hp'). lia.
Qed.

Lemma one_place_weaken c c' lo la lo' la' r r' :
  one_place c lo la r ->
  NoDup (dict_keys (CPU._io c')) ->
  (forall i, _arrival (deref c' i) = _arrival (deref c i)) ->
  (forall q, (occ c' lo' r' q <= occ c lo r q)%nat) ->
  la <= la' ->
  one_place c' lo' la' r'.
Proof.
  intros H Hio Hst Hle Hla.
  apply (one_place_transfer [] c c' lo la lo' la' r r'); auto.
  - intros q. specialize (Hle q). simpl. lia.
  - constructor.
  - intros p [].
Qed.

Lemma occ_raise c lo lo' r q :
  lo <= lo' -> (occ c lo' r q <= occ c lo r q)%nat.
Proof.
  intros H. unfold occ. pose proof (live_mono q lo lo' (CPU._io c) H). lia.
Qed.

Lemma count_occ_snoc (l : list pref) (x q : pref) :
  count_occ Nat.eq_dec (l ++ [x]) q
  = (count_occ Nat.eq_dec l q + same_ref x q)%nat.
Proof.
  rewrite count_occ_app. simpl. unfold same_ref.
  destruct (Nat.eq_dec x q); reflexivity.
Qed.

Lemma ready_occ proc c c' lo r :
  ready proc c = Ok c' ->
  quiet_step c c' /\ CPU._io c' = CPU._io c
  /\ forall q, occ c' lo r q = (occ c lo r q + same_ref proc q)%nat.
Proof.
  unfold ready. intros H; injection H as <-.
  split; [|split].
  - split; [|repeat split; auto].
    eapply static_trans; apply mutate_static; reflexivity.
  - reflexivity.
  - intros q. unfold occ, curr_count. simpl.
    rewrite count_occ_snoc. lia.
Qed.

(** The running process, its burst over, blocks on I/O. *)
Lemma block_one_place c c1 cur until lo la :
  one_place c lo la false ->
  _curr c = Some cur ->
  static c c1 ->
  _ready c1 = _ready c ->
  CPU._io c1 = dict_set cur until (CPU._io c) ->
  _finished c1 = _finished c ->
  one_place c1 lo la true.
Proof.
  intros Hop Hcur [_ Hst] Hr Hio Hf.
  apply (one_place_weaken c c1 lo la lo la false true); auto; try lia.
  - rewrite Hio. apply dict_set_NoDup, Hop.
  - intros q. pose proof (op_occ _ _ _ _ Hop q) as Hq.
    unfold occ, curr_count in *. rewrite Hcur in Hq.
    rewrite Hcur, Hr, Hio, Hf. cbv iota.
    destruct (Nat.eq_dec cur q) as [->|Hne].
    + pose proof (live_le_keys q lo (dict_set q until (CPU._io c))).
      pose proof (keys_dict_set_count q q until (CPU._io c)) as Hk.
      pose proof (op_io_keys _ _ _ _ Hop) as Hnd.
      rewrite NoDup_count_le in Hnd. specialize (Hk (Hnd q)). lia.
    + rewrite live_dict_set_other by exact Hne. lia.
Qed.

(** The running process, its last burst over, terminates: it was not in
    [_finished], and is there once afterwards. *)
Lemma finish_one_place c c1 cur t lo la :
  one_place c lo la false ->
  _curr c = Some cur ->
  static c c1 ->
  _ready c1 = _ready c ->
  CPU._io c1 = CPU._io c ->
  _finished c1 = dict_set cur t (_finished c) ->
  one_place c1 lo la true
  /\ List.length (_finished c1) = S (List.length (_finished c)).
Proof.
  intros Hop Hcur [_ Hst] Hr Hio Hf.
  pose proof (op_occ _ _ _ _ Hop cur) as Hc.
  unfold occ, curr_count in Hc. rewrite Hcur in Hc.
  destruct (Nat.eq_dec cur cur) as [_|]; [|contradiction].
  assert (Hfresh : count_occ Nat.eq_dec (dict_keys (_finished c)) cur = 0%nat)
    by lia.
  rewrite (dict_set_fresh _ _ _ Hfresh) in Hf.
  split.
  - apply (one_place_weaken c c1 lo la lo la false true); auto; try lia.
    + rewrite Hio. apply Hop.
    + intros q. unfold occ, curr_count. rewrite Hcur, Hr, Hio, Hf.
      cbv iota. unfold dict_keys. rewrite map_app. simpl map.
      rewrite count_occ_snoc. unfold same_ref.
      destruct (Nat.eq_dec cur q); lia.
  - rewrite Hf, length_app. simpl. lia.
Qed.

Lemma fcfs_check_finished_one_place c c1 removed e1 lo la :
  one_place c lo la false ->
  fcfs_check_finished c = (c1, removed, e1) ->
  one_place c1 lo la removed
  /\ static c c1
  /\ _ticker c1 = _ticker c
  /\ List.length (_finished c1)
     = (List.length (_finished c) + terminations e1)%nat.
Proof.
  intros Hop. unfold fcfs_check_finished.
  destruct (_curr c) as [cur|] eqn:Hcur.
  2:{ intros H; injection H as <- <- <-.
      split; [exact Hop|]. split; [apply static_refl|].
      split; [reflexivity|]. unfold terminations; simpl; lia. }
  destruct (Z.leb _ _).
  2:{ intros H; injection H as <- <- <-.
      assert (Hs : static c (mutate cur
                               (fun p => set_remaining (_remaining p - 1) p) c))
        by (apply mutate_static; reflexivity).
      split; [|split; [exact Hs|split; [reflexivity|unfold terminations; simpl; lia]]].
      apply (one_place_weaken c _ lo la lo la false false); auto;
        try lia; try apply Hop; try apply Hs. }
  set (ca := mutate cur (fun p => set_num (_num p - 1) p) c).
  assert (Hs : static c ca) by (apply mutate_static; reflexivity).
  destruct (Z.ltb _ _); intros H; injection H as <- <- <-.
  - split; [|split; [exact Hs|split; [reflexivity|unfold terminations; simpl; lia]]].
    eapply (block_one_place c _ cur); eauto; reflexivity.
  - destruct (finish_one_place c
                (set_finished (dict_set cur (_ticker ca) (_finished ca)) ca)
                cur (_ticker ca) lo la Hop Hcur) as [H1 H2];
      try reflexivity; try exact Hs.
    split; [exact H1|]. split; [exact Hs|]. split; [reflexivity|].
    unfold terminations; simpl in H2 |- *; lia.
Qed.

Lemma srt_check_finished_one_place c c1 removed e1 lo la :
  one_place c lo la false ->
  srt_check_finished c = (c1, removed, e1) ->
  one_place c1 lo la removed
  /\ static c c1
  /\ _ticker c1 = _ticker c
  /\ List.length (_finished c1)
     = (List.length (_finished c) + terminations e1)%nat.
Proof.
  intros Hop. unfold srt_check_finished.
  destruct (_curr c) as [cur|] eqn:Hcur.
  2:{ intros H; injection H as <- <- <-.
      split; [exact Hop|]. split; [apply static_refl|].
      split; [reflexivity|]. unfold terminations; simpl; lia. }
  destruct (Z.leb _ _).
  2:{ intros H; injection H as <- <- <-.
      assert (Hs : static c (mutate cur
                               (fun p => set_remaining (_remaining p - 1) p) c))
        by (apply mutate_static; reflexivity).
      split; [|split; [exact Hs|split; [reflexivity|unfold terminations; simpl; lia]]].
      apply (one_place_weaken c _ lo la lo la false false); auto;
        try lia; try apply Hop; try apply Hs. }
  set (ca := mutate cur (fun p => set_num (_num p - 1) p) c).
  assert (Hs : static c ca) by (apply mutate_static; reflexivity).
  destruct (Z.ltb _ _); intros H; injection H as <- <- <-.
  - set (cb := mutate cur (fun p => set_remaining (_burst p) p) ca).
    assert (Hs' : static c cb).
    { eapply static_trans; [exact Hs|]. apply mutate_static; reflexivity. }
    split; [|split; [exact Hs'|split; [reflexivity|unfold terminations; simpl; lia]]].
    eapply (block_one_place c _ cur); eauto; reflexivity.
  - destruct (finish_one_place c
                (set_finished (dict_set cur (_ticker ca) (_finished ca)) ca)
                cur (_ticker ca) lo la Hop Hcur) as [H1 H2];
      try reflexivity; try exact Hs.
    split; [exact H1|]. split; [exact Hs|]. split; [reflexivity|].
    unfold terminations; simpl in H2 |- *; lia.
Qed.

(** A loop whose body puts the process it visits in at most one more place,
    when the test [f] selects it, and is otherwise quiet. *)
Lemma for_each_enqueues (lo : Z) (r : bool) (f : pref -> bool)
    (body : pref -> CPU.t -> result (CPU.t * list event)) (c0 : CPU.t) :
  (forall x c c' e,
      quiet_step c0 c -> body x c = Ok (c', e) ->
      quiet_step c c' /\ Forall not_terminated e
      /\ forall q, (occ c' lo r q
                    <= occ c lo r q
                       + (if f x then same_ref x q else 0))%nat) ->
  forall l c c' e,
    quiet_step c0 c -> for_each l body c = Ok (c', e) ->
    quiet_step c c' /\ Forall not_terminated e
    /\ forall q, (occ c' lo r q
                  <= occ c lo r q + count_occ Nat.eq_dec (filter f l) q)%nat.
Proof.
  intros Hbody l; induction l as [|x l IH]; intros c c' e H0 H.
  - simpl in H. injection H as <- <-.
    split; [apply quiet_step_refl|]. split; [constructor|].
    intros q; simpl; lia.
  - apply for_each_cons_Ok in H.
    destruct H as (c1 & e1 & e2 & Hx & Hl & ->).
    destruct (Hbody _ _ _ _ H0 Hx) as (Q1 & E1 & O1).
    assert (H1 : quiet_step c0 c1) by (eapply quiet_step_trans; eauto).
    destruct (IH _ _ _ H1 Hl) as (Q2 & E2 & O2).
    split; [eapply quiet_step_trans; eauto|].
    split; [apply Forall_app; auto|].
    intros q. specialize (O1 q). specialize (O2 q). simpl.
    destruct (f x); simpl; unfold same_ref in *;
      try destruct (Nat.eq_dec x q); lia.
Qed.

Lemma filter_all {A : Type} (l : list A) : filter (fun _ => true) l = l.
Proof. induction l as [|x l IH]; simpl; congruence. Qed.

Lemma fcfs_io_done_occ lo r c c' e :
  fcfs_io_done c = Ok (c', e) ->
  quiet_step c c' /\ Forall not_terminated e
  /\ forall q, (occ c' lo r q
                <= occ c lo r q
                   + count_occ Nat.eq_dec
                       (sorted (pid_leb c) (io_at_ticker c)) q)%nat.
Proof.
  unfold fcfs_io_done. intros H.
  rewrite <- (filter_all (sorted (pid_leb c) (io_at_ticker c))).
  eapply (for_each_enqueues lo r (fun _ => true) _ c);
    [|apply quiet_step_refl|exact H].
  clear c' e H. intros proc c1 c2 e _ H.
  inv_bind H. injection H as <- <-.
  destruct (ready_occ _ _ _ lo r Hx) as ((S1 & T1 & F1 & N1) & Hio & Hocc).
  split; [|split].
  - split; [exact S1|]. split; [exact T1|]. split; [exact F1|].
    intros Hnd. simpl. apply dict_del_NoDup. rewrite Hio. exact Hnd.
  - repeat constructor.
  - intros q. rewrite <- Hocc. unfold occ, curr_count. simpl.
    pose proof (live_dict_del q lo proc (CPU._io x)). lia.
Qed.

Lemma fcfs_arrivals_occ lo r c c' e :
  fcfs_arrivals c = Ok (c', e) ->
  quiet_step c c' /\ Forall not_terminated e
  /\ forall q, (occ c' lo r q
                <= occ c lo r q + count_occ Nat.eq_dec (arriving c) q)%nat.
Proof.
  unfold fcfs_arrivals, arriving. intros H.
  eapply (for_each_enqueues lo r
            (fun i => Z.eqb (_arrival (deref c i)) (_ticker c)) _ c);
    [|apply quiet_step_refl|exact H].
  clear c' e H. intros proc c1 c2 e ([_ A1] & T1 & _) H.
  rewrite <- A1, <- T1.
  destruct (Z.eqb _ _).
  - inv_bind H. injection H as <- <-.
    destruct (ready_occ _ _ _ lo r Hx) as ((S1 & T2 & F1 & N1) & Hio & Hocc).
    split; [|split].
    + split; [|split; [exact T2|split; [exact F1|exact N1]]].
      eapply static_trans; [|exact S1]. apply mutate_static; reflexivity.
    + repeat constructor.
    + intros q. rewrite Hocc. unfold occ, curr_count. simpl. lia.
  - injection H as <- <-.
    split; [apply quiet_step_refl|]. split; [constructor|].
    intros q; lia.
Qed.

(** The processes whose I/O completes at the current tick are blocked and
    nowhere else; once the tick is past they are nowhere. *)
Lemma io_candidates c la r :
  one_place c (_ticker c) la r ->
  NoDup (io_at_ticker c)
  /\ forall p, In p (io_at_ticker c) ->
               occ c (_ticker c + 1) r p = 0%nat
               /\ _arrival (deref c p) < la.
Proof.
  intros Hop. pose proof (op_io_keys _ _ _ _ Hop) as Hnd. split.
  - unfold io_at_ticker. apply NoDup_count_le. intros q.
    pose proof (keys_filter_count q
                  (fun kv => Z.eqb (snd kv) (_ticker c)) (CPU._io c)).
    pose proof (proj1 NoDup_count_le Hnd q) as Hq.
    unfold dict_keys in Hq. lia.
  - intros p Hp. unfold io_at_ticker in Hp.
    apply in_map_iff in Hp. destruct Hp as ([k v] & Hk & Hin).
    simpl in Hk. subst k. apply filter_In in Hin. destruct Hin as [Hin Hv].
    simpl in Hv. apply Z.eqb_eq in Hv. subst v.
    pose proof (live_entry (_ticker c) p _ _ Hnd Hin) as L0.
    pose proof (live_entry (_ticker c + 1) p _ _ Hnd Hin) as L1.
    rewrite Z.leb_refl in L0.
    destruct (Z.leb_spec (_ticker c + 1) (_ticker c)) as [Hle|_]; [lia|].
    pose proof (op_occ _ _ _ _ Hop p) as Ho.
    assert (Hge : (1 <= occ c (_ticker c) r p)%nat) by (unfold occ; lia).
    split; [|apply (op_arrived _ _ _ _ Hop p Hge)].
    unfold occ in *. lia.
Qed.

(** The processes that arrive at the current tick are nowhere yet. *)
Lemma arrival_candidates c lo la r :
  one_place c lo la r ->
  la <= _ticker c ->
  NoDup (arriving c)
  /\ forall p, In p (arriving c) ->
               occ c lo r p = 0%nat
               /\ _arrival (deref c p) < _ticker c + 1.
Proof.
  intros Hop Hla. split.
  - unfold arriving. apply NoDup_filter, seq_NoDup.
  - intros p Hp. unfold arriving in Hp. apply filter_In in Hp.
    destruct Hp as [_ Hp]. apply Z.eqb_eq in Hp.
    split; [|lia].
    destruct (occ c lo r p) eqn:E; [reflexivity|].
    assert (Hge : (1 <= occ c lo r p)%nat) by lia.
    pose proof (op_arrived _ _ _ _ Hop p Hge). lia.
Qed.

Lemma sorted_NoDup (leb : pref -> pref -> bool) (l : list pref) :
  NoDup l -> NoDup (sorted leb l).
Proof.
  intros H. eapply Permutation_NoDup; [|exact H].
  symmetry. apply sorted_perm.
Qed.

Lemma sorted_count (leb : pref -> pref -> bool) (l : list pref) (q : pref) :
  count_occ Nat.eq_dec (sorted leb l) q = count_occ Nat.eq_dec l q.
Proof. apply (Permutation_count_occ Nat.eq_dec), sorted_perm. Qed.

Lemma static_same_procs c c' : _procs c' = _procs c -> static c c'.
Proof. intros H. unfold static, deref. rewrite H. auto. Qed.

Lemma remove_occ c c' :
  remove c = Ok c' ->
  static c c' /\ _finished c' = _finished c /\ CPU._io c' = CPU._io c
  /\ _ticker c <= _ticker c'
  /\ forall lo q, occ c' lo false q = occ c lo true q.
Proof.
  unfold remove. simpl. destruct (_curr c) as [cur|]; [|discriminate].
  intros H; injection H as <-. simpl.
  split; [apply static_same_procs; reflexivity|].
  repeat split; try reflexivity.
  rewrite half_t_cs. lia.
Qed.

Lemma fcfs_admit_occ c c' e :
  fcfs_admit c = Ok (c', e) ->
  static c c' /\ _finished c' = _finished c /\ CPU._io c' = CPU._io c
  /\ _ticker c <= _ticker c'
  /\ Forall not_terminated e
  /\ forall lo q, occ c' lo false q = occ c lo false q.
Proof.
  unfold fcfs_admit.
  destruct (_curr c) as [cur|] eqn:Hcur.
  { intros H; injection H as <- <-.
    split; [apply static_refl|]. repeat split; try reflexivity; try lia.
    constructor. }
  destruct (_ready c) as [|proc rest] eqn:Hr.
  { intros H; injection H as <- <-.
    split; [apply static_refl|]. repeat split; try reflexivity; try lia.
    constructor. }
  intros H. inv_bind H. inv_bind H. injection H as <- <-.
  unfold add in Hx. injection Hx as <-. simpl in Hx0. injection Hx0 as <-.
  split.
  { eapply static_trans; [|apply mutate_static; reflexivity].
    apply (mutate_static proc (set_start (_ticker (set_ready rest c)))
             (set_ready rest c)). reflexivity. }
  split; [reflexivity|]. split; [reflexivity|].
  split; [simpl; rewrite half_t_cs; lia|].
  split; [repeat constructor|].
  intros lo q. unfold occ, curr_count. simpl. rewrite Hcur, Hr. simpl.
  destruct (Nat.eq_dec proc q); lia.
Qed.

(** One pass of the FCFS loop keeps every process in at most one place, and
    prints one [Terminated] event for each entry added to [_finished]. *)
Lemma fcfs_body_one_place n c c' evs b :
  one_place c (_ticker c) (_ticker c) false ->
  fcfs_body n c = Ok (c', evs, b) ->
  List.length (_finished c')
  = (List.length (_finished c) + terminations evs)%nat
  /\ (if b then Z.of_nat (List.length (_finished c')) = n
      else one_place c' (_ticker c') (_ticker c') false).
Proof.
  intros Hop. unfold fcfs_body.
  destruct (fcfs_check_finished c) as [[c1 removed] e1] eqn:H1.
  destruct (fcfs_check_finished_one_place _ _ _ _ _ _ Hop H1)
    as (Hop1 & S1 & T1 & F1).
  intros H. inv_bind H. destruct x as [c2 e2].
  inv_bind H. destruct x as [c3 e3].
  inv_bind H. rename x into c4. inv_bind H. destruct x as [c5 e5].
  set (t0 := _ticker c) in *.
  (* I/O completions *)
  rewrite <- T1 in Hop1.
  destruct (io_candidates _ _ _ Hop1) as [Hnd1 Hc1].
  destruct (fcfs_io_done_occ (_ticker c1 + 1) removed _ _ _ Hx)
    as ((S2 & T2 & F2 & N2) & E2 & O2).
  assert (Hop2 : one_place c2 (t0 + 1) t0 removed).
  { rewrite T1 in *.
    apply (one_place_transfer (sorted (pid_leb c1) (io_at_ticker c1))
             c1 c2 (t0 + 1) t0 (t0 + 1) t0 removed removed); try lia.
    - apply (one_place_weaken c1 c1 t0 t0 (t0 + 1) t0 removed removed);
        auto; try lia; try apply Hop1.
      intros q; apply occ_raise; lia.
    - apply N2, Hop1.
    - apply S2.
    - exact O2.
    - apply sorted_NoDup, Hnd1.
    - intros p Hp. apply Hc1.
      eapply Permutation_in; [apply sorted_perm | exact Hp]. }
  (* arrivals *)
  assert (T2' : _ticker c2 = t0) by congruence.
  destruct (arrival_candidates c2 (t0 + 1) t0 removed Hop2) as [Hnd2 Hc2];
    [lia|].
  destruct (fcfs_arrivals_occ (t0 + 1) removed _ _ _ Hx0)
    as ((S3 & T3 & F3 & N3) & E3 & O3).
  assert (Hop3 : one_place c3 (t0 + 1) (t0 + 1) removed).
  { apply (one_place_transfer (arriving c2)
             c2 c3 (t0 + 1) t0 (t0 + 1) (t0 + 1) removed removed);
      auto; try lia.
    - apply N3, Hop2.
    - apply S3.
    - intros p Hp. destruct (Hc2 p Hp) as [A B].
      split; [exact A | rewrite T2' in B; exact B]. }
  assert (T3' : _ticker c3 = t0) by congruence.
  (* retire *)
  assert (H4 : one_place c4 (t0 + 1) (t0 + 1) false
               /\ _finished c4 = _finished c3 /\ t0 <= _ticker c4).
  { destruct removed.
    - destruct (remove_occ _ _ Hx1) as (S4 & F4 & I4 & T4 & O4).
      split; [|split; [exact F4 | lia]].
      apply (one_place_weaken c3 c4 (t0 + 1) (t0 + 1) (t0 + 1) (t0 + 1)
               true false); auto; try lia.
      + rewrite I4. apply Hop3.
      + apply S4.
      + intros q. rewrite O4. lia.
    - injection Hx1 as <-. split; [exact Hop3|]. split; [reflexivity|lia]. }
  destruct H4 as (Hop4 & F4 & T4).
  (* admit *)
  destruct (fcfs_admit_occ _ _ _ Hx2) as (S5 & F5 & I5 & T5 & E5 & O5).
  assert (Hop5 : one_place c5 (t0 + 1) (t0 + 1) false).
  { apply (one_place_weaken c4 c5 (t0 + 1) (t0 + 1) (t0 + 1) (t0 + 1)
             false false); auto; try lia.
    - rewrite I5. apply Hop4.
    - apply S5.
    - intros q. rewrite O5. lia. }
  assert (Hlen : List.length (_finished c5)
                 = (List.length (_finished c)
                    + terminations (e1 ++ e2 ++ e3 ++ e5))%nat).
  { rewrite !terminations_app.
    rewrite (terminations_none e2 E2), (terminations_none e3 E3),
      (terminations_none e5 E5).
    rewrite F5, F4, F3, F2, F1. lia. }
  destruct (Z.eqb_spec (Z.of_nat (List.length (_finished c5))) n) as [En|_];
    injection H as <- <- <-.
  - split; [exact Hlen | exact En].
  - split; [exact Hlen|]. simpl.
    apply (one_place_weaken c5 _ (t0 + 1) (t0 + 1)
             (_ticker c5 + 1) (_ticker c5 + 1) false false); auto; try lia.
    + apply Hop5.
    + intros q. simpl.
      apply (occ_raise c5 (t0 + 1) (_ticker c5 + 1) false q). lia.
Qed.

Lemma fcfs_loop_terminations n fuel :
  forall c out c' out',
    one_place c (_ticker c) (_ticker c) false ->
    terminations out = List.length (_finished c) ->
    fcfs_loop fuel n c out = Returned (c', out') ->
    terminations out' = List.length (_finished c')
    /\ Z.of_nat (List.length (_finished c')) = n.
Proof.
  induction fuel as [|fuel IH]; simpl; intros c out c' out' Hop Hout H;
    [discriminate|].
  destruct (fcfs_body n c) as [[[c1 evs] b]|e] eqn:Hb; [|discriminate].
  destruct (fcfs_body_one_place _ _ _ _ _ Hop Hb) as [Hlen Hb'].
  assert (Hout1 : terminations (out ++ evs) = List.length (_finished c1))
    by (rewrite terminations_app; lia).
  destruct b.
  - injection H as <- <-. auto.
  - eapply IH; eauto.
Qed.

Lemma init_one_place procs cpu :
  CPU.init procs = Ok cpu ->
  one_place cpu (_ticker cpu) (_ticker cpu) false
  /\ _finished cpu = [] /\ _ticker cpu = 0 /\ _ready cpu = [].
Proof.
  unfold CPU.init. intros H. inv_bind H. injection H as <-. simpl.
  split; [|auto]. constructor; simpl.
  - constructor.
  - intros p. unfold occ, curr_count. simpl. lia.
  - intros p. unfold occ, curr_count. simpl. lia.
Qed.

Lemma preempt_frame proc c c' :
  preempt proc c = Ok c' ->
  static c c' /\ _finished c' = _finished c /\ CPU._io c' = CPU._io c.
Proof.
  unfold preempt. simpl. destruct (_curr c) as [cur|]; [|discriminate].
  intros H; injection H as <-. simpl. split; [|auto].
  eapply static_trans; [|apply mutate_static; reflexivity].
  apply (mutate_static cur (set_readied (_ticker c + t_cs / 2))
           (set_ticker (_ticker c + t_cs / 2) c)).
  reflexivity.
Qed.

Lemma srt_enqueue_frame added proc c c' e :
  srt_enqueue added proc c = Ok (c', e) ->
  static c c' /\ _finished c' = _finished c /\ CPU._io c' = CPU._io c.
Proof.
  unfold srt_enqueue. intros H. inv_bind H. injection H as <- _.
  destruct (ready_occ _ _ _ 0 false Hx) as ((S1 & _ & F1 & _) & I1 & _).
  simpl. split; [|auto]. destruct S1 as [L1 A1]. split; auto.
Qed.

Lemma srt_group_frame pre added removed group c c' evs :
  srt_group pre added removed group c = Ok (c', evs) ->
  static c c' /\ _finished c' = _finished c /\ CPU._io c' = CPU._io c.
Proof.
  unfold srt_group. destruct group as [|g0 group].
  { intros H; injection H as <- _. split; [apply static_refl | auto]. }
  intros H. inv_bind H. destruct x as [[c1 e1] group1].
  inv_bind H. destruct x as [c2 e2]. injection H as <- _.
  assert (H1 : static c c1 /\ _finished c1 = _finished c
               /\ CPU._io c1 = CPU._io c).
  { apply srt_try_preempt_cases in Hx.
    destruct Hx as [(-> & _) | (best & cur & _ & _ & _ & _ & Hp)].
    - split; [apply static_refl | auto].
    - apply preempt_frame in Hp. exact Hp. }
  revert Hx0.
  apply (for_each_inv
           (fun x => static c x /\ _finished x = _finished c
                     /\ CPU._io x = CPU._io c)); [|exact H1].
  intros proc a b e0 (Sa & Fa & Ia) Hb.
  apply srt_enqueue_frame in Hb. destruct Hb as (Sb & Fb & Ib).
  split; [eapply static_trans; eauto|]. split; congruence.
Qed.

(** The events of a group are not [Terminated] events, for the messages of
    the two groups of [run_srt]. *)
Lemma srt_group_events pre added removed group c c' evs :
  (forall t a b q, not_terminated (pre t a b q)) ->
  (forall t a q, not_terminated (added t a q)) ->
  srt_group pre added removed group c = Ok (c', evs) ->
  Forall not_terminated evs.
Proof.
  intros Hpre Hadd. unfold srt_group. destruct group as [|g0 group].
  { intros H; injection H as _ <-. constructor. }
  intros H. inv_bind H. destruct x as [[c1 e1] group1].
  inv_bind H. destruct x as [c2 e2]. injection H as _ <-.
  apply Forall_app. split.
  - unfold srt_try_preempt in Hx.
    destruct (_curr c) as [cur|];
      [|injection Hx as _ <- _; constructor].
    destruct (_ && _); [|injection Hx as _ <- _; constructor].
    inv_bind Hx. inv_bind Hx. injection Hx as _ <- _.
    repeat constructor. apply Hpre.
  - revert Hx0.
    apply (for_each_inv_events (fun _ => True) not_terminated); [|exact I].
    intros proc a b e0 _ Hb. split; [exact I|].
    unfold srt_enqueue in Hb. inv_bind Hb. injection Hb as _ <-.
    repeat constructor. apply Hadd.
Qed.

(** A group puts each of its candidates in one more place and moves nothing
    else. *)
Lemma srt_group_occ pre added removed group c c' evs :
  srt_group pre added removed group c = Ok (c', evs) ->
  forall lo q,
    occ c' lo removed q
    = (occ c lo removed q + count_occ Nat.eq_dec group q)%nat.
Proof.
  intros H lo q.
  destruct (srt_group_frame _ _ _ _ _ _ _ H) as (_ & Hf & Hio).
  apply srt_group_cases in H.
  destruct H as [(Hd & Hp & _)
                | (best & rest & cur & -> & Hcur & -> & _ & Hc' & _ & _ & Hp & _)].
  - unfold decided in Hd. injection Hd as Hd _ _.
    unfold occ, curr_count. rewrite Hd, Hf, Hio.
    rewrite (proj1 (Permutation_count_occ Nat.eq_dec _ _) Hp q).
    rewrite count_occ_app. lia.
  - unfold occ, curr_count. rewrite Hc', Hcur, Hf, Hio.
    rewrite (proj1 (Permutation_count_occ Nat.eq_dec _ _) Hp q).
    simpl. rewrite count_occ_app.
    destruct (Nat.eq_dec best q), (Nat.eq_dec cur q); lia.
Qed.

Lemma srt_admit_occ c c' e :
  srt_admit c = Ok (c', e) ->
  static c c' /\ _finished c' = _finished c /\ CPU._io c' = CPU._io c
  /\ _ticker c <= _ticker c'
  /\ Forall not_terminated e
  /\ forall lo q, occ c' lo false q = occ c lo false q.
Proof.
  unfold srt_admit.
  destruct (_curr c) as [cur|] eqn:Hcur.
  { intros H; injection H as <- <-.
    split; [apply static_refl|]. repeat split; try reflexivity; try lia.
    constructor. }
  destruct (_ready c) as [|proc rest] eqn:Hr.
  { intros H; injection H as <- <-.
    split; [apply static_refl|]. repeat split; try reflexivity; try lia.
    constructor. }
  intros H. inv_bind H. inv_bind H.
  unfold add in Hx. injection Hx as <-. simpl in Hx0. injection Hx0 as <-.
  match type of H with
  | (if ?b then _ else _) = _ => destruct b
  end; injection H as <- <-.
  - split.
    { eapply static_trans; [|apply mutate_static; reflexivity].
      eapply static_trans; [|apply mutate_static; reflexivity].
      apply (mutate_static proc (set_start (_ticker (set_ready rest c)))
               (set_ready rest c)). reflexivity. }
    split; [reflexivity|]. split; [reflexivity|].
    split; [simpl; rewrite half_t_cs; lia|].
    split; [repeat constructor|].
    intros lo q. unfold occ, curr_count. simpl. rewrite Hcur, Hr. simpl.
    destruct (Nat.eq_dec proc q); lia.
  - split.
    { eapply static_trans; [|apply mutate_static; reflexivity].
      apply (mutate_static proc (set_start (_ticker (set_ready rest c)))
               (set_ready rest c)). reflexivity. }
    split; [reflexivity|]. split; [reflexivity|].
    split; [simpl; rewrite half_t_cs; lia|].
    split; [repeat constructor|].
    intros lo q. unfold occ, curr_count. simpl. rewrite Hcur, Hr. simpl.
    destruct (Nat.eq_dec proc q); lia.
Qed.

(** One pass of the SRT loop keeps every process in at most one place, and
    prints one [Terminated] event for each entry added to [_finished]. *)
Lemma srt_body_one_place n c c' evs b :
  one_place c (_ticker c) (_ticker c) false ->
  srt_body n c = Ok (c', evs, b) ->
  List.length (_finished c')
  = (List.length (_finished c) + terminations evs)%nat
  /\ (if b then Z.of_nat (List.length (_finished c')) = n
      else one_place c' (_ticker c') (_ticker c') false).
Proof.
  intros Hop. unfold srt_body.
  destruct (srt_check_finished c) as [[c1 removed] e1] eqn:H1.
  destruct (srt_check_finished_one_place _ _ _ _ _ _ Hop H1)
    as (Hop1 & S1 & T1 & F1).
  intros H. inv_bind H. destruct x as [c2 e2].
  inv_bind H. destruct x as [c3 e3].
  inv_bind H. rename x into c4. inv_bind H. destruct x as [c5 e5].
  set (t0 := _ticker c) in *.
  (* I/O completions *)
  rewrite <- T1 in Hop1.
  destruct (io_candidates _ _ _ Hop1) as [Hnd1 Hc1].
  unfold srt_io_done in Hx.
  pose proof (srt_group_occ _ _ _ _ _ _ _ Hx) as O2.
  pose proof (srt_group_events IOPreempts IOCompleted _ _ _ _ _
                (fun _ _ _ _ => eq_refl) (fun _ _ _ => eq_refl) Hx) as E2.
  destruct (srt_group_frame _ _ _ _ _ _ _ Hx) as (S2 & F2 & I2).
  apply srt_group_ticker in Hx.
  assert (Hop2 : one_place c2 (t0 + 1) t0 removed).
  { rewrite T1 in *.
    apply (one_place_transfer (sorted (srt_leb c1) (io_at_ticker c1))
             c1 c2 (t0 + 1) t0 (t0 + 1) t0 removed removed); try lia.
    - apply (one_place_weaken c1 c1 t0 t0 (t0 + 1) t0 removed removed);
        auto; try lia; try apply Hop1.
      intros q; apply occ_raise; lia.
    - rewrite I2. apply Hop1.
    - apply S2.
    - intros q. rewrite O2. lia.
    - apply sorted_NoDup, Hnd1.
    - intros p Hp. apply Hc1.
      eapply Permutation_in; [apply sorted_perm | exact Hp]. }
  (* arrivals *)
  assert (T2 : t0 <= _ticker c2) by lia.
  destruct (arrival_candidates c2 (t0 + 1) t0 removed Hop2 T2) as [Hnd2 Hc2].
  unfold srt_arrivals in Hx0.
  pose proof (srt_group_occ _ _ _ _ _ _ _ Hx0) as O3.
  pose proof (srt_group_events ArrivalPreempts Arrived _ _ _ _ _
                (fun _ _ _ _ => eq_refl) (fun _ _ _ => eq_refl) Hx0) as E3.
  destruct (srt_group_frame _ _ _ _ _ _ _ Hx0) as (S3 & F3 & I3).
  apply srt_group_ticker in Hx0.
  set (t2 := _ticker c2) in *.
  assert (Hop3 : one_place c3 (t0 + 1) (t2 + 1) removed).
  { apply (one_place_transfer (sorted (srt_leb c2) (arriving c2))
             c2 c3 (t0 + 1) t0 (t0 + 1) (t2 + 1) removed removed);
      auto; try lia.
    - rewrite I3. apply Hop2.
    - apply S3.
    - intros q. rewrite O3. lia.
    - apply sorted_NoDup, Hnd2.
    - intros p Hp. apply Hc2.
      eapply Permutation_in; [apply sorted_perm | exact Hp]. }
  (* retire *)
  assert (H4 : one_place c4 (t0 + 1) (t2 + 1) false
               /\ _finished c4 = _finished c3 /\ t2 <= _ticker c4).
  { destruct removed.
    - destruct (remove_occ _ _ Hx1) as (S4 & F4 & I4 & T4 & O4).
      split; [|split; [exact F4 | lia]].
      apply (one_place_weaken c3 c4 (t0 + 1) (t2 + 1) (t0 + 1) (t2 + 1)
               true false); auto; try lia.
      + rewrite I4. apply Hop3.
      + apply S4.
      + intros q. rewrite O4. lia.
    - injection Hx1 as <-. split; [exact Hop3|]. split; [reflexivity|lia]. }
  destruct H4 as (Hop4 & F4 & T4).
  (* admit *)
  destruct (srt_admit_occ _ _ _ Hx2) as (S5 & F5 & I5 & T5 & E5 & O5).
  assert (Hop5 : one_place c5 (t0 + 1) (t2 + 1) false).
  { apply (one_place_weaken c4 c5 (t0 + 1) (t2 + 1) (t0 + 1) (t2 + 1)
             false false); auto; try lia.
    - rewrite I5. apply Hop4.
    - apply S5.
    - intros q. rewrite O5. lia. }
  assert (Hlen : List.length (_finished c5)
                 = (List.length (_finished c)
                    + terminations (e1 ++ e2 ++ e3 ++ e5))%nat).
  { rewrite !terminations_app.
    rewrite (terminations_none e2 E2), (terminations_none e3 E3),
      (terminations_none e5 E5).
    rewrite F5, F4, F3, F2, F1. lia. }
  destruct (Z.eqb_spec (Z.of_nat (List.length (_finished c5))) n) as [En|_];
    injection H as <- <- <-.
  - split; [exact Hlen | exact En].
  - split; [exact Hlen|]. simpl.
    apply (one_place_weaken c5 _ (t0 + 1) (t2 + 1)
             (_ticker c5 + 1) (_ticker c5 + 1) false false); auto; try lia.
    + apply Hop5.
    + intros q. simpl.
      apply (occ_raise c5 (t0 + 1) (_ticker c5 + 1) false q). lia.
Qed.

Lemma srt_loop_terminations n fuel :
  forall c out c' out',
    one_place c (_ticker c) (_ticker c) false ->
    terminations out = List.length (_finished c) ->
    srt_loop fuel n c out = Returned (c', out') ->
    terminations out' = List.length (_finished c')
    /\ Z.of_nat (List.length (_finished c')) = n.
Proof.
  induction fuel as [|fuel IH]; simpl; intros c out c' out' Hop Hout H;
    [discriminate|].
  destruct (srt_body n c) as [[[c1 evs] b]|e] eqn:Hb; [|discriminate].
  destruct (srt_body_one_place _ _ _ _ _ Hop Hb) as [Hlen Hb'].
  assert (Hout1 : terminations (out ++ evs) = List.length (_finished c1))
    by (rewrite terminations_app; lia).
  destruct b.
  - injection H as <- <-. auto.
  - eapply IH; eauto.
Qed.

(** C6 (amended).  For every workload, a run of [run_fcfs] or of [run_srt]
    that returns (with [n] the number of processes, as the main block sets
    it) has printed exactly one [Terminated] event per process: the number of
    [Terminated] events is the number of processes, whatever their burst
    counts. *)
Theorem terminated_events_one_per_process :
  (forall fuel procs s out,
      run_fcfs fuel (main_n procs) procs = Returned (s, out) ->
      terminations out = List.length procs)
  /\ (forall fuel procs s out,
        run_srt fuel (main_n procs) procs = Returned (s, out) ->
        terminations out = List.length procs).
Proof.
  split; intros fuel procs s out.
  - unfold run_fcfs.
    destruct (CPU.init procs) as [cpu|e] eqn:Hi; [|discriminate].
    destruct (init_one_place _ _ Hi) as (Hop & Hf & _).
    destruct (fcfs_loop fuel (main_n procs) cpu _) as [[c' out']|e|] eqn:Hl;
      try discriminate.
    apply fcfs_loop_terminations in Hl;
      [|exact Hop|rewrite Hf; reflexivity].
    destruct Hl as [H1 H2].
    destruct (summary c') as [st|e]; [|discriminate].
    simpl. intros H; injection H as _ <-.
    rewrite terminations_app. unfold main_n in H2.
    change (terminations [SimEnded (_ticker c')]) with 0%nat. lia.
  - unfold run_srt.
    destruct (CPU.init procs) as [cpu|e] eqn:Hi; [|discriminate].
    destruct (init_one_place _ _ Hi) as (Hop & Hf & _).
    destruct (srt_loop fuel (main_n procs) cpu _) as [[c' out']|e|] eqn:Hl;
      try discriminate.
    apply srt_loop_terminations in Hl;
      [|exact Hop|rewrite Hf; reflexivity].
    destruct Hl as [H1 H2].
    destruct (summary c') as [st|e]; [|discriminate].
    simpl. intros H; injection H as _ <-.
    rewrite terminations_app. unfold main_n in H2.
    change (terminations [SimEnded (_ticker c')]) with 0%nat. lia.
Qed.

Lemma terminated_events_one_per_process_witness :
  exists s out,
    run_fcfs 10 (main_n wl_two_bursts) wl_two_bursts = Returned (s, out)
    /\ terminations out = 1%nat.
Proof.
  do 2 eexists. split; [vm_compute; reflexivity|].
  refine (proj1 terminated_events_one_per_process 10%nat wl_two_bursts _ _ _).
  vm_compute. reflexivity.
Defined.

(* ================================================================== *)
(** * Further properties of the code *)

(** ** The constructor on a workload without bursts *)




(** ** No pass raises *)

Lemma for_each_total {A : Type}
    (body : A -> CPU.t -> result (CPU.t * list event)) :
  (forall x c, exists r, body x c = Ok r) ->
  forall l c, exists r, for_each l body c = Ok r.
Proof.
  intros Hb l; induction l as [|x l IH]; intros c; simpl; [eauto|].
  destruct (Hb x c) as [[c1 e1] ->]. simpl.
  destruct (IH c1) as [[c2 e2] ->]. simpl. eauto.
Qed.

Lemma fcfs_io_done_total c : exists r, fcfs_io_done c = Ok r.
Proof.
  unfold fcfs_io_done. apply for_each_total.
  intros proc c0. unfold ready. simpl. eauto.
Qed.

Lemma fcfs_arrivals_total c : exists r, fcfs_arrivals c = Ok r.
Proof.
  unfold fcfs_arrivals. apply for_each_total.
  intros proc c0. destruct (Z.eqb _ _); unfold ready; simpl; eauto.
Qed.

Lemma fcfs_admit_total c : exists r, fcfs_admit c = Ok r.
Proof.
  unfold fcfs_admit. destruct (_curr c); [eauto|].
  destruct (_ready c); [eauto|]. unfold add. simpl. eauto.
Qed.

Lemma srt_admit_total c : exists r, srt_admit c = Ok r.
Proof.
  unfold srt_admit. destruct (_curr c); [eauto|].
  destruct (_ready c); [eauto|]. unfold add. simpl.
  match goal with |- context [if ?b then _ else _] => destruct b end; eauto.
Qed.

Lemma srt_group_total pre added removed group c :
  exists r, srt_group pre added removed group c = Ok r.
Proof.
  unfold srt_group. destruct group as [|best rest]; [eauto|].
  assert (H : exists r, srt_try_preempt pre removed (best :: rest) c = Ok r).
  { unfold srt_try_preempt. destruct (_curr c) as [cur|] eqn:Hcur; [|eauto].
    destruct (_ && _); [|eauto].
    unfold preempt. simpl. rewrite Hcur. simpl. eauto. }
  destruct H as [[[c1 e1] g1] ->]. simpl.
  destruct (for_each_total (srt_enqueue added)) with (l := g1) (c := c1)
    as [[c2 e2] ->].
  - intros proc c0. unfold srt_enqueue, ready. simpl. eauto.
  - simpl. eauto.
Qed.

Lemma fcfs_check_finished_curr c c1 removed e1 :
  fcfs_check_finished c = (c1, removed, e1) ->
  _curr c1 = _curr c /\ (removed = true -> _curr c <> None).
Proof.
  unfold fcfs_check_finished.
  destruct (_curr c) as [cur|] eqn:Hcur;
    [|intros H; injection H as <- <- _; split; [auto | discriminate]].
  destruct (Z.leb _ _);
    [|intros H; injection H as <- <- _; split;
      [simpl; congruence | discriminate]].
  match goal with |- context [Z.ltb ?a ?b] => destruct (Z.ltb a b) end;
    intros H; injection H as <- <- _;
    (split; [simpl; congruence | intros _; congruence]).
Qed.

Lemma srt_check_finished_curr c c1 removed e1 :
  srt_check_finished c = (c1, removed, e1) ->
  _curr c1 = _curr c /\ (removed = true -> _curr c <> None).
Proof.
  unfold srt_check_finished.
  destruct (_curr c) as [cur|] eqn:Hcur;
    [|intros H; injection H as <- <- _; split; [auto | discriminate]].
  destruct (Z.leb _ _);
    [|intros H; injection H as <- <- _; split;
      [simpl; congruence | discriminate]].
  match goal with |- context [Z.ltb ?a ?b] => destruct (Z.ltb a b) end;
    intros H; injection H as <- <- _;
    (split; [simpl; congruence | intros _; congruence]).
Qed.

Lemma remove_total c : _curr c <> None -> exists c', remove c = Ok c'.
Proof.
  unfold remove. simpl. destruct (_curr c); [eauto | contradiction].
Qed.

Lemma srt_group_keeps_retiring pre added group c c' evs :
  srt_group pre added true group c = Ok (c', evs) -> _curr c' = _curr c.
Proof.
  intros H. apply srt_group_cases in H.
  destruct H as [(Hd & _) | (best & rest & cur & _ & _ & Hr & _)];
    [|discriminate].
  unfold decided in Hd. congruence.
Qed.

Lemma fcfs_body_total n c : exists r, fcfs_body n c = Ok r.
Proof.
  unfold fcfs_body.
  destruct (fcfs_check_finished c) as [[c1 removed] e1] eqn:H1.
  apply fcfs_check_finished_curr in H1. destruct H1 as [Hc1 Hrm].
  destruct (fcfs_io_done_total c1) as [[c2 e2] H2]. rewrite H2. simpl.
  destruct (fcfs_arrivals_total c2) as [[c3 e3] H3]. rewrite H3. simpl.
  apply fcfs_io_done_decided in H2. apply fcfs_arrivals_decided in H3.
  destruct H2 as [H2 _], H3 as [H3 _]. unfold decided in H2, H3.
  assert (Hc3 : _curr c3 = _curr c) by congruence.
  assert (H4 : exists c4, (if removed then remove c3 else Ok c3) = Ok c4).
  { destruct removed; [|eauto]. apply remove_total.
    rewrite Hc3. auto. }
  destruct H4 as [c4 ->]. simpl.
  destruct (fcfs_admit_total c4) as [[c5 e5] ->]. simpl.
  destruct (Z.eqb _ _); eauto.
Qed.

Lemma srt_body_total n c : exists r, srt_body n c = Ok r.
Proof.
  unfold srt_body.
  destruct (srt_check_finished c) as [[c1 removed] e1] eqn:H1.
  apply srt_check_finished_curr in H1. destruct H1 as [Hc1 Hrm].
  unfold srt_io_done, srt_arrivals.
  destruct (srt_group_total IOPreempts IOCompleted removed
              (sorted (srt_leb c1) (io_at_ticker c1)) c1) as [[c2 e2] H2].
  rewrite H2. simpl.
  destruct (srt_group_total ArrivalPreempts Arrived removed
              (sorted (srt_leb c2) (arriving c2)) c2) as [[c3 e3] H3].
  rewrite H3. simpl.
  assert (H4 : exists c4, (if removed then remove c3 else Ok c3) = Ok c4).
  { destruct removed; [|eauto]. apply remove_total.
    apply srt_group_keeps_retiring in H2, H3.
    rewrite H3, H2, Hc1. auto. }
  destruct H4 as [c4 ->]. simpl.
  destruct (srt_admit_total c4) as [[c5 e5] ->]. simpl.
  destruct (Z.eqb _ _); eauto.
Qed.



(** ** get_queue *)

Lemma append_assoc (a b c : string) :
  append (append a b) c = append a (append b c).
Proof. induction a as [|x a IH]; simpl; congruence. Qed.

Lemma get_queue_fold (c : CPU.t) (l : list pref) (acc : string) :
  fold_left (fun acc proc =>
               append acc (append " " (_pid (deref c proc)))) l acc
  = append acc
      (String.concat ""
         (map (fun proc => append " " (_pid (deref c proc))) l)).
Proof.
  revert acc; induction l as [|p l IH]; intros acc.
  - simpl. induction acc as [|x acc IHa]; simpl; congruence.
  - simpl fold_left. rewrite IH. rewrite append_assoc. f_equal.
    destruct l as [|q l]; [simpl|reflexivity].
    induction (_pid (deref c p)) as [|x s IHs]; simpl; congruence.
Qed.

Lemma concat_spaced (pids : list string) (p : string) :
  String.concat "" (String " " p :: map (fun s => String " " s) pids)
  = String " " (String.concat " " (p :: pids)).
Proof.
  revert p; induction pids as [|q pids IH]; intros p.
  - reflexivity.
  - change (String.concat ""
              (String " " p :: map (fun s => String " " s) (q :: pids)))
      with (append (String " " p)
              (append "" (String.concat ""
                            (String " " q
                             :: map (fun s => String " " s) pids)))).
    rewrite IH.
    change (String.concat " " (p :: q :: pids))
      with (append p (append " " (String.concat " " (q :: pids)))).
    reflexivity.
Qed.

(** [get_queue] gives ["[Q <empty>]"] on an empty ready queue and, on a queue
    that is not empty, the pids in queue order, separated by one space,
    between ["[Q "] and ["]"]. *)
Theorem get_queue_format (c : CPU.t) :
  (_ready c = [] -> get_queue c = "[Q <empty>]"%string)
  /\ (_ready c <> [] ->
      get_queue c
      = append "[Q "
          (append (String.concat " "
                     (map (fun proc => _pid (deref c proc)) (_ready c)))
                  "]")).
Proof.
  unfold get_queue. split.
  - intros ->. reflexivity.
  - intros Hne. destruct (_ready c) as [|p l]; [contradiction|].
    rewrite get_queue_fold.
    rewrite <- (map_map (fun proc => _pid (deref c proc))
                        (fun s => append " " s)).
    simpl map. rewrite concat_spaced.
    rewrite append_assoc. simpl. reflexivity.
Qed.

Lemma get_queue_format_witness :
  get_queue (CPU.mk wl_late 0 0 2 4%Q 0%Q 0%Q 0 0 0 None [1%nat; 0%nat] [] [])
  = "[Q B A]"%string.
Proof.
  rewrite (proj2 (get_queue_format _)); [reflexivity | discriminate].
Defined.

(** ** remove and preempt on an idle CPU *)



(** ** The counters and the trace *)

Lemma tally_refl c : tally c [] c.
Proof. unfold tally, started, preemptions. simpl. lia. Qed.

Lemma tally_app c e1 c1 e2 c2 :
  tally c e1 c1 -> tally c1 e2 c2 -> tally c (e1 ++ e2) c2.
Proof.
  unfold tally, started, preemptions. intros [A1 B1] [A2 B2].
  rewrite !filter_app, !length_app. lia.
Qed.

Lemma tally_same c c' :
  _context c' = _context c -> _preempt c' = _preempt c -> tally c [] c'.
Proof. unfold tally, started, preemptions. simpl. lia. Qed.

Lemma for_each_tally {A : Type}
    (body : A -> CPU.t -> result (CPU.t * list event)) :
  (forall x c c' e, body x c = Ok (c', e) -> tally c e c') ->
  forall l c c' e, for_each l body c = Ok (c', e) -> tally c e c'.
Proof.
  intros Hb l; induction l as [|x l IH]; intros c c' e H.
  - simpl in H. injection H as <- <-. apply tally_refl.
  - apply for_each_cons_Ok in H.
    destruct H as (c1 & e1 & e2 & Hx & Hl & ->).
    eapply tally_app; eauto.
Qed.

Lemma fcfs_check_finished_tally c c1 removed e1 :
  fcfs_check_finished c = (c1, removed, e1) -> tally c e1 c1.
Proof.
  unfold fcfs_check_finished.
  destruct (_curr c) as [cur|];
    [|intros H; injection H as <- _ <-; apply tally_refl].
  destruct (Z.leb _ _);
    [|intros H; injection H as <- _ <-; apply tally_same; reflexivity].
  match goal with |- context [Z.ltb ?a ?b] => destruct (Z.ltb a b) end;
    intros H; injection H as <- _ <-; unfold tally; simpl; lia.
Qed.

Lemma srt_check_finished_tally c c1 removed e1 :
  srt_check_finished c = (c1, removed, e1) -> tally c e1 c1.
Proof.
  unfold srt_check_finished.
  destruct (_curr c) as [cur|];
    [|intros H; injection H as <- _ <-; apply tally_refl].
  destruct (Z.leb _ _);
    [|intros H; injection H as <- _ <-; apply tally_same; reflexivity].
  match goal with |- context [Z.ltb ?a ?b] => destruct (Z.ltb a b) end;
    intros H; injection H as <- _ <-; unfold tally; simpl; lia.
Qed.

Lemma fcfs_io_done_tally c c' e : fcfs_io_done c = Ok (c', e) -> tally c e c'.
Proof.
  unfold fcfs_io_done. apply for_each_tally.
  intros proc c1 c2 e1 H. inv_bind H. injection H as <- <-.
  unfold ready in Hx. injection Hx as <-. unfold tally; simpl; lia.
Qed.

Lemma fcfs_arrivals_tally c c' e :
  fcfs_arrivals c = Ok (c', e) -> tally c e c'.
Proof.
  unfold fcfs_arrivals. apply for_each_tally.
  intros proc c1 c2 e1 H. destruct (Z.eqb _ _).
  - inv_bind H. injection H as <- <-.
    unfold ready in Hx. injection Hx as <-. unfold tally; simpl; lia.
  - injection H as <- <-. apply tally_refl.
Qed.

Lemma retire_tally (removed : bool) c c' :
  (if removed then remove c else Ok c) = Ok c' -> tally c [] c'.
Proof.
  destruct removed; [|intros H; injection H as <-; apply tally_refl].
  unfold remove. simpl. destruct (_curr c); [|discriminate].
  intros H; injection H as <-. apply tally_same; reflexivity.
Qed.

Lemma fcfs_admit_tally c c' e : fcfs_admit c = Ok (c', e) -> tally c e c'.
Proof.
  unfold fcfs_admit.
  destruct (_curr c); [intros H; injection H as <- <-; apply tally_refl|].
  destruct (_ready c); [intros H; injection H as <- <-; apply tally_refl|].
  intros H. inv_bind H. inv_bind H. injection H as <- <-.
  unfold add in Hx. injection Hx as <-. unfold tally; simpl; lia.
Qed.

Lemma srt_admit_tally c c' e : srt_admit c = Ok (c', e) -> tally c e c'.
Proof.
  unfold srt_admit.
  destruct (_curr c); [intros H; injection H as <- <-; apply tally_refl|].
  destruct (_ready c); [intros H; injection H as <- <-; apply tally_refl|].
  intros H. inv_bind H. inv_bind H.
  unfold add in Hx. injection Hx as <-.
  destruct (Z.eqb _ _); injection H as <- <-; unfold tally; simpl; lia.
Qed.

(** A group, for messages of which the first announces a preemption and the
    second is neither a start nor a preemption. *)
Lemma srt_group_tally pre added removed group c c' evs :
  (forall t a b q, is_started (pre t a b q) = false
                   /\ is_preemption (pre t a b q) = true) ->
  (forall t a q, is_started (added t a q) = false
                 /\ is_preemption (added t a q) = false) ->
  srt_group pre added removed group c = Ok (c', evs) -> tally c evs c'.
Proof.
  intros Hpre Hadd. unfold srt_group. destruct group as [|g0 group].
  { intros H; injection H as <- <-. apply tally_refl. }
  intros H. inv_bind H. destruct x as [[c1 e1] group1].
  inv_bind H. destruct x as [c2 e2]. injection H as <- <-.
  apply (tally_app c e1 c1 e2 c2).
  - unfold srt_try_preempt in Hx.
    destruct (_curr c) as [cur|] eqn:Hcur;
      [|injection Hx as <- <- _; apply tally_refl].
    destruct (_ && _); [|injection Hx as <- <- _; apply tally_refl].
    inv_bind Hx. inv_bind Hx. injection Hx as <- <- _.
    match goal with
    | Hp : preempt _ _ = Ok _ |- _ =>
        unfold preempt in Hp; simpl in Hp; rewrite Hcur in Hp;
        injection Hp as <-
    end.
    unfold tally, started, preemptions. simpl.
    match goal with
    | |- context [pre ?t ?a ?b ?q] => destruct (Hpre t a b q) as [-> ->]
    end.
    simpl. lia.
  - revert Hx0. apply for_each_tally.
    intros proc a b e0 Hb. unfold srt_enqueue in Hb. inv_bind Hb.
    injection Hb as <- <-.
    match goal with
    | Hr : ready _ _ = Ok _ |- _ => unfold ready in Hr; injection Hr as <-
    end.
    unfold tally, started, preemptions. simpl.
    match goal with
    | |- context [added ?t ?a ?q] => destruct (Hadd t a q) as [-> ->]
    end.
    simpl. lia.
Qed.

Lemma fcfs_body_tally n c c' evs b :
  fcfs_body n c = Ok (c', evs, b) -> tally c evs c'.
Proof.
  unfold fcfs_body.
  destruct (fcfs_check_finished c) as [[c1 removed] e1] eqn:H1.
  intros H. inv_bind H. destruct x as [c2 e2].
  inv_bind H. destruct x as [c3 e3].
  inv_bind H. rename x into c4. inv_bind H. destruct x as [c5 e5].
  assert (T : tally c (e1 ++ e2 ++ e3 ++ e5) c5).
  { eapply tally_app; [eapply fcfs_check_finished_tally; eauto|].
    eapply tally_app; [eapply fcfs_io_done_tally; eauto|].
    eapply tally_app; [eapply fcfs_arrivals_tally; eauto|].
    change e5 with ([] ++ e5).
    eapply tally_app; [eapply retire_tally; eauto|].
    eapply fcfs_admit_tally; eauto. }
  destruct (Z.eqb _ _); injection H as <- <- _; exact T.
Qed.

Lemma srt_body_tally n c c' evs b :
  srt_body n c = Ok (c', evs, b) -> tally c evs c'.
Proof.
  unfold srt_body.
  destruct (srt_check_finished c) as [[c1 removed] e1] eqn:H1.
  intros H. inv_bind H. destruct x as [c2 e2].
  inv_bind H. destruct x as [c3 e3].
  inv_bind H. rename x into c4. inv_bind H. destruct x as [c5 e5].
  assert (T : tally c (e1 ++ e2 ++ e3 ++ e5) c5).
  { eapply tally_app; [eapply srt_check_finished_tally; eauto|].
    eapply tally_app;
      [eapply (srt_group_tally IOPreempts IOCompleted); eauto|].
    eapply tally_app;
      [eapply (srt_group_tally ArrivalPreempts Arrived); eauto|].
    change e5 with ([] ++ e5).
    eapply tally_app; [eapply retire_tally; eauto|].
    eapply srt_admit_tally; eauto. }
  destruct (Z.eqb _ _); injection H as <- <- _; exact T.
Qed.

Lemma fcfs_loop_tally n fuel :
  forall c0 c out c' out',
    tally c0 out c ->
    fcfs_loop fuel n c out = Returned (c', out') -> tally c0 out' c'.
Proof.
  induction fuel as [|fuel IH]; simpl; intros c0 c out c' out' T H;
    [discriminate|].
  destruct (fcfs_body n c) as [[[c1 evs] b]|e] eqn:Hb; [|discriminate].
  apply fcfs_body_tally in Hb.
  assert (T1 : tally c0 (out ++ evs) c1) by (eapply tally_app; eauto).
  destruct b; [injection H as <- <-; exact T1 | eapply IH; eauto].
Qed.

Lemma srt_loop_tally n fuel :
  forall c0 c out c' out',
    tally c0 out c ->
    srt_loop fuel n c out = Returned (c', out') -> tally c0 out' c'.
Proof.
  induction fuel as [|fuel IH]; simpl; intros c0 c out c' out' T H;
    [discriminate|].
  destruct (srt_body n c) as [[[c1 evs] b]|e] eqn:Hb; [|discriminate].
  apply srt_body_tally in Hb.
  assert (T1 : tally c0 (out ++ evs) c1) by (eapply tally_app; eauto).
  destruct b; [injection H as <- <-; exact T1 | eapply IH; eauto].
Qed.

Lemma summary_counters c s :
  summary c = Ok s -> snd (fst s) = _context c /\ snd s = _preempt c.
Proof.
  unfold summary. intros H. inv_bind H. inv_bind H. injection H as <-.
  simpl. auto.
Qed.

(** The counters of the five-tuple agree with the trace: for every workload,
    a run of [run_fcfs] or [run_srt] that returns gives as number of context
    switches the number of "started using the CPU" lines it has printed, and
    as number of preemptions the number of "will preempt" lines. *)
Theorem counters_match_trace :
  (forall fuel n procs avg_burst avg_wait avg_turnaround context preempt out,
      run_fcfs fuel n procs
      = Returned ((avg_burst, avg_wait, avg_turnaround, context, preempt), out)
      -> context = Z.of_nat (started out)
         /\ preempt = Z.of_nat (preemptions out))
  /\ (forall fuel n procs avg_burst avg_wait avg_turnaround context preempt
             out,
        run_srt fuel n procs
        = Returned ((avg_burst, avg_wait, avg_turnaround, context, preempt),
                    out)
        -> context = Z.of_nat (started out)
           /\ preempt = Z.of_nat (preemptions out)).
Proof.
  split; intros fuel n procs ab aw at_ cs pre out.
  - unfold run_fcfs.
    destruct (CPU.init procs) as [cpu|e] eqn:Hi; [|discriminate].
    destruct (fcfs_loop fuel n cpu _) as [[c' out']|e|] eqn:Hl;
      try discriminate.
    apply (fcfs_loop_tally n fuel cpu) in Hl;
      [|unfold tally, started, preemptions; simpl; lia].
    unfold CPU.init in Hi. inv_bind Hi. injection Hi as <-.
    destruct (summary c') as [st|e] eqn:Hs; [|discriminate].
    apply summary_counters in Hs. destruct Hs as [S1 S2].
    simpl. intros H; injection H as -> <-. simpl in S1, S2.
    destruct Hl as [A B]. simpl in A, B.
    unfold started, preemptions in *. rewrite !filter_app, !length_app.
    simpl. lia.
  - unfold run_srt.
    destruct (CPU.init procs) as [cpu|e] eqn:Hi; [|discriminate].
    destruct (srt_loop fuel n cpu _) as [[c' out']|e|] eqn:Hl;
      try discriminate.
    apply (srt_loop_tally n fuel cpu) in Hl;
      [|unfold tally, started, preemptions; simpl; lia].
    unfold CPU.init in Hi. inv_bind Hi. injection Hi as <-.
    destruct (summary c') as [st|e] eqn:Hs; [|discriminate].
    apply summary_counters in Hs. destruct Hs as [S1 S2].
    simpl. intros H; injection H as -> <-. simpl in S1, S2.
    destruct Hl as [A B]. simpl in A, B.
    unfold started, preemptions in *. rewrite !filter_app, !length_app.
    simpl. lia.
Qed.

Lemma counters_match_trace_witness :
  exists out,
    run_srt 120 3 wl_double = Returned ((107 # 4, 41 # 4, 56%Q, 6, 2), out)
    /\ 6 = Z.of_nat (started out) /\ 2 = Z.of_nat (preemptions out).
Proof.
  eexists. split; [vm_compute; reflexivity|].
  apply (proj2 counters_match_trace 120%nat 3 wl_double
           (107 # 4) (41 # 4) 56%Q 6 2).
  vm_compute. reflexivity.
Defined.

(** ** The FCFS ready queue is first in, first out *)








(** ** What a pass leaves alone *)

Section Frames.
Context {X : Type} (g : Process.t -> X).
Hypothesis g_start : forall v p, g (set_start v p) = g p.
Hypothesis g_readied : forall v p, g (set_readied v p) = g p.
Hypothesis g_last_arrival : forall v p, g (set_last_arrival v p) = g p.
Hypothesis g_remaining : forall v p, g (set_remaining v p) = g p.

Lemma kept_refl c : kept g c c.
Proof. reflexivity. Qed.

Lemma kept_trans c1 c2 c3 : kept g c1 c2 -> kept g c2 c3 -> kept g c1 c3.
Proof. unfold kept. congruence. Qed.

Lemma map_upd_frame (i : pref) f ps :
  (forall p, g (f p) = g p) -> map g (upd i f ps) = map g ps.
Proof.
  intros Hf. revert i; induction ps as [|p ps IH]; intros [|i]; simpl;
    rewrite ?Hf, ?IH; reflexivity.
Qed.

Lemma mutate_kept proc f c :
  (forall p, g (f p) = g p) -> kept g c (mutate proc f c).
Proof. intros Hf. unfold kept. simpl. apply map_upd_frame, Hf. Qed.

Lemma ready_kept proc c c' : ready proc c = Ok c' -> kept g c c'.
Proof.
  unfold ready. intros H; injection H as <-. unfold kept. simpl.
  rewrite !map_upd_frame; auto.
Qed.

Lemma fcfs_io_done_kept c c' e :
  fcfs_io_done c = Ok (c', e) -> kept g c c' /\ Forall (fun x => is_sched x = true) e.
Proof.
  unfold fcfs_io_done.
  apply (for_each_inv_events (fun x => kept g c x)
           (fun x => is_sched x = true)); [|apply kept_refl].
  intros proc c1 c2 e1 H1 H. inv_bind H. injection H as <- <-.
  apply ready_kept in Hx. split; [|repeat constructor].
  eapply kept_trans; [exact H1|]. exact Hx.
Qed.

Lemma fcfs_arrivals_kept c c' e :
  fcfs_arrivals c = Ok (c', e) ->
  kept g c c' /\ Forall (fun x => is_sched x = true) e.
Proof.
  unfold fcfs_arrivals.
  apply (for_each_inv_events (fun x => kept g c x)
           (fun x => is_sched x = true)); [|apply kept_refl].
  intros proc c1 c2 e1 H1 H. destruct (Z.eqb _ _).
  - inv_bind H. injection H as <- <-.
    apply ready_kept in Hx. split; [|repeat constructor].
    eapply kept_trans; [exact H1|].
    eapply kept_trans; [|exact Hx]. apply mutate_kept. auto.
  - injection H as <- <-. split; [exact H1 | constructor].
Qed.

Lemma retire_kept (removed : bool) c c' :
  (if removed then remove c else Ok c) = Ok c' -> kept g c c'.
Proof.
  destruct removed; [|intros H; injection H as <-; apply kept_refl].
  unfold remove. simpl. destruct (_curr c); [|discriminate].
  intros H; injection H as <-. reflexivity.
Qed.

Lemma fcfs_admit_kept c c' e :
  fcfs_admit c = Ok (c', e) ->
  kept g c c' /\ Forall (fun x => is_sched x = true) e.
Proof.
  unfold fcfs_admit.
  destruct (_curr c);
    [intros H; injection H as <- <-; split; [apply kept_refl|constructor]|].
  destruct (_ready c);
    [intros H; injection H as <- <-; split; [apply kept_refl|constructor]|].
  intros H. inv_bind H. inv_bind H. injection H as <- <-.
  unfold add in Hx. injection Hx as <-. split; [|repeat constructor].
  unfold kept. simpl. rewrite !map_upd_frame; auto.
Qed.

Lemma srt_admit_kept c c' e :
  srt_admit c = Ok (c', e) ->
  kept g c c' /\ Forall (fun x => is_sched x = true) e.
Proof.
  unfold srt_admit.
  destruct (_curr c);
    [intros H; injection H as <- <-; split; [apply kept_refl|constructor]|].
  destruct (_ready c);
    [intros H; injection H as <- <-; split; [apply kept_refl|constructor]|].
  intros H. inv_bind H. inv_bind H.
  unfold add in Hx. injection Hx as <-.
  destruct (Z.eqb _ _); injection H as <- <-;
    (split; [|repeat constructor]);
    unfold kept; simpl; rewrite !map_upd_frame; auto.
Qed.

Lemma preempt_kept proc c c' : preempt proc c = Ok c' -> kept g c c'.
Proof.
  unfold preempt. simpl. destruct (_curr c); [|discriminate].
  intros H; injection H as <-. unfold kept. simpl.
  rewrite !map_upd_frame; auto.
Qed.

Lemma srt_group_kept pre added removed group c c' evs :
  (forall t a b q, is_sched (pre t a b q) = true) ->
  (forall t a q, is_sched (added t a q) = true) ->
  srt_group pre added removed group c = Ok (c', evs) ->
  kept g c c' /\ Forall (fun x => is_sched x = true) evs.
Proof.
  intros Hpre Hadd. unfold srt_group. destruct group as [|g0 group].
  { intros H; injection H as <- <-. split; [apply kept_refl|constructor]. }
  intros H. inv_bind H. destruct x as [[c1 e1] group1].
  inv_bind H. destruct x as [c2 e2]. injection H as <- <-.
  assert (H1 : kept g c c1 /\ Forall (fun x => is_sched x = true) e1).
  { unfold srt_try_preempt in Hx.
    destruct (_curr c) as [cur|];
      [|injection Hx as <- <- _; split; [apply kept_refl|constructor]].
    destruct (_ && _);
      [|injection Hx as <- <- _; split; [apply kept_refl|constructor]].
    inv_bind Hx. inv_bind Hx. injection Hx as <- <- _.
    split; [|repeat constructor; apply Hpre].
    match goal with
    | Hp : preempt _ _ = Ok _ |- _ => apply preempt_kept in Hp; exact Hp
    end. }
  destruct H1 as [K1 E1].
  assert (H2 : kept g c c2 /\ Forall (fun x => is_sched x = true) e2).
  { revert Hx0.
    apply (for_each_inv_events (fun x => kept g c x)
             (fun x => is_sched x = true)); [|exact K1].
    intros proc a b e0 Ka Hb. unfold srt_enqueue in Hb. inv_bind Hb.
    injection Hb as <- <-.
    match goal with
    | Hr : ready _ _ = Ok _ |- _ => apply ready_kept in Hr
    end.
    split; [|repeat constructor; apply Hadd].
    eapply kept_trans; [exact Ka|]. assumption. }
  destruct H2 as [K2 E2]. split; [exact K2 | apply Forall_app; auto].
Qed.

End Frames.

(** ** The places of the processes through a pass *)

Lemma block_occ c c1 cur until lo la :
  one_place c lo la false ->
  _curr c = Some cur ->
  _ready c1 = _ready c ->
  CPU._io c1 = dict_set cur until (CPU._io c) ->
  _finished c1 = _finished c ->
  forall q, (occ c1 lo true q <= occ c lo false q)%nat.
Proof.
  intros Hop Hcur Hr Hio Hf q.
  pose proof (op_occ _ _ _ _ Hop q) as Hq.
  unfold occ, curr_count in *. rewrite Hcur in Hq.
  rewrite Hcur, Hr, Hio, Hf. cbv iota.
  destruct (Nat.eq_dec cur q) as [->|Hne].
  - pose proof (live_le_keys q lo (dict_set q until (CPU._io c))).
    pose proof (keys_dict_set_count q q until (CPU._io c)) as Hk.
    pose proof (op_io_keys _ _ _ _ Hop) as Hnd.
    rewrite NoDup_count_le in Hnd. specialize (Hk (Hnd q)). lia.
  - rewrite live_dict_set_other by exact Hne. lia.
Qed.

Lemma finish_occ c c1 cur t lo la :
  one_place c lo la false ->
  _curr c = Some cur ->
  _ready c1 = _ready c ->
  CPU._io c1 = CPU._io c ->
  _finished c1 = dict_set cur t (_finished c) ->
  (forall q, (occ c1 lo true q <= occ c lo false q)%nat)
  /\ dict_keys (_finished c1) = dict_keys (_finished c) ++ [cur]
  /\ count_occ Nat.eq_dec (dict_keys (_finished c)) cur = 0%nat.
Proof.
  intros Hop Hcur Hr Hio Hf.
  pose proof (op_occ _ _ _ _ Hop cur) as Hc.
  unfold occ, curr_count in Hc. rewrite Hcur in Hc.
  destruct (Nat.eq_dec cur cur) as [_|]; [|contradiction].
  assert (Hfresh : count_occ Nat.eq_dec (dict_keys (_finished c)) cur = 0%nat)
    by lia.
  rewrite (dict_set_fresh _ _ _ Hfresh) in Hf.
  assert (Hk : dict_keys (_finished c1) = dict_keys (_finished c) ++ [cur]).
  { rewrite Hf. unfold dict_keys. rewrite map_app. reflexivity. }
  split; [|split; [exact Hk | exact Hfresh]].
  intros q. unfold occ, curr_count. rewrite Hcur, Hr, Hio, Hk.
  cbv iota. rewrite count_occ_snoc. unfold same_ref.
  destruct (Nat.eq_dec cur q); lia.
Qed.

Lemma fcfs_check_finished_occ c c1 removed e1 lo la :
  one_place c lo la false ->
  fcfs_check_finished c = (c1, removed, e1) ->
  forall q, (occ c1 lo removed q <= occ c lo false q)%nat.
Proof.
  intros Hop. unfold fcfs_check_finished.
  destruct (_curr c) as [cur|] eqn:Hcur.
  2:{ intros H; injection H as <- <- _. intros q; lia. }
  destruct (Z.leb _ _).
  2:{ intros H; injection H as <- <- _. intros q.
      unfold occ, curr_count. simpl. lia. }
  destruct (Z.ltb _ _); intros H; injection H as <- <- _.
  - eapply (block_occ c _ cur); eauto; reflexivity.
  - eapply (finish_occ c _ cur); eauto; reflexivity.
Qed.

Lemma srt_check_finished_occ c c1 removed e1 lo la :
  one_place c lo la false ->
  srt_check_finished c = (c1, removed, e1) ->
  forall q, (occ c1 lo removed q <= occ c lo false q)%nat.
Proof.
  intros Hop. unfold srt_check_finished.
  destruct (_curr c) as [cur|] eqn:Hcur.
  2:{ intros H; injection H as <- <- _. intros q; lia. }
  destruct (Z.leb _ _).
  2:{ intros H; injection H as <- <- _. intros q.
      unfold occ, curr_count. simpl. lia. }
  destruct (Z.ltb _ _); intros H; injection H as <- <- _.
  - eapply (block_occ c _ cur); eauto; reflexivity.
  - eapply (finish_occ c _ cur); eauto; reflexivity.
Qed.

(** A process whose I/O completes at the current tick is blocked now. *)
Lemma io_candidates_placed c la r p :
  one_place c (_ticker c) la r ->
  In p (io_at_ticker c) ->
  (1 <= occ c (_ticker c) r p)%nat.
Proof.
  intros Hop Hp. pose proof (op_io_keys _ _ _ _ Hop) as Hnd.
  unfold io_at_ticker in Hp.
  apply in_map_iff in Hp. destruct Hp as ([k v] & Hk & Hin).
  simpl in Hk. subst k. apply filter_In in Hin. destruct Hin as [Hin Hv].
  simpl in Hv. apply Z.eqb_eq in Hv. subst v.
  pose proof (live_entry (_ticker c) p _ _ Hnd Hin) as L0.
  rewrite Z.leb_refl in L0. unfold occ. lia.
Qed.

(** The I/O completions of a pass put no process in a new place. *)
Lemma io_group_bound c1 c2 la r (cands : list pref) :
  one_place c1 (_ticker c1) la r ->
  Permutation cands (io_at_ticker c1) ->
  (forall q, (occ c2 (_ticker c1 + 1) r q
              <= occ c1 (_ticker c1 + 1) r q
                 + count_occ Nat.eq_dec cands q)%nat) ->
  forall q, (occ c2 (_ticker c1 + 1) r q <= occ c1 (_ticker c1) r q)%nat.
Proof.
  intros Hop Hperm Hb q. specialize (Hb q).
  destruct (io_candidates _ _ _ Hop) as [Hnd Hc].
  rewrite (proj1 (Permutation_count_occ Nat.eq_dec _ _) Hperm q) in Hb.
  destruct (count_occ Nat.eq_dec (io_at_ticker c1) q) eqn:E.
  - pose proof (occ_raise c1 (_ticker c1) (_ticker c1 + 1) r q). lia.
  - assert (Hin : In q (io_at_ticker c1))
      by (apply (count_occ_In Nat.eq_dec); lia).
    destruct (Hc q Hin) as [H0 _].
    pose proof (io_candidates_placed _ _ _ _ Hop Hin).
    pose proof (proj1 NoDup_count_le Hnd q). lia.
Qed.

(** What a pass of the FCFS loop does, seen from the places of the
    processes: after the check for a finished burst, nothing terminates, no
    burst count changes, and a process is in a place only if it was in one
    before the pass or is a process of the workload that arrives at this
    tick. *)
Lemma fcfs_body_anatomy n c c' evs b :
  one_place c (_ticker c) (_ticker c) false ->
  fcfs_body n c = Ok (c', evs, b) ->
  exists c1 removed e1 e',
    fcfs_check_finished c = (c1, removed, e1)
    /\ evs = e1 ++ e'
    /\ Forall (fun x => is_sched x = true) e'
    /\ _finished c' = _finished c1
    /\ kept _num c1 c'
    /\ static c c'
    /\ (forall q,
          (count_occ Nat.eq_dec (dict_keys (_finished c')) q
           <= occ c (_ticker c) false q)%nat)
    /\ forall q,
        (occ c' (_ticker c + 1) false q <= occ c (_ticker c) false q)%nat
        \/ ((q < List.length (_procs c))%nat
            /\ _ticker c <= _arrival (deref c q)).
Proof.
  intros Hop. unfold fcfs_body.
  destruct (fcfs_check_finished c) as [[c1 removed] e1] eqn:H1.
  destruct (fcfs_check_finished_one_place _ _ _ _ _ _ Hop H1)
    as (Hop1 & S1 & T1 & F1).
  pose proof (fcfs_check_finished_occ _ _ _ _ _ _ Hop H1) as B1.
  intros H. inv_bind H. destruct x as [c2 e2].
  inv_bind H. destruct x as [c3 e3].
  inv_bind H. rename x into c4. inv_bind H. destruct x as [c5 e5].
  exists c1, removed, e1, (e2 ++ e3 ++ e5).
  set (t0 := _ticker c) in *.
  rewrite <- T1 in Hop1.
  destruct (fcfs_io_done_occ (_ticker c1 + 1) removed _ _ _ Hx)
    as ((S2 & T2 & F2 & N2) & _ & O2).
  destruct (fcfs_io_done_kept _num (fun _ _ => eq_refl) (fun _ _ => eq_refl)
              _ _ _ Hx) as [K2 E2].
  pose proof (io_group_bound c1 c2 _ removed _ Hop1
                (sorted_perm (pid_leb c1) (io_at_ticker c1)) O2) as B2.
  destruct (fcfs_arrivals_occ (_ticker c1 + 1) removed _ _ _ Hx0)
    as ((S3 & T3 & F3 & N3) & _ & O3).
  destruct (fcfs_arrivals_kept _num (fun _ _ => eq_refl) (fun _ _ => eq_refl)
              _ _ _ Hx0) as [K3 E3].
  pose proof (retire_kept _num removed _ _ Hx1) as K4.
  assert (H4 : static c3 c4 /\ _finished c4 = _finished c3
               /\ forall lo q, occ c4 lo false q = occ c3 lo removed q).
  { destruct removed.
    - destruct (remove_occ _ _ Hx1) as (S4 & F4 & _ & _ & O4). auto.
    - injection Hx1 as <-. split; [apply static_refl | auto]. }
  destruct H4 as (S4 & F4 & O4).
  destruct (fcfs_admit_occ _ _ _ Hx2) as (S5 & F5 & _ & _ & _ & O5).
  destruct (fcfs_admit_kept _num (fun _ _ => eq_refl) (fun _ _ => eq_refl)
              _ _ _ Hx2) as [K5 E5].
  assert (Hst : static c c5).
  { eapply static_trans; [exact S1|]. eapply static_trans; [exact S2|].
    eapply static_trans; [exact S3|]. eapply static_trans; [exact S4|].
    exact S5. }
  assert (Hk : kept _num c1 c5) by (unfold kept in *; congruence).
  assert (Hf : _finished c5 = _finished c1) by congruence.
  assert (Hb : forall q,
             (occ c5 (t0 + 1) false q <= occ c t0 false q)%nat
             \/ ((q < List.length (_procs c))%nat
                 /\ t0 <= _arrival (deref c q))).
  { intros q. rewrite T1 in *.
    specialize (O3 q). specialize (B2 q). specialize (B1 q).
    rewrite O5, O4.
    destruct (count_occ Nat.eq_dec (arriving c2) q) eqn:E; [left; lia|].
    right. assert (Hin : In q (arriving c2))
      by (apply (count_occ_In Nat.eq_dec); lia).
    unfold arriving in Hin. apply filter_In in Hin. destruct Hin as [Hs Ha].
    apply in_seq in Hs. apply Z.eqb_eq in Ha.
    assert (S12 : static c c2)
      by (eapply static_trans; [exact S1 | exact S2]).
    destruct S12 as [L12 A12]. rewrite A12 in Ha. split; lia. }
  assert (Hfin : forall q,
             (count_occ Nat.eq_dec (dict_keys (_finished c5)) q
              <= occ c t0 false q)%nat).
  { intros q. rewrite Hf. specialize (B1 q). unfold occ in B1 |- *. lia. }
  split; [reflexivity|].
  destruct (Z.eqb _ _); injection H as <- <- _.
  - split; [reflexivity|]. split; [repeat (apply Forall_app; split); auto|].
    auto.
  - split; [reflexivity|]. split; [repeat (apply Forall_app; split); auto|].
    split; [exact Hf|]. split; [exact Hk|].
    split; [|split; [exact Hfin | exact Hb]].
    destruct Hst as [L A]. split; auto.
Qed.

(** The same for a pass of the SRT loop. *)
Lemma srt_body_anatomy n c c' evs b :
  one_place c (_ticker c) (_ticker c) false ->
  srt_body n c = Ok (c', evs, b) ->
  exists c1 removed e1 e',
    srt_check_finished c = (c1, removed, e1)
    /\ evs = e1 ++ e'
    /\ Forall (fun x => is_sched x = true) e'
    /\ _finished c' = _finished c1
    /\ kept _num c1 c'
    /\ static c c'
    /\ (forall q,
          (count_occ Nat.eq_dec (dict_keys (_finished c')) q
           <= occ c (_ticker c) false q)%nat)
    /\ forall q,
        (occ c' (_ticker c + 1) false q <= occ c (_ticker c) false q)%nat
        \/ ((q < List.length (_procs c))%nat
            /\ _ticker c <= _arrival (deref c q)).
Proof.
  intros Hop. unfold srt_body.
  destruct (srt_check_finished c) as [[c1 removed] e1] eqn:H1.
  destruct (srt_check_finished_one_place _ _ _ _ _ _ Hop H1)
    as (Hop1 & S1 & T1 & F1).
  pose proof (srt_check_finished_occ _ _ _ _ _ _ Hop H1) as B1.
  intros H. inv_bind H. destruct x as [c2 e2].
  inv_bind H. destruct x as [c3 e3].
  inv_bind H. rename x into c4. inv_bind H. destruct x as [c5 e5].
  exists c1, removed, e1, (e2 ++ e3 ++ e5).
  set (t0 := _ticker c) in *.
  rewrite <- T1 in Hop1.
  unfold srt_io_done in Hx. unfold srt_arrivals in Hx0.
  pose proof (srt_group_occ _ _ _ _ _ _ _ Hx) as O2.
  destruct (srt_group_frame _ _ _ _ _ _ _ Hx) as (S2 & F2 & _).
  destruct (srt_group_kept _num (fun _ _ => eq_refl) (fun _ _ => eq_refl)
              (fun _ _ => eq_refl) IOPreempts IOCompleted _ _ _ _ _
              (fun _ _ _ _ => eq_refl) (fun _ _ _ => eq_refl) Hx)
    as [K2 E2].
  assert (B2 : forall q,
             (occ c2 (_ticker c1 + 1) removed q
              <= occ c1 (_ticker c1) removed q)%nat).
  { apply (io_group_bound c1 c2 _ removed
             (sorted (srt_leb c1) (io_at_ticker c1)) Hop1).
    - apply sorted_perm.
    - intros q. rewrite O2. lia. }
  pose proof (srt_group_ticker _ _ _ _ _ _ _ Hx) as T2.
  pose proof (srt_group_occ _ _ _ _ _ _ _ Hx0) as O3.
  destruct (srt_group_frame _ _ _ _ _ _ _ Hx0) as (S3 & F3 & _).
  destruct (srt_group_kept _num (fun _ _ => eq_refl) (fun _ _ => eq_refl)
              (fun _ _ => eq_refl) ArrivalPreempts Arrived _ _ _ _ _
              (fun _ _ _ _ => eq_refl) (fun _ _ _ => eq_refl) Hx0)
    as [K3 E3].
  pose proof (retire_kept _num removed _ _ Hx1) as K4.
  assert (H4 : static c3 c4 /\ _finished c4 = _finished c3
               /\ forall lo q, occ c4 lo false q = occ c3 lo removed q).
  { destruct removed.
    - destruct (remove_occ _ _ Hx1) as (S4 & F4 & _ & _ & O4). auto.
    - injection Hx1 as <-. split; [apply static_refl | auto]. }
  destruct H4 as (S4 & F4 & O4).
  destruct (srt_admit_occ _ _ _ Hx2) as (S5 & F5 & _ & _ & _ & O5).
  destruct (srt_admit_kept _num (fun _ _ => eq_refl) (fun _ _ => eq_refl)
              _ _ _ Hx2) as [K5 E5].
  assert (Hst : static c c5).
  { eapply static_trans; [exact S1|]. eapply static_trans; [exact S2|].
    eapply static_trans; [exact S3|]. eapply static_trans; [exact S4|].
    exact S5. }
  assert (Hk : kept _num c1 c5) by (unfold kept in *; congruence).
  assert (Hf : _finished c5 = _finished c1) by congruence.
  assert (Hb : forall q,
             (occ c5 (t0 + 1) false q <= occ c t0 false q)%nat
             \/ ((q < List.length (_procs c))%nat
                 /\ t0 <= _arrival (deref c q))).
  { intros q. rewrite T1 in *.
    specialize (O3 (t0 + 1) q). specialize (B2 q). specialize (B1 q).
    rewrite O5, O4.
    rewrite sorted_count in O3.
    destruct (count_occ Nat.eq_dec (arriving c2) q) eqn:E; [left; lia|].
    right. assert (Hin : In q (arriving c2))
      by (apply (count_occ_In Nat.eq_dec); lia).
    unfold arriving in Hin. apply filter_In in Hin. destruct Hin as [Hs Ha].
    apply in_seq in Hs. apply Z.eqb_eq in Ha.
    assert (S12 : static c c2)
      by (eapply static_trans; [exact S1 | exact S2]).
    destruct S12 as [L12 A12]. rewrite A12 in Ha. split; lia. }
  assert (Hfin : forall q,
             (count_occ Nat.eq_dec (dict_keys (_finished c5)) q
              <= occ c t0 false q)%nat).
  { intros q. rewrite Hf. specialize (B1 q). unfold occ in B1 |- *. lia. }
  split; [reflexivity|].
  destruct (Z.eqb _ _); injection H as <- <- _.
  - split; [reflexivity|]. split; [repeat (apply Forall_app; split); auto|].
    auto.
  - split; [reflexivity|]. split; [repeat (apply Forall_app; split); auto|].
    split; [exact Hf|]. split; [exact Hk|].
    split; [|split; [exact Hfin | exact Hb]].
    destruct Hst as [L A]. split; auto.
Qed.

(** ** The bursts of the processes *)

Lemma zsum_upd_num (cur : pref) f ps :
  (cur < List.length ps)%nat ->
  zsum (map _num (upd cur f ps))
  = zsum (map _num ps) - _num (nth cur ps Process.dummy)
    + _num (f (nth cur ps Process.dummy)).
Proof.
  revert cur; induction ps as [|p ps IH]; intros [|cur] H; simpl in *;
    try lia.
  rewrite IH by lia. lia.
Qed.

Lemma zsum_all_zero (l : list Z) :
  (forall q, (q < List.length l)%nat -> nth q l 0 = 0) -> zsum l = 0.
Proof.
  induction l as [|x l IH]; simpl; intros H; [reflexivity|].
  rewrite (H 0%nat) by lia. rewrite IH; [reflexivity|].
  intros q Hq. apply (H (S q)). lia.
Qed.

Lemma deref_num c q :
  _num (deref c q) = nth q (map _num (_procs c)) 0.
Proof.
  unfold deref. symmetry. apply (map_nth _num (_procs c) Process.dummy q).
Qed.

Lemma kept_num_deref c c' :
  kept _num c c' ->
  List.length (_procs c') = List.length (_procs c)
  /\ bursts_left c' = bursts_left c
  /\ forall q, _num (deref c' q) = _num (deref c q).
Proof.
  unfold kept, bursts_left. intros H. split; [|split].
  - rewrite <- (length_map _num (_procs c')), H. apply length_map.
  - rewrite H. reflexivity.
  - intros q. rewrite !deref_num, H. reflexivity.
Qed.

Lemma completions_app a b :
  completions (a ++ b) = (completions a + completions b)%nat.
Proof. unfold completions. rewrite filter_app, length_app. reflexivity. Qed.

Lemma completions_sched e :
  Forall (fun x => is_sched x = true) e -> completions e = 0%nat.
Proof.
  unfold completions. induction 1 as [|x l Hx _ IH]; simpl; [reflexivity|].
  destruct x; simpl in *; try discriminate; exact IH.
Qed.

(** The completion of a burst of the running process [cur]: one burst less
    to run, and the process is in [_finished] exactly when none is left. *)
Lemma completion_account c ca c1 cur lo la :
  one_place c lo la false ->
  valid_places c lo ->
  bursts_left_ok c ->
  _curr c = Some cur ->
  _procs ca = upd cur (fun p => set_num (_num p - 1) p) (_procs c) ->
  kept _num ca c1 ->
  (if Z.ltb 0 (_num (deref ca cur))
   then _finished c1 = _finished c
   else dict_keys (_finished c1) = dict_keys (_finished c) ++ [cur]) ->
  bursts_left_ok c1 /\ bursts_left c1 + 1 = bursts_left c.
Proof.
  intros Hop Hv Hb Hcur Hca Hk Hfin.
  assert (Hocc : (occ c lo false cur <= 1)%nat) by apply Hop.
  assert (Hcc : curr_count c false cur = 1%nat).
  { unfold curr_count. rewrite Hcur.
    destruct (Nat.eq_dec cur cur); [reflexivity | contradiction]. }
  assert (Hval : (cur < List.length (_procs c))%nat).
  { apply Hv. unfold occ. lia. }
  assert (Hfresh : count_occ Nat.eq_dec (dict_keys (_finished c)) cur = 0%nat)
    by (unfold occ in Hocc; lia).
  destruct (Hb cur Hval) as [Hnum _]. specialize (Hnum Hfresh).
  destruct (kept_num_deref _ _ Hk) as (L1 & B1 & D1).
  assert (La : List.length (_procs ca) = List.length (_procs c))
    by (rewrite Hca; apply upd_length).
  assert (Dcur : _num (deref ca cur) = _num (deref c cur) - 1).
  { unfold deref. rewrite Hca, nth_upd_same by exact Hval. reflexivity. }
  assert (Dq : forall q, q <> cur -> _num (deref ca q) = _num (deref c q)).
  { intros q Hq. unfold deref. rewrite Hca, nth_upd_other by auto.
    reflexivity. }
  split.
  - intros q Hq. rewrite L1, La in Hq. rewrite D1.
    destruct (Nat.eq_dec q cur) as [->|Hne].
    + rewrite Dcur.
      destruct (Z.ltb_spec 0 (_num (deref ca cur))) as [Hpos|Hnp].
      * rewrite Hfin. split; [lia|]. rewrite Hfresh. lia.
      * rewrite Hfin, count_occ_snoc. unfold same_ref.
        destruct (Nat.eq_dec cur cur); [|contradiction].
        split; lia.
    + rewrite (Dq q Hne).
      assert (Hc : count_occ Nat.eq_dec (dict_keys (_finished c1)) q
                   = count_occ Nat.eq_dec (dict_keys (_finished c)) q).
      { destruct (Z.ltb 0 (_num (deref ca cur)));
          [rewrite Hfin; reflexivity|].
        rewrite Hfin, count_occ_snoc. unfold same_ref.
        destruct (Nat.eq_dec cur q); [congruence | lia]. }
      rewrite Hc. apply Hb, Hq.
  - rewrite B1. unfold bursts_left. rewrite Hca.
    rewrite zsum_upd_num by exact Hval. simpl. lia.
Qed.

Lemma fcfs_check_finished_account c c1 removed e1 lo la :
  one_place c lo la false ->
  valid_places c lo ->
  bursts_left_ok c ->
  fcfs_check_finished c = (c1, removed, e1) ->
  bursts_left_ok c1
  /\ bursts_left c1 + Z.of_nat (completions e1) = bursts_left c.
Proof.
  intros Hop Hv Hb. unfold fcfs_check_finished.
  destruct (_curr c) as [cur|] eqn:Hcur.
  2:{ intros H; injection H as <- _ <-. split; [exact Hb|].
      unfold completions; simpl; lia. }
  destruct (Z.leb _ _).
  2:{ intros H; injection H as <- _ <-.
      destruct (kept_num_deref c
                  (mutate cur (fun p => set_remaining (_remaining p - 1) p) c))
        as (L & B & D); [apply mutate_kept; reflexivity|].
      split; [|unfold completions; simpl; lia].
      intros q Hq. rewrite L in Hq. rewrite D. apply Hb, Hq. }
  set (ca := mutate cur (fun p => set_num (_num p - 1) p) c).
  destruct (Z.ltb 0 (_num (deref ca cur))) eqn:E;
    intros H; injection H as <- _ <-.
  - destruct (completion_account c ca
                (set_io (dict_set cur
                           (_ticker ca + Process._io (deref ca cur) + t_cs / 2)
                           (CPU._io ca)) ca)
                cur lo la Hop Hv Hb Hcur eq_refl) as [H1 H2].
    + reflexivity.
    + rewrite E. reflexivity.
    + split; [exact H1 | exact H2].
  - destruct (finish_occ c
                (set_finished (dict_set cur (_ticker ca) (_finished ca)) ca)
                cur (_ticker ca) lo la Hop Hcur)
      as (_ & Hkeys & _); try reflexivity.
    destruct (completion_account c ca
                (set_finished (dict_set cur (_ticker ca) (_finished ca)) ca)
                cur lo la Hop Hv Hb Hcur eq_refl) as [H1 H2].
    + reflexivity.
    + rewrite E. exact Hkeys.
    + split; [exact H1 | exact H2].
Qed.

Lemma srt_check_finished_account c c1 removed e1 lo la :
  one_place c lo la false ->
  valid_places c lo ->
  bursts_left_ok c ->
  srt_check_finished c = (c1, removed, e1) ->
  bursts_left_ok c1
  /\ bursts_left c1 + Z.of_nat (completions e1) = bursts_left c.
Proof.
  intros Hop Hv Hb. unfold srt_check_finished.
  destruct (_curr c) as [cur|] eqn:Hcur.
  2:{ intros H; injection H as <- _ <-. split; [exact Hb|].
      unfold completions; simpl; lia. }
  destruct (Z.leb _ _).
  2:{ intros H; injection H as <- _ <-.
      destruct (kept_num_deref c
                  (mutate cur (fun p => set_remaining (_remaining p - 1) p) c))
        as (L & B & D); [apply mutate_kept; reflexivity|].
      split; [|unfold completions; simpl; lia].
      intros q Hq. rewrite L in Hq. rewrite D. apply Hb, Hq. }
  set (ca := mutate cur (fun p => set_num (_num p - 1) p) c).
  destruct (Z.ltb 0 (_num (deref ca cur))) eqn:E;
    intros H; injection H as <- _ <-.
  - set (cb := mutate cur (fun p => set_remaining (_burst p) p) ca).
    destruct (completion_account c ca
                (set_io (dict_set cur
                           (_ticker cb + Process._io (deref cb cur) + t_cs / 2)
                           (CPU._io cb)) cb)
                cur lo la Hop Hv Hb Hcur eq_refl) as [H1 H2].
    + apply (mutate_kept _num cur (fun p => set_remaining (_burst p) p) ca).
      reflexivity.
    + rewrite E. reflexivity.
    + split; [exact H1 | exact H2].
  - destruct (finish_occ c
                (set_finished (dict_set cur (_ticker ca) (_finished ca)) ca)
                cur (_ticker ca) lo la Hop Hcur)
      as (_ & Hkeys & _); try reflexivity.
    destruct (completion_account c ca
                (set_finished (dict_set cur (_ticker ca) (_finished ca)) ca)
                cur lo la Hop Hv Hb Hcur eq_refl) as [H1 H2].
    + reflexivity.
    + rewrite E. exact Hkeys.
    + split; [exact H1 | exact H2].
Qed.

Lemma fcfs_body_ticker_next n c c' evs :
  fcfs_body n c = Ok (c', evs, false) -> _ticker c + 1 <= _ticker c'.
Proof.
  unfold fcfs_body.
  destruct (fcfs_check_finished c) as [[c1 removed] e1] eqn:H1.
  apply fcfs_check_finished_ticker in H1.
  intros H. inv_bind H. destruct x as [c2 e2].
  inv_bind H. destruct x as [c3 e3].
  inv_bind H. inv_bind H. destruct x0 as [c5 e5].
  apply fcfs_io_done_ticker in Hx. apply fcfs_arrivals_ticker in Hx0.
  apply fcfs_admit_ticker in Hx2.
  assert (_ticker c3 <= _ticker x).
  { destruct removed; [apply remove_ticker in Hx1; rewrite Hx1, half_t_cs; lia
                      | injection Hx1 as <-; lia]. }
  destruct (Z.eqb _ _); [discriminate|]. injection H as <- _. simpl. lia.
Qed.

Lemma srt_body_ticker_next n c c' evs :
  srt_body n c = Ok (c', evs, false) -> _ticker c + 1 <= _ticker c'.
Proof.
  unfold srt_body.
  destruct (srt_check_finished c) as [[c1 removed] e1] eqn:H1.
  apply srt_check_finished_ticker in H1.
  intros H. inv_bind H. destruct x as [c2 e2].
  inv_bind H. destruct x as [c3 e3].
  inv_bind H. inv_bind H. destruct x0 as [c5 e5].
  apply srt_group_ticker in Hx. apply srt_group_ticker in Hx0.
  apply srt_admit_ticker in Hx2.
  assert (_ticker c3 <= _ticker x).
  { destruct removed; [apply remove_ticker in Hx1; rewrite Hx1, half_t_cs; lia
                      | injection Hx1 as <-; lia]. }
  destruct (Z.eqb _ _); [discriminate|]. injection H as <- _. simpl. lia.
Qed.

(** A list of distinct numbers below [len], of length [len], holds every
    number below [len]. *)
Lemma all_counted (l : list nat) (len : nat) :
  (forall q, (count_occ Nat.eq_dec l q <= 1)%nat) ->
  (forall q, (1 <= count_occ Nat.eq_dec l q)%nat -> (q < len)%nat) ->
  List.length l = len ->
  forall q, (q < len)%nat -> (1 <= count_occ Nat.eq_dec l q)%nat.
Proof.
  intros Hnd Hv Hlen q Hq.
  apply NoDup_count_le in Hnd.
  assert (Hincl : incl (seq 0 len) l).
  { apply NoDup_length_incl; [exact Hnd|rewrite length_seq; lia|].
    intros x Hx. apply in_seq. apply (count_occ_In Nat.eq_dec) in Hx.
    specialize (Hv x). lia. }
  assert (Hin : In q l) by (apply Hincl, in_seq; lia).
  apply (count_occ_In Nat.eq_dec) in Hin. lia.
Qed.

(** What the anatomy of a pass gives for the places. *)
Lemma pass_places c c' (b : bool) :
  one_place c (_ticker c) (_ticker c) false ->
  valid_places c (_ticker c) ->
  static c c' ->
  (b = false -> _ticker c + 1 <= _ticker c') ->
  (forall q,
      (count_occ Nat.eq_dec (dict_keys (_finished c')) q
       <= occ c (_ticker c) false q)%nat) ->
  (forall q,
      (occ c' (_ticker c + 1) false q <= occ c (_ticker c) false q)%nat
      \/ ((q < List.length (_procs c))%nat
          /\ _ticker c <= _arrival (deref c q))) ->
  (forall q,
      (count_occ Nat.eq_dec (dict_keys (_finished c')) q <= 1)%nat
      /\ ((1 <= count_occ Nat.eq_dec (dict_keys (_finished c')) q)%nat ->
          (q < List.length (_procs c'))%nat))
  /\ (b = false ->
      valid_places c' (_ticker c')
      /\ forall p, missed c p -> missed c' p).
Proof.
  intros Hop Hv [L A] Ht Hfin Hb. split.
  - intros q. specialize (Hfin q). pose proof (op_occ _ _ _ _ Hop q).
    split; [lia|]. intros H1. rewrite L. apply Hv. lia.
  - intros Eb. specialize (Ht Eb). split.
    + intros q Hq. rewrite L.
      pose proof (occ_raise c' (_ticker c + 1) (_ticker c') false q Ht).
      destruct (Hb q) as [H1|[H1 _]]; [apply Hv; lia | exact H1].
    + intros p (P1 & P2 & P3). split; [lia|]. split; [rewrite A; lia|].
      pose proof (occ_raise c' (_ticker c + 1) (_ticker c') false p Ht).
      destruct (Hb p) as [H1|[_ H1]]; lia.
Qed.

Lemma fcfs_loop_missed n p fuel :
  forall c out,
    one_place c (_ticker c) (_ticker c) false ->
    valid_places c (_ticker c) ->
    missed c p ->
    n = Z.of_nat (List.length (_procs c)) ->
    fcfs_loop fuel n c out = OutOfFuel.
Proof.
  induction fuel as [|fuel IH]; intros c out Hop Hv Hm Hn; simpl;
    [reflexivity|].
  destruct (fcfs_body_total n c) as [[[c' evs] b] Hb]. rewrite Hb.
  destruct (fcfs_body_one_place _ _ _ _ _ Hop Hb) as [_ Hb1].
  destruct (fcfs_body_anatomy _ _ _ _ _ Hop Hb)
    as (c1 & removed & e1 & e' & _ & _ & _ & _ & _ & Hst & Hfin & Hbound).
  destruct (pass_places c c' b Hop Hv Hst) as [Hf Hnext]; auto.
  { intros ->. eapply fcfs_body_ticker_next; eauto. }
  destruct b.
  - exfalso. destruct Hm as (P1 & P2 & P3). destruct Hst as [L _].
    assert (Hall : (1 <= count_occ Nat.eq_dec (dict_keys (_finished c')) p)%nat).
    { apply (all_counted _ (List.length (_procs c'))).
      - intros q. apply Hf.
      - intros q. apply Hf.
      - unfold dict_keys. rewrite length_map. lia.
      - lia. }
    specialize (Hfin p). lia.
  - destruct (Hnext eq_refl) as [Hv' Hm'].
    apply IH; auto. destruct Hst as [L _]. lia.
Qed.

Lemma srt_loop_missed n p fuel :
  forall c out,
    one_place c (_ticker c) (_ticker c) false ->
    valid_places c (_ticker c) ->
    missed c p ->
    n = Z.of_nat (List.length (_procs c)) ->
    srt_loop fuel n c out = OutOfFuel.
Proof.
  induction fuel as [|fuel IH]; intros c out Hop Hv Hm Hn; simpl;
    [reflexivity|].
  destruct (srt_body_total n c) as [[[c' evs] b] Hb]. rewrite Hb.
  destruct (srt_body_one_place _ _ _ _ _ Hop Hb) as [_ Hb1].
  destruct (srt_body_anatomy _ _ _ _ _ Hop Hb)
    as (c1 & removed & e1 & e' & _ & _ & _ & _ & _ & Hst & Hfin & Hbound).
  destruct (pass_places c c' b Hop Hv Hst) as [Hf Hnext]; auto.
  { intros ->. eapply srt_body_ticker_next; eauto. }
  destruct b.
  - exfalso. destruct Hm as (P1 & P2 & P3). destruct Hst as [L _].
    assert (Hall : (1 <= count_occ Nat.eq_dec (dict_keys (_finished c')) p)%nat).
    { apply (all_counted _ (List.length (_procs c'))).
      - intros q. apply Hf.
      - intros q. apply Hf.
      - unfold dict_keys. rewrite length_map. lia.
      - lia. }
    specialize (Hfin p). lia.
  - destruct (Hnext eq_refl) as [Hv' Hm'].
    apply IH; auto. destruct Hst as [L _]. lia.
Qed.

Lemma srt_loop_step n c c' evs out :
  srt_body n c = Ok (c', evs, false) ->
  (forall fuel, srt_loop fuel n c' (out ++ evs) = OutOfFuel) ->
  forall fuel, srt_loop fuel n c out = OutOfFuel.
Proof.
  intros Hb Hrest [|fuel]; simpl; [reflexivity|]. rewrite Hb. apply Hrest.
Qed.

Lemma fcfs_passes_missed n p k :
  forall c0 c out,
    one_place c0 (_ticker c0) (_ticker c0) false ->
    valid_places c0 (_ticker c0) ->
    n = Z.of_nat (List.length (_procs c0)) ->
    fcfs_passes k n c0 = Some c ->
    missed c p ->
    forall fuel, fcfs_loop fuel n c0 out = OutOfFuel.
Proof.
  induction k as [|k IH]; intros c0 c out Hop Hv Hn Hk Hm; simpl in Hk.
  - injection Hk as <-. intros fuel. eapply fcfs_loop_missed; eauto.
  - destruct (fcfs_body n c0) as [[[c1 evs] [|]]|e] eqn:Hb;
      try discriminate.
    destruct (fcfs_body_one_place _ _ _ _ _ Hop Hb) as [_ Hop1].
    destruct (fcfs_body_anatomy _ _ _ _ _ Hop Hb)
      as (_ & _ & _ & _ & _ & _ & _ & _ & _ & Hst & Hfin & Hbound).
    destruct (pass_places c0 c1 false Hop Hv Hst) as [_ Hnext]; auto.
    { intros _. eapply fcfs_body_ticker_next; eauto. }
    destruct (Hnext eq_refl) as [Hv1 _].
    eapply fcfs_loop_step; [exact Hb|].
    intros fuel. eapply IH; eauto. destruct Hst as [L _]. lia.
Qed.

Lemma srt_passes_missed n p k :
  forall c0 c out,
    one_place c0 (_ticker c0) (_ticker c0) false ->
    valid_places c0 (_ticker c0) ->
    n = Z.of_nat (List.length (_procs c0)) ->
    srt_passes k n c0 = Some c ->
    missed c p ->
    forall fuel, srt_loop fuel n c0 out = OutOfFuel.
Proof.
  induction k as [|k IH]; intros c0 c out Hop Hv Hn Hk Hm; simpl in Hk.
  - injection Hk as <-. intros fuel. eapply srt_loop_missed; eauto.
  - destruct (srt_body n c0) as [[[c1 evs] [|]]|e] eqn:Hb;
      try discriminate.
    destruct (srt_body_one_place _ _ _ _ _ Hop Hb) as [_ Hop1].
    destruct (srt_body_anatomy _ _ _ _ _ Hop Hb)
      as (_ & _ & _ & _ & _ & _ & _ & _ & _ & Hst & Hfin & Hbound).
    destruct (pass_places c0 c1 false Hop Hv Hst) as [_ Hnext]; auto.
    { intros _. eapply srt_body_ticker_next; eauto. }
    destruct (Hnext eq_refl) as [Hv1 _].
    eapply srt_loop_step; [exact Hb|].
    intros fuel. eapply IH; eauto. destruct Hst as [L _]. lia.
Qed.

Lemma init_valid_places procs cpu :
  CPU.init procs = Ok cpu ->
  valid_places cpu (_ticker cpu) /\ _procs cpu = procs.
Proof.
  unfold CPU.init. intros H. inv_bind H. injection H as <-. simpl.
  split; [|reflexivity]. intros q. unfold occ, curr_count. simpl. lia.
Qed.

(** A process that the clock has passed while it was in no place is never
    scheduled, and the run never ends.  If, at the head of some pass of the
    FCFS or of the SRT loop, a process of the workload is neither running,
    ready, blocked nor terminated although the clock is beyond its arrival
    time, then the run does not return, whatever the number of passes
    allowed (with [n] the number of processes). *)
Theorem missed_process_never_ends :
  (forall procs c0 k c p,
      CPU.init procs = Ok c0 ->
      fcfs_passes k (main_n procs) c0 = Some c ->
      missed c p ->
      forall fuel, run_fcfs fuel (main_n procs) procs = OutOfFuel)
  /\ (forall procs c0 k c p,
        CPU.init procs = Ok c0 ->
        srt_passes k (main_n procs) c0 = Some c ->
        missed c p ->
        forall fuel, run_srt fuel (main_n procs) procs = OutOfFuel).
Proof.
  split; intros procs c0 k c p Hi Hk Hm fuel.
  - unfold run_fcfs. rewrite Hi.
    destruct (init_one_place _ _ Hi) as (Hop & _).
    destruct (init_valid_places _ _ Hi) as (Hv & Hp).
    rewrite (fcfs_passes_missed (main_n procs) p k c0 c _ Hop Hv); auto.
    unfold main_n. rewrite Hp. reflexivity.
  - unfold run_srt. rewrite Hi.
    destruct (init_one_place _ _ Hi) as (Hop & _).
    destruct (init_valid_places _ _ Hi) as (Hv & Hp).
    rewrite (srt_passes_missed (main_n procs) p k c0 c _ Hop Hv); auto.
    unfold main_n. rewrite Hp. reflexivity.
Qed.

Lemma missed_process_never_ends_witness :
  run_srt 1000 (main_n wl_late) wl_late = OutOfFuel.
Proof.
  refine (proj2 missed_process_never_ends wl_late
            (CPU.mk wl_late 0 0 2 4%Q 0%Q 0%Q 0 0 0 None [] [] [])
            1%nat
            (CPU.mk [Process.mk 0 0 0 3 "A" 0 4 1 0; Process.init "B" 1 4 1 0]
                    0 0 2 4%Q 0%Q 0%Q 1 0 5 (Some 0%nat) [] [] [])
            1%nat _ _ _ 1000%nat).
  - reflexivity.
  - vm_compute. reflexivity.
  - unfold missed. simpl. repeat split; lia.
Defined.

Lemma bursts_left_ok_kept c c' :
  kept _num c c' -> _finished c' = _finished c ->
  bursts_left_ok c -> bursts_left_ok c'.
Proof.
  intros Hk Hf Hb q Hq.
  destruct (kept_num_deref _ _ Hk) as (L & _ & D).
  rewrite L in Hq. rewrite Hf, D. apply Hb, Hq.
Qed.

Lemma all_terminated_no_burst_left c :
  bursts_left_ok c ->
  (forall q, (q < List.length (_procs c))%nat ->
             (1 <= count_occ Nat.eq_dec (dict_keys (_finished c)) q)%nat) ->
  bursts_left c = 0.
Proof.
  intros Hb Hall. unfold bursts_left. apply zsum_all_zero.
  intros q Hq. rewrite length_map in Hq. rewrite <- deref_num.
  apply (Hb q Hq), Hall, Hq.
Qed.

Lemma fcfs_loop_account n fuel :
  forall c out c' out',
    one_place c (_ticker c) (_ticker c) false ->
    valid_places c (_ticker c) ->
    bursts_left_ok c ->
    n = Z.of_nat (List.length (_procs c)) ->
    fcfs_loop fuel n c out = Returned (c', out') ->
    Z.of_nat (completions out') = Z.of_nat (completions out) + bursts_left c.
Proof.
  induction fuel as [|fuel IH]; intros c out c' out' Hop Hv Hbl Hn H;
    simpl in H; [discriminate|].
  destruct (fcfs_body n c) as [[[c1 evs] b]|e] eqn:Hb; [|discriminate].
  destruct (fcfs_body_one_place _ _ _ _ _ Hop Hb) as [_ Hb1].
  destruct (fcfs_body_anatomy _ _ _ _ _ Hop Hb)
    as (cc & removed & e1 & e' & Hc & -> & Es & Hf & Hk & Hst & Hfin & Hbound).
  destruct (fcfs_check_finished_account _ _ _ _ _ _ Hop Hv Hbl Hc)
    as [Hbl1 Hsum].
  pose proof (bursts_left_ok_kept _ _ Hk Hf Hbl1) as Hbl2.
  destruct (kept_num_deref _ _ Hk) as (_ & Hsame & _).
  destruct (pass_places c c1 b Hop Hv Hst) as [Hfk Hnext]; auto.
  { intros ->. eapply fcfs_body_ticker_next; eauto. }
  assert (Hcomp : completions (out ++ e1 ++ e')
                  = (completions out + completions e1)%nat).
  { rewrite !completions_app, (completions_sched e' Es). lia. }
  destruct Hst as [L _].
  destruct b.
  - injection H as <- <-. rewrite Hcomp.
    assert (Hz : bursts_left c1 = 0).
    { apply (all_terminated_no_burst_left c1 Hbl2).
      apply all_counted; try (intros q; apply Hfk).
      unfold dict_keys. rewrite length_map. lia. }
    lia.
  - destruct (Hnext eq_refl) as [Hv1 _].
    rewrite (IH c1 (out ++ e1 ++ e') c' out' Hb1 Hv1 Hbl2); [|lia|exact H].
    rewrite Hcomp. lia.
Qed.

Lemma srt_loop_account n fuel :
  forall c out c' out',
    one_place c (_ticker c) (_ticker c) false ->
    valid_places c (_ticker c) ->
    bursts_left_ok c ->
    n = Z.of_nat (List.length (_procs c)) ->
    srt_loop fuel n c out = Returned (c', out') ->
    Z.of_nat (completions out') = Z.of_nat (completions out) + bursts_left c.
Proof.
  induction fuel as [|fuel IH]; intros c out c' out' Hop Hv Hbl Hn H;
    simpl in H; [discriminate|].
  destruct (srt_body n c) as [[[c1 evs] b]|e] eqn:Hb; [|discriminate].
  destruct (srt_body_one_place _ _ _ _ _ Hop Hb) as [_ Hb1].
  destruct (srt_body_anatomy _ _ _ _ _ Hop Hb)
    as (cc & removed & e1 & e' & Hc & -> & Es & Hf & Hk & Hst & Hfin & Hbound).
  destruct (srt_check_finished_account _ _ _ _ _ _ Hop Hv Hbl Hc)
    as [Hbl1 Hsum].
  pose proof (bursts_left_ok_kept _ _ Hk Hf Hbl1) as Hbl2.
  destruct (kept_num_deref _ _ Hk) as (_ & Hsame & _).
  destruct (pass_places c c1 b Hop Hv Hst) as [Hfk Hnext]; auto.
  { intros ->. eapply srt_body_ticker_next; eauto. }
  assert (Hcomp : completions (out ++ e1 ++ e')
                  = (completions out + completions e1)%nat).
  { rewrite !completions_app, (completions_sched e' Es). lia. }
  destruct Hst as [L _].
  destruct b.
  - injection H as <- <-. rewrite Hcomp.
    assert (Hz : bursts_left c1 = 0).
    { apply (all_terminated_no_burst_left c1 Hbl2).
      apply all_counted; try (intros q; apply Hfk).
      unfold dict_keys. rewrite length_map. lia. }
    lia.
  - destruct (Hnext eq_refl) as [Hv1 _].
    rewrite (IH c1 (out ++ e1 ++ e') c' out' Hb1 Hv1 Hbl2); [|lia|exact H].
    rewrite Hcomp. lia.
Qed.

Lemma init_bursts_left_ok procs cpu :
  Forall (fun p => 1 <= _num p) procs ->
  CPU.init procs = Ok cpu ->
  bursts_left_ok cpu /\ bursts_left cpu = zsum (map _num procs).
Proof.
  intros Hall H. unfold CPU.init in H. inv_bind H. injection H as <-.
  split; [|reflexivity].
  intros q Hq. simpl in *. split; [intros _|intros H; simpl in H; lia].
  unfold deref. simpl. rewrite Forall_forall in Hall.
  apply Hall, nth_In, Hq.
Qed.

(** Burst completions and burst counts.  For every workload in which each
    process has at least one burst, a run of [run_fcfs] or of [run_srt] that
    returns (with [n] the number of processes) has printed as many burst
    completions, "completed a CPU burst" and "terminated" lines together, as
    the burst counts of the workload sum to. *)
Theorem burst_completions_match_burst_counts :
  (forall fuel procs s out,
      Forall (fun p => 1 <= _num p) procs ->
      run_fcfs fuel (main_n procs) procs = Returned (s, out) ->
      Z.of_nat (completions out) = zsum (map _num procs))
  /\ (forall fuel procs s out,
        Forall (fun p => 1 <= _num p) procs ->
        run_srt fuel (main_n procs) procs = Returned (s, out) ->
        Z.of_nat (completions out) = zsum (map _num procs)).
Proof.
  split; intros fuel procs s out Hall.
  - unfold run_fcfs.
    destruct (CPU.init procs) as [cpu|e] eqn:Hi; [|discriminate].
    destruct (init_one_place _ _ Hi) as (Hop & _).
    destruct (init_valid_places _ _ Hi) as (Hv & Hp).
    destruct (init_bursts_left_ok _ _ Hall Hi) as (Hbl & Hs).
    destruct (fcfs_loop fuel (main_n procs) cpu _) as [[c' out']|e|] eqn:Hl;
      try discriminate.
    apply fcfs_loop_account in Hl; auto;
      [|unfold main_n; rewrite Hp; reflexivity].
    destruct (summary c') as [st|e]; [|discriminate].
    simpl. intros H; injection H as _ <-.
    rewrite completions_app.
    change (completions [SimEnded (_ticker c')]) with 0%nat.
    change (completions [SimStarted (_ticker cpu) (get_queue cpu)])
      with 0%nat in Hl.
    lia.
  - unfold run_srt.
    destruct (CPU.init procs) as [cpu|e] eqn:Hi; [|discriminate].
    destruct (init_one_place _ _ Hi) as (Hop & _).
    destruct (init_valid_places _ _ Hi) as (Hv & Hp).
    destruct (init_bursts_left_ok _ _ Hall Hi) as (Hbl & Hs).
    destruct (srt_loop fuel (main_n procs) cpu _) as [[c' out']|e|] eqn:Hl;
      try discriminate.
    apply srt_loop_account in Hl; auto;
      [|unfold main_n; rewrite Hp; reflexivity].
    destruct (summary c') as [st|e]; [|discriminate].
    simpl. intros H; injection H as _ <-.
    rewrite completions_app.
    change (completions [SimEnded (_ticker c')]) with 0%nat.
    change (completions [SimStarted (_ticker cpu) (get_queue cpu)])
      with 0%nat in Hl.
    lia.
Qed.

Lemma burst_completions_match_burst_counts_witness :
  exists s out,
    run_fcfs 10 (main_n wl_two_bursts) wl_two_bursts = Returned (s, out)
    /\ Z.of_nat (completions out) = 2.
Proof.
  do 2 eexists. split; [vm_compute; reflexivity|].
  refine (proj1 burst_completions_match_burst_counts 10%nat wl_two_bursts
            _ _ _ _).
  - repeat constructor; simpl; lia.
  - vm_compute. reflexivity.
Defined.

(** ** Waits and turnarounds are measured from the past *)

Lemma dict_set_keys_in (k : pref) (v : Z) (d : dict) (p : pref) :
  In p (dict_keys (dict_set k v d)) -> p = k \/ In p (dict_keys d).
Proof.
  unfold dict_keys. induction d as [|[k' v'] d IH]; simpl.
  - intros [H|[]]; auto.
  - destruct (Nat.eqb_spec k k') as [<-|Hne]; simpl.
    + intros [H|H]; auto.
    + intros [H|H]; auto. destruct (IH H); auto.
Qed.

Lemma dict_del_keys_in (k : pref) (d : dict) (p : pref) :
  In p (dict_keys (dict_del k d)) -> In p (dict_keys d).
Proof.
  unfold dict_keys, dict_del. rewrite !in_map_iff.
  intros (kv & E & Hin). apply filter_In in Hin. exists kv. tauto.
Qed.

Lemma sorted_in (leb : pref -> pref -> bool) (l : list pref) (p : pref) :
  In p (sorted leb l) -> In p l.
Proof. apply Permutation_in, sorted_perm. Qed.

(** A step keeps [timed] when the clock does not go back, the totals do not
    decrease, and every instant either stays or is set to a time that the
    clock has reached. *)
Lemma timed_step c c' :
  timed c ->
  _ticker c <= _ticker c' ->
  _total_num c' = _total_num c ->
  _total_wait c <= _total_wait c' ->
  _total_turnaround c <= _total_turnaround c' ->
  (forall p, _arrival (deref c' p) = _arrival (deref c p)) ->
  (forall p, _readied (deref c' p) = _readied (deref c p)
             \/ _readied (deref c' p) <= _ticker c') ->
  (forall p, _last_arrival (deref c' p) = _last_arrival (deref c p)
             \/ _last_arrival (deref c' p) <= _ticker c') ->
  (forall p, held c' p ->
             held c p \/ _last_arrival (deref c' p) <= _ticker c') ->
  timed c'.
Proof.
  intros (T0 & N & W & TA & R & L & H) Ht Hn Hw Hta Ha Hr Hl Hh.
  split; [lia|]. split; [lia|]. split; [lia|]. split; [lia|].
  split; [|split].
  - intros p. destruct (Hr p) as [E|E]; [|exact E].
    rewrite E. specialize (R p). lia.
  - intros p. rewrite Ha. destruct (Hl p) as [E|E]; [|lia].
    rewrite E. specialize (L p). lia.
  - intros p Hp. destruct (Hh p Hp) as [Hq|E]; [|exact E].
    destruct (Hl p) as [E|E]; [|exact E].
    rewrite E. specialize (H p Hq). lia.
Qed.

Lemma nth_upd_cases i f ps p :
  (p = i /\ (i < List.length ps)%nat
   /\ nth p (upd i f ps) Process.dummy = f (nth p ps Process.dummy))
  \/ ((p <> i \/ (List.length ps <= p)%nat)
      /\ nth p (upd i f ps) Process.dummy = nth p ps Process.dummy).
Proof.
  destruct (Nat.eq_dec i p) as [->|Hne].
  - destruct (Nat.lt_ge_cases p (List.length ps)) as [Hlt|Hge].
    + left. split; [reflexivity|]. split; [exact Hlt|].
      apply nth_upd_same, Hlt.
    + right. rewrite !nth_overflow; rewrite ?upd_length; auto.
  - right. split; [left; congruence|]. apply nth_upd_other, Hne.
Qed.

(** Case analysis on every read through a mutated store in the goal. *)
Ltac upd_cases :=
  repeat match goal with
  | |- context [nth ?p (upd ?i ?f ?ps) Process.dummy] =>
      let E := fresh "E" in
      let D := fresh "D" in
      destruct (nth_upd_cases i f ps p) as [(? & ? & E)|(D & E)];
      rewrite ?E; clear E
  end.

Ltac timed_open :=
  unfold held, deref, mutate in *; simpl in *; rewrite ?half_t_cs in *.

Ltac timed_close :=
  repeat match goal with
         | D : _ <> _ \/ _ |- _ => destruct D as [D|D]; [congruence|]
         end;
  rewrite ?upd_length in *;
  try lia;
  try (rewrite nth_overflow by lia; simpl; lia).

Lemma ready_timed proc c c' : timed c -> ready proc c = Ok c' -> timed c'.
Proof.
  intros T H. unfold ready in H. injection H as <-.
  pose proof T as (T0 & _ & _ & _ & _ & _ & Hh).
  apply (timed_step c); auto; timed_open; try lia.
  - intros p. rewrite !nth_upd_field; auto.
  - intros p. upd_cases; simpl; auto; right; lia.
  - intros p. upd_cases; simpl; auto; right; lia.
  - intros p [H|[H|H]]; auto.
    apply in_app_or in H. destruct H as [H|[<-|[]]]; auto.
    right. upd_cases; simpl; timed_close.
Qed.

Lemma add_timed proc c c' :
  timed c -> _last_arrival (deref c proc) <= _ticker c ->
  add proc c = Ok c' -> timed c'.
Proof.
  intros T Hp H. unfold add in H. injection H as <-.
  pose proof T as (T0 & _ & _ & _ & Hr & _ & Hh).
  apply (timed_step c); auto; timed_open; try lia.
  - specialize (Hr proc). rewrite nth_upd_field by auto. lia.
  - intros p. rewrite !nth_upd_field; auto.
  - intros p. rewrite !nth_upd_field; auto.
  - intros p. rewrite !nth_upd_field; auto.
  - intros p [H|[H|H]]; auto. injection H as <-.
    right. rewrite nth_upd_field by auto. lia.
Qed.

Lemma remove_timed c c' : timed c -> remove c = Ok c' -> timed c'.
Proof.
  intros T H. unfold remove in H. simpl in H.
  destruct (_curr c) as [cur|] eqn:Hcur; [|discriminate].
  injection H as <-.
  pose proof T as (T0 & _ & _ & _ & _ & _ & Hh).
  apply (timed_step c); auto; timed_open; try lia.
  - specialize (Hh cur (or_introl Hcur)). lia.
  - intros p [H|[H|H]]; auto. discriminate.
Qed.

Lemma preempt_timed proc c c' :
  timed c -> _last_arrival (deref c proc) <= _ticker c ->
  preempt proc c = Ok c' -> timed c'.
Proof.
  intros T Hp H. unfold preempt in H. simpl in H.
  destruct (_curr c) as [cur|] eqn:Hcur; [|discriminate].
  injection H as <-.
  pose proof T as (T0 & _ & _ & _ & _ & _ & Hh).
  apply (timed_step c); auto; timed_open; try lia.
  - intros p. rewrite !nth_upd_field; auto.
  - intros p. rewrite nth_upd_field by auto.
    upd_cases; simpl; auto; right; lia.
  - intros p. rewrite !nth_upd_field; auto.
  - intros p [H|[[<-|H]|H]]; auto. injection H as <-.
    right. rewrite !nth_upd_field by auto. lia.
Qed.

Lemma fcfs_check_finished_timed c c1 removed e1 :
  timed c -> fcfs_check_finished c = (c1, removed, e1) -> timed c1.
Proof.
  intros T. unfold fcfs_check_finished.
  destruct (_curr c) as [cur|] eqn:Hcur;
    [|intros H; injection H as <- _ _; exact T].
  destruct (Z.leb _ _);
    [match goal with |- context [Z.ltb ?a ?b] => destruct (Z.ltb a b) end|];
    intros H; injection H as <- _ _;
    apply (timed_step c); auto; timed_open; try lia;
    try solve [intros p; rewrite ?nth_upd_field; auto].
  intros p [H|[H|H]]; auto. apply dict_set_keys_in in H.
  destruct H as [->|H]; auto.
Qed.

Lemma srt_check_finished_timed c c1 removed e1 :
  timed c -> srt_check_finished c = (c1, removed, e1) -> timed c1.
Proof.
  intros T. unfold srt_check_finished.
  destruct (_curr c) as [cur|] eqn:Hcur;
    [|intros H; injection H as <- _ _; exact T].
  destruct (Z.leb _ _);
    [match goal with |- context [Z.ltb ?a ?b] => destruct (Z.ltb a b) end|];
    intros H; injection H as <- _ _;
    apply (timed_step c); auto; timed_open; try lia;
    try solve [intros p; rewrite ?nth_upd_field; auto].
  intros p [H|[H|H]]; auto. apply dict_set_keys_in in H.
  destruct H as [->|H]; auto.
Qed.

Lemma timed_same_places c c' :
  timed c ->
  _procs c' = _procs c -> _ticker c' = _ticker c ->
  _total_num c' = _total_num c ->
  _total_wait c' = _total_wait c ->
  _total_turnaround c' = _total_turnaround c ->
  (forall p, held c' p -> held c p) ->
  timed c'.
Proof.
  intros T Hp Ht Hn Hw Hta Hh.
  apply (timed_step c); auto; try lia; unfold deref; rewrite Hp; auto.
Qed.

Lemma fcfs_io_done_timed c c' e :
  timed c -> fcfs_io_done c = Ok (c', e) -> timed c'.
Proof.
  unfold fcfs_io_done. intros T.
  apply (for_each_inv timed); [|exact T].
  clear. intros proc c c' e T H. inv_bind H. injection H as <- _.
  apply ready_timed in Hx; [|exact T].
  apply (timed_same_places x); auto.
  intros p [H|[H|H]]; unfold held; auto.
  simpl in H. apply dict_del_keys_in in H. auto.
Qed.

Lemma fcfs_arrivals_timed c c' e :
  timed c -> fcfs_arrivals c = Ok (c', e) -> timed c'.
Proof.
  unfold fcfs_arrivals. intros T.
  apply (for_each_inv timed); [|exact T].
  clear. intros proc c c' e T H.
  destruct (Z.eqb _ _); [|injection H as <- _; exact T].
  inv_bind H. injection H as <- _.
  apply ready_timed in Hx; [exact Hx|].
  apply (timed_step c); auto; timed_open; try lia;
    try solve [intros p; rewrite ?nth_upd_field; auto].
  intros p. upd_cases; simpl; auto; right; lia.
Qed.

Lemma retire_timed (removed : bool) c c' :
  timed c -> (if removed then remove c else Ok c) = Ok c' -> timed c'.
Proof.
  intros T H. destruct removed; [eapply remove_timed; eauto|].
  injection H as <-. exact T.
Qed.

Lemma head_ready_timed c proc rest :
  timed c -> _ready c = proc :: rest ->
  timed (set_ready rest c)
  /\ _last_arrival (deref (set_ready rest c) proc)
     <= _ticker (set_ready rest c).
Proof.
  intros T Hr. pose proof T as (_ & _ & _ & _ & _ & _ & Hh). split.
  - apply (timed_same_places c); auto.
    intros p [H|[H|H]]; unfold held; auto.
    simpl in H. rewrite Hr. right; left; right; exact H.
  - apply (Hh proc). right; left. rewrite Hr. left; reflexivity.
Qed.

Lemma fcfs_admit_timed c c' e :
  timed c -> fcfs_admit c = Ok (c', e) -> timed c'.
Proof.
  intros T H. unfold fcfs_admit in H.
  destruct (_curr c) as [cur|] eqn:Hcur; [injection H as <- _; exact T|].
  destruct (_ready c) as [|proc rest] eqn:Hr; [injection H as <- _; exact T|].
  destruct (head_ready_timed _ _ _ T Hr) as [T1 Hp].
  inv_bind H. apply add_timed in Hx; auto.
  inv_bind H. injection H as <- _.
  apply (timed_step x); auto; timed_open; try lia;
    intros p; rewrite ?nth_upd_field; auto.
Qed.

Lemma srt_admit_timed c c' e :
  timed c -> srt_admit c = Ok (c', e) -> timed c'.
Proof.
  intros T H. unfold srt_admit in H.
  destruct (_curr c) as [cur|] eqn:Hcur; [injection H as <- _; exact T|].
  destruct (_ready c) as [|proc rest] eqn:Hr; [injection H as <- _; exact T|].
  destruct (head_ready_timed _ _ _ T Hr) as [T1 Hp].
  inv_bind H. apply add_timed in Hx; auto.
  inv_bind H.
  match type of H with context [if ?b then _ else _] => destruct b end;
    injection H as <- _;
    apply (timed_step x); auto; timed_open; try lia;
    intros p; rewrite ?nth_upd_field; auto.
Qed.

Lemma srt_enqueue_timed added proc c c' e :
  timed c -> srt_enqueue added proc c = Ok (c', e) -> timed c'.
Proof.
  intros T H. unfold srt_enqueue in H. inv_bind H. injection H as <- _.
  apply ready_timed in Hx; [|exact T].
  apply (timed_same_places x); auto.
  intros p [H|[H|H]]; unfold held; auto.
  simpl in H. apply sorted_in in H. auto.
Qed.

Lemma srt_group_timed pre added removed group c c' evs :
  timed c ->
  (forall p, In p group -> _last_arrival (deref c p) <= _ticker c) ->
  srt_group pre added removed group c = Ok (c', evs) -> timed c'.
Proof.
  intros T Hg H. unfold srt_group in H.
  destruct group as [|best rest]; [injection H as <- _; exact T|].
  inv_bind H. destruct x as [[c1 e1] g1].
  inv_bind H. destruct x as [c2 e2]. injection H as <- _.
  apply (for_each_inv timed) in Hx0; [exact Hx0| |].
  { intros proc ca cb e Ta Hb. eapply srt_enqueue_timed; eauto. }
  unfold srt_try_preempt in Hx.
  destruct (_curr c) as [cur|]; [|injection Hx as <- _ _; exact T].
  destruct (_ && _); [|injection Hx as <- _ _; exact T].
  inv_bind Hx. inv_bind Hx. injection Hx as <- _ _.
  eapply preempt_timed; [exact T| |exact Hx1].
  apply Hg. left; reflexivity.
Qed.

Lemma srt_io_done_timed removed c c' e :
  timed c -> srt_io_done removed c = Ok (c', e) -> timed c'.
Proof.
  intros T. unfold srt_io_done. apply srt_group_timed; [exact T|].
  intros p Hp. apply sorted_in in Hp.
  destruct T as (_ & _ & _ & _ & _ & _ & Hh). apply Hh.
  right; right. unfold io_at_ticker in Hp. unfold dict_keys.
  apply in_map_iff in Hp. destruct Hp as (kv & E & Hin).
  apply filter_In in Hin. apply in_map_iff. exists kv. tauto.
Qed.

Lemma srt_arrivals_timed removed c c' e :
  timed c -> srt_arrivals removed c = Ok (c', e) -> timed c'.
Proof.
  intros T. unfold srt_arrivals. apply srt_group_timed; [exact T|].
  intros p Hp. apply sorted_in in Hp.
  unfold arriving in Hp. apply filter_In in Hp. destruct Hp as [_ Hp].
  apply Z.eqb_eq in Hp.
  destruct T as (_ & _ & _ & _ & _ & Hl & _). specialize (Hl p). lia.
Qed.

Lemma tick_timed c : timed c -> timed (set_ticker (_ticker c + 1) c).
Proof.
  intros T. apply (timed_step c); auto; simpl; try lia.
Qed.

Lemma fcfs_body_timed n c c' evs b :
  timed c -> fcfs_body n c = Ok (c', evs, b) -> timed c'.
Proof.
  intros T H. unfold fcfs_body in H.
  destruct (fcfs_check_finished c) as [[c1 removed] e1] eqn:H1.
  apply fcfs_check_finished_timed in H1; [|exact T].
  inv_bind H. destruct x as [c2 e2]. apply fcfs_io_done_timed in Hx; auto.
  inv_bind H. destruct x as [c3 e3]. apply fcfs_arrivals_timed in Hx0; auto.
  inv_bind H. apply retire_timed in Hx1; auto.
  inv_bind H. destruct x0 as [c5 e5]. apply fcfs_admit_timed in Hx2; auto.
  destruct (Z.eqb _ _); injection H as <- _ _; [exact Hx2|].
  apply tick_timed, Hx2.
Qed.

Lemma srt_body_timed n c c' evs b :
  timed c -> srt_body n c = Ok (c', evs, b) -> timed c'.
Proof.
  intros T H. unfold srt_body in H.
  destruct (srt_check_finished c) as [[c1 removed] e1] eqn:H1.
  apply srt_check_finished_timed in H1; [|exact T].
  inv_bind H. destruct x as [c2 e2]. apply srt_io_done_timed in Hx; auto.
  inv_bind H. destruct x as [c3 e3]. apply srt_arrivals_timed in Hx0; auto.
  inv_bind H. apply retire_timed in Hx1; auto.
  inv_bind H. destruct x0 as [c5 e5]. apply srt_admit_timed in Hx2; auto.
  destruct (Z.eqb _ _); injection H as <- _ _; [exact Hx2|].
  apply tick_timed, Hx2.
Qed.

Lemma fcfs_loop_timed n fuel :
  forall c out c' out',
    timed c -> fcfs_loop fuel n c out = Returned (c', out') -> timed c'.
Proof.
  induction fuel as [|fuel IH]; intros c out c' out' T H; simpl in H;
    [discriminate|].
  destruct (fcfs_body n c) as [[[c1 evs] b]|e] eqn:Hb; [|discriminate].
  apply fcfs_body_timed in Hb; [|exact T].
  destruct b; [injection H as <- _; exact Hb | eapply IH; eauto].
Qed.

Lemma srt_loop_timed n fuel :
  forall c out c' out',
    timed c -> srt_loop fuel n c out = Returned (c', out') -> timed c'.
Proof.
  induction fuel as [|fuel IH]; intros c out c' out' T H; simpl in H;
    [discriminate|].
  destruct (srt_body n c) as [[[c1 evs] b]|e] eqn:Hb; [|discriminate].
  apply srt_body_timed in Hb; [|exact T].
  destruct b; [injection H as <- _; exact Hb | eapply IH; eauto].
Qed.

Lemma zsum_nonneg (l : list Z) : Forall (fun z => 0 <= z) l -> 0 <= zsum l.
Proof. induction 1; simpl; lia. Qed.

Lemma init_timed procs cpu :
  Forall as_constructed procs ->
  Forall (fun p => 0 <= _num p) procs ->
  CPU.init procs = Ok cpu -> timed cpu.
Proof.
  intros Hc Hn H. unfold CPU.init in H. inv_bind H. injection H as <-.
  assert (Hd : forall p, as_constructed (nth p procs Process.dummy)).
  { intros p. destruct (Nat.lt_ge_cases p (List.length procs)) as [Hlt|Hge].
    - rewrite Forall_forall in Hc. apply Hc, nth_In, Hlt.
    - rewrite nth_overflow by exact Hge. split; reflexivity. }
  unfold timed, held, deref. simpl.
  split; [lia|]. split.
  { apply zsum_nonneg. apply Forall_map. exact Hn. }
  split; [lia|]. split; [lia|]. split; [|split].
  - intros p. destruct (Hd p) as [-> _]. lia.
  - intros p. destruct (Hd p) as [_ ->]. lia.
  - intros p [H|[[]|[]]]. discriminate.
Qed.

Lemma fdiv_nonneg (a b : Z) (q : Q) :
  0 <= a -> 0 <= b -> fdiv a b = Ok q -> (0 <= q)%Q.
Proof.
  intros Ha Hb. unfold fdiv. destruct (Z.eqb_spec b 0) as [|Hne];
    [discriminate|].
  intros H; injection H as <-.
  change (0 <= Qred (inject_Z a / inject_Z b))%Q.
  apply (Qle_trans _ (inject_Z a / inject_Z b));
    [|apply Qle_lteq; right; symmetry; apply Qred_correct].
  apply Qle_shift_div_l.
  - change 0%Q with (inject_Z 0). rewrite <- Zlt_Qlt. lia.
  - rewrite Qmult_0_l. change 0%Q with (inject_Z 0). rewrite <- Zle_Qle.
    exact Ha.
Qed.

Lemma summary_nonneg c avg_burst avg_wait avg_turnaround context preempt :
  timed c ->
  summary c = Ok (avg_burst, avg_wait, avg_turnaround, context, preempt) ->
  (0 <= avg_wait)%Q /\ (0 <= avg_turnaround)%Q.
Proof.
  intros (_ & N & W & TA & _) H. unfold summary in H.
  inv_bind H. inv_bind H. injection H as _ <- <- _ _. simpl.
  split; [exact (fdiv_nonneg _ _ _ W N Hx)|].
  exact (fdiv_nonneg _ _ _ TA N Hx0).
Qed.

(** The reported times are never negative.  For a workload of processes as
    the constructor builds them, with no negative burst count, a run of
    [run_fcfs] or of [run_srt] that returns gives an average wait time and an
    average turnaround time that are not negative: every wait is measured
    from an instant at which the process was made ready, every turnaround
    from an arrival, and the clock never was before either. *)
Theorem reported_times_not_negative :
  (forall fuel n procs avg_burst avg_wait avg_turnaround context preempt out,
      Forall as_constructed procs ->
      Forall (fun p => 0 <= _num p) procs ->
      run_fcfs fuel n procs
      = Returned ((avg_burst, avg_wait, avg_turnaround, context, preempt), out)
      -> (0 <= avg_wait)%Q /\ (0 <= avg_turnaround)%Q)
  /\ (forall fuel n procs avg_burst avg_wait avg_turnaround context preempt
             out,
        Forall as_constructed procs ->
        Forall (fun p => 0 <= _num p) procs ->
        run_srt fuel n procs
        = Returned ((avg_burst, avg_wait, avg_turnaround, context, preempt),
                    out)
        -> (0 <= avg_wait)%Q /\ (0 <= avg_turnaround)%Q).
Proof.
  split; intros fuel n procs ab aw at_ cs pre out Hc Hn.
  - unfold run_fcfs.
    destruct (CPU.init procs) as [cpu|e] eqn:Hi; [|discriminate].
    apply init_timed in Hi; auto.
    destruct (fcfs_loop fuel n cpu _) as [[c' out']|e|] eqn:Hl;
      try discriminate.
    apply fcfs_loop_timed in Hl; [|exact Hi].
    destruct (summary c') as [[[[[ab' aw'] at'] cs'] pre']|e] eqn:Hs;
      [|discriminate].
    simpl. intros H; injection H as <- <- <- <- <- _.
    eapply summary_nonneg; eauto.
  - unfold run_srt.
    destruct (CPU.init procs) as [cpu|e] eqn:Hi; [|discriminate].
    apply init_timed in Hi; auto.
    destruct (srt_loop fuel n cpu _) as [[c' out']|e|] eqn:Hl;
      try discriminate.
    apply srt_loop_timed in Hl; [|exact Hi].
    destruct (summary c') as [[[[[ab' aw'] at'] cs'] pre']|e] eqn:Hs;
      [|discriminate].
    simpl. intros H; injection H as <- <- <- <- <- _.
    eapply summary_nonneg; eauto.
Qed.

Lemma reported_times_not_negative_witness :
  exists out,
    run_srt 120 3 wl_double = Returned ((107 # 4, 41 # 4, 56%Q, 6, 2), out)
    /\ (0 <= 41 # 4)%Q /\ (0 <= 56)%Q.
Proof.
  eexists. split; [vm_compute; reflexivity|].
  refine (proj2 reported_times_not_negative 120%nat 3 wl_double
            (107 # 4) (41 # 4) 56%Q 6 2 _ _ _ _).
  - repeat constructor.
  - repeat constructor; simpl; lia.
  - vm_compute. reflexivity.
Defined.

(** ** The trace is in the order of time *)

Lemma chronological_weaken lo lo' out :
  lo' <= lo -> chronological lo out -> chronological lo' out.
Proof.
  destruct out as [|e out]; simpl; [auto|].
  intros H [H1 H2]. split; [lia | exact H2].
Qed.

Lemma spans_app a e1 b e2 c :
  spans a e1 b -> spans b e2 c -> spans a (e1 ++ e2) c.
Proof.
  intros (H1 & C1 & F1) (H2 & C2 & F2).
  split; [lia|]. split.
  - revert a H1 C1. induction e1 as [|x e1 IH]; simpl; intros a H1 C1.
    + apply (chronological_weaken b); [exact H1 | exact C2].
    + inversion F1 as [|? ? Hx F1']; subst. destruct C1 as [Ca C1].
      split; [exact Ca|]. apply IH; auto.
  - apply Forall_app. split; [|exact F2].
    eapply Forall_impl; [|exact F1]. simpl. intros e He. lia.
Qed.

Lemma paced_refl c : paced c [] c.
Proof.
  split; [|reflexivity]. split; [lia|]. split; [exact I | constructor].
Qed.

Lemma paced_app c e1 c1 e2 c2 :
  paced c e1 c1 -> paced c1 e2 c2 -> paced c (e1 ++ e2) c2.
Proof.
  intros [S1 A1] [S2 A2]. split; [eapply spans_app; eauto | congruence].
Qed.

(** A step that prints nothing. *)
Lemma paced_silent c c' :
  _ticker c <= _ticker c' -> _avg_burst c' = _avg_burst c -> paced c [] c'.
Proof.
  intros Ht Ha. split; [|exact Ha].
  split; [exact Ht|]. split; [exact I | constructor].
Qed.

(** A step that prints one line, at the time the clock has after it. *)
Lemma paced_line c e c' :
  _ticker c <= _ticker c' -> _avg_burst c' = _avg_burst c ->
  event_time e = _ticker c' -> paced c [e] c'.
Proof.
  intros Ht Ha He. split; [|exact Ha].
  split; [exact Ht|]. split.
  - simpl. split; [lia | exact I].
  - repeat constructor. lia.
Qed.

(** A step that prints all its lines at the time the clock has after it. *)
Lemma paced_lines c evs c' :
  _ticker c <= _ticker c' -> _avg_burst c' = _avg_burst c ->
  Forall (fun e => event_time e = _ticker c') evs -> paced c evs c'.
Proof.
  intros Ht Ha He. split; [|exact Ha].
  split; [exact Ht|]. split.
  - revert Ht. generalize (_ticker c) as lo.
    induction He as [|e evs E _ IH]; simpl; intros lo Hlo; [exact I|].
    split; [lia|]. apply IH. lia.
  - eapply Forall_impl; [|exact He]. simpl. intros e E. lia.
Qed.

Lemma for_each_paced {A : Type}
    (body : A -> CPU.t -> result (CPU.t * list event)) :
  (forall x c c' e, body x c = Ok (c', e) -> paced c e c') ->
  forall l c c' e, for_each l body c = Ok (c', e) -> paced c e c'.
Proof.
  intros Hbody l; induction l as [|x l IH]; simpl; intros c c' e H.
  - injection H as <- <-. apply paced_refl.
  - inv_bind H. destruct x0 as [c1 e1].
    inv_bind H. destruct x0 as [c2 e2].
    injection H as <- <-. eapply paced_app; eauto.
Qed.

Lemma fcfs_check_finished_paced c c1 removed e1 :
  fcfs_check_finished c = (c1, removed, e1) -> paced c e1 c1.
Proof.
  unfold fcfs_check_finished.
  destruct (_curr c) as [cur|];
    [|intros H; injection H as <- _ <-; apply paced_refl].
  destruct (Z.leb _ _);
    [match goal with |- context [Z.ltb ?a ?b] => destruct (Z.ltb a b) end|];
    intros H; injection H as <- _ <-.
  - apply paced_lines; simpl; auto; lia.
  - apply paced_line; simpl; auto; lia.
  - apply paced_silent; simpl; auto; lia.
Qed.

Lemma srt_check_finished_paced c c1 removed e1 :
  srt_check_finished c = (c1, removed, e1) -> paced c e1 c1.
Proof.
  unfold srt_check_finished.
  destruct (_curr c) as [cur|];
    [|intros H; injection H as <- _ <-; apply paced_refl].
  destruct (Z.leb _ _);
    [match goal with |- context [Z.ltb ?a ?b] => destruct (Z.ltb a b) end|];
    intros H; injection H as <- _ <-.
  - apply paced_lines; simpl; auto; lia.
  - apply paced_line; simpl; auto; lia.
  - apply paced_silent; simpl; auto; lia.
Qed.

Lemma fcfs_io_done_paced c c' e : fcfs_io_done c = Ok (c', e) -> paced c e c'.
Proof.
  unfold fcfs_io_done. apply for_each_paced.
  intros proc c0 c1 e0 H. unfold ready in H. simpl in H.
  injection H as <- <-. apply paced_line; simpl; auto; lia.
Qed.

Lemma fcfs_arrivals_paced c c' e :
  fcfs_arrivals c = Ok (c', e) -> paced c e c'.
Proof.
  unfold fcfs_arrivals. apply for_each_paced.
  intros proc c0 c1 e0 H.
  destruct (Z.eqb _ _); [|injection H as <- <-; apply paced_refl].
  unfold ready in H. simpl in H.
  injection H as <- <-. apply paced_line; simpl; auto; lia.
Qed.

Lemma retire_paced (removed : bool) c c' :
  (if removed then remove c else Ok c) = Ok c' -> paced c [] c'.
Proof.
  destruct removed; [|intros H; injection H as <-; apply paced_refl].
  unfold remove. simpl. destruct (_curr c); [|discriminate].
  intros H; injection H as <-.
  apply paced_silent; simpl; rewrite ?half_t_cs; auto; lia.
Qed.

Lemma fcfs_admit_paced c c' e : fcfs_admit c = Ok (c', e) -> paced c e c'.
Proof.
  unfold fcfs_admit.
  destruct (_curr c); [intros H; injection H as <- <-; apply paced_refl|].
  destruct (_ready c); [intros H; injection H as <- <-; apply paced_refl|].
  unfold add. simpl. intros H; injection H as <- <-.
  apply paced_line; simpl; rewrite ?half_t_cs; auto; lia.
Qed.

Lemma srt_admit_paced c c' e : srt_admit c = Ok (c', e) -> paced c e c'.
Proof.
  unfold srt_admit.
  destruct (_curr c); [intros H; injection H as <- <-; apply paced_refl|].
  destruct (_ready c); [intros H; injection H as <- <-; apply paced_refl|].
  unfold add. simpl.
  match goal with |- context [if ?b then _ else _] => destruct b end;
    intros H; injection H as <- <-;
    apply paced_line; simpl; rewrite ?half_t_cs; auto; lia.
Qed.

Lemma srt_group_paced pre added removed group c c' evs :
  (forall t pid victim q, event_time (pre t pid victim q) = t) ->
  (forall t pid q, event_time (added t pid q) = t) ->
  srt_group pre added removed group c = Ok (c', evs) -> paced c evs c'.
Proof.
  intros Hpre Hadd H. unfold srt_group in H.
  destruct group as [|best rest]; [injection H as <- <-; apply paced_refl|].
  inv_bind H. destruct x as [[c1 e1] g1].
  inv_bind H. destruct x as [c2 e2]. injection H as <- <-.
  apply (paced_app c e1 c1).
  - unfold srt_try_preempt in Hx.
    destruct (_curr c) as [cur|] eqn:Hcur;
      [|injection Hx as <- <- _; apply paced_refl].
    destruct (_ && _); [|injection Hx as <- <- _; apply paced_refl].
    unfold preempt in Hx. simpl in Hx. rewrite Hcur in Hx. simpl in Hx.
    injection Hx as <- <- _.
    split; [|reflexivity]. simpl. rewrite ?half_t_cs.
    split; [lia|]. split.
    + simpl. rewrite Hpre. repeat split; lia.
    + repeat constructor; simpl; rewrite ?Hpre; lia.
  - revert Hx0. apply for_each_paced.
    intros proc c0 c3 e0 H. unfold srt_enqueue, ready in H. simpl in H.
    injection H as <- <-. apply paced_line; simpl; auto; lia.
Qed.

Lemma tick_paced c : paced c [] (set_ticker (_ticker c + 1) c).
Proof. apply paced_silent; simpl; auto; lia. Qed.

Lemma fcfs_body_paced n c c' evs b :
  fcfs_body n c = Ok (c', evs, b) -> paced c evs c'.
Proof.
  intros H. unfold fcfs_body in H.
  destruct (fcfs_check_finished c) as [[c1 removed] e1] eqn:H1.
  apply fcfs_check_finished_paced in H1.
  inv_bind H. destruct x as [c2 e2]. apply fcfs_io_done_paced in Hx.
  inv_bind H. destruct x as [c3 e3]. apply fcfs_arrivals_paced in Hx0.
  inv_bind H. apply retire_paced in Hx1.
  inv_bind H. destruct x0 as [c5 e5]. apply fcfs_admit_paced in Hx2.
  assert (P : paced c (e1 ++ e2 ++ e3 ++ e5) c5).
  { apply (paced_app _ _ c1); [exact H1|].
    apply (paced_app _ _ c2); [exact Hx|].
    apply (paced_app _ _ c3); [exact Hx0|].
    apply (paced_app _ [] x); [exact Hx1 | exact Hx2]. }
  destruct (Z.eqb _ _); injection H as <- <- _; [exact P|].
  rewrite <- (app_nil_r (e1 ++ _)).
  eapply paced_app; [exact P | apply tick_paced].
Qed.

Lemma srt_body_paced n c c' evs b :
  srt_body n c = Ok (c', evs, b) -> paced c evs c'.
Proof.
  intros H. unfold srt_body in H.
  destruct (srt_check_finished c) as [[c1 removed] e1] eqn:H1.
  apply srt_check_finished_paced in H1.
  inv_bind H. destruct x as [c2 e2].
  apply srt_group_paced in Hx; [|reflexivity|reflexivity].
  inv_bind H. destruct x as [c3 e3].
  apply srt_group_paced in Hx0; [|reflexivity|reflexivity].
  inv_bind H. apply retire_paced in Hx1.
  inv_bind H. destruct x0 as [c5 e5]. apply srt_admit_paced in Hx2.
  assert (P : paced c (e1 ++ e2 ++ e3 ++ e5) c5).
  { apply (paced_app _ _ c1); [exact H1|].
    apply (paced_app _ _ c2); [exact Hx|].
    apply (paced_app _ _ c3); [exact Hx0|].
    apply (paced_app _ [] x); [exact Hx1 | exact Hx2]. }
  destruct (Z.eqb _ _); injection H as <- <- _; [exact P|].
  rewrite <- (app_nil_r (e1 ++ _)).
  eapply paced_app; [exact P | apply tick_paced].
Qed.

Lemma fcfs_loop_paced n fuel :
  forall c0 c out c' out',
    paced c0 out c ->
    fcfs_loop fuel n c out = Returned (c', out') -> paced c0 out' c'.
Proof.
  induction fuel as [|fuel IH]; intros c0 c out c' out' P H; simpl in H;
    [discriminate|].
  destruct (fcfs_body n c) as [[[c1 evs] b]|e] eqn:Hb; [|discriminate].
  apply fcfs_body_paced in Hb.
  pose proof (paced_app _ _ _ _ _ P Hb) as P1.
  destruct b; [injection H as <- <-; exact P1 | eapply IH; eauto].
Qed.

Lemma srt_loop_paced n fuel :
  forall c0 c out c' out',
    paced c0 out c ->
    srt_loop fuel n c out = Returned (c', out') -> paced c0 out' c'.
Proof.
  induction fuel as [|fuel IH]; intros c0 c out c' out' P H; simpl in H;
    [discriminate|].
  destruct (srt_body n c) as [[[c1 evs] b]|e] eqn:Hb; [|discriminate].
  apply srt_body_paced in Hb.
  pose proof (paced_app _ _ _ _ _ P Hb) as P1.
  destruct b; [injection H as <- <-; exact P1 | eapply IH; eauto].
Qed.

Lemma summary_avg_burst c avg_burst avg_wait avg_turnaround context preempt :
  summary c = Ok (avg_burst, avg_wait, avg_turnaround, context, preempt) ->
  avg_burst = _avg_burst c.
Proof.
  unfold summary. intros H. inv_bind H. inv_bind H.
  injection H as <- _ _ _ _. reflexivity.
Qed.

Lemma init_avg_burst procs cpu :
  CPU.init procs = Ok cpu ->
  fdiv (zsum (map (fun p => _burst p * _num p) procs)) (zsum (map _num procs))
  = Ok (_avg_burst cpu)
  /\ _ticker cpu = 0.
Proof.
  unfold CPU.init. intros H. inv_bind H. injection H as <-.
  simpl. auto.
Qed.

(** The lines of a run are printed in the order of their times: in the trace
    of a run of [run_fcfs] or of [run_srt] that returns, no line has a
    negative time, and no line has a time before the time of the line above
    it. *)
Theorem trace_is_chronological :
  (forall fuel n procs s out,
      run_fcfs fuel n procs = Returned (s, out) -> chronological 0 out)
  /\ (forall fuel n procs s out,
        run_srt fuel n procs = Returned (s, out) -> chronological 0 out).
Proof.
  split; intros fuel n procs s out.
  - unfold run_fcfs.
    destruct (CPU.init procs) as [cpu|e] eqn:Hi; [|discriminate].
    apply init_avg_burst in Hi. destruct Hi as [_ Ht].
    destruct (fcfs_loop fuel n cpu _) as [[c' out']|e|] eqn:Hl;
      try discriminate.
    apply (fcfs_loop_paced n fuel cpu) in Hl;
      [|apply paced_line; simpl; auto; lia].
    destruct (summary c') as [st|e]; [|discriminate].
    simpl. intros H; injection H as _ <-.
    destruct Hl as [Hl _]. rewrite Ht in Hl.
    apply (spans_app 0 out' (_ticker c') [SimEnded (_ticker c')]
             (_ticker c')) in Hl; [apply Hl|].
    split; [lia|]. split; [simpl; split; [lia | exact I]|].
    repeat constructor. simpl. lia.
  - unfold run_srt.
    destruct (CPU.init procs) as [cpu|e] eqn:Hi; [|discriminate].
    apply init_avg_burst in Hi. destruct Hi as [_ Ht].
    destruct (srt_loop fuel n cpu _) as [[c' out']|e|] eqn:Hl;
      try discriminate.
    apply (srt_loop_paced n fuel cpu) in Hl;
      [|apply paced_line; simpl; auto; lia].
    destruct (summary c') as [st|e]; [|discriminate].
    simpl. intros H; injection H as _ <-.
    destruct Hl as [Hl _]. rewrite Ht in Hl.
    apply (spans_app 0 out' (_ticker c') [SimEnded (_ticker c')]
             (_ticker c')) in Hl; [apply Hl|].
    split; [lia|]. split; [simpl; split; [lia | exact I]|].
    repeat constructor. simpl. lia.
Qed.

Lemma trace_is_chronological_witness :
  exists s out,
    run_srt 120 3 wl_double = Returned (s, out) /\ chronological 0 out.
Proof.
  do 2 eexists. split; [vm_compute; reflexivity|].
  eapply (proj2 trace_is_chronological 120%nat 3 wl_double).
  vm_compute. reflexivity.
Defined.

(** The average CPU burst time does not depend on the schedule: whenever one
    of the three runs returns, the first component of its five-tuple is the
    quotient that the constructor computes from the workload, the sum of
    burst time times burst count over the sum of the burst counts; the burst
    counts that the run decrements afterwards do not change it. *)
Theorem average_burst_is_of_the_workload :
  forall fuel n procs avg_burst avg_wait avg_turnaround context preempt out,
    run_fcfs fuel n procs
    = Returned ((avg_burst, avg_wait, avg_turnaround, context, preempt), out)
    \/ run_srt fuel n procs
       = Returned ((avg_burst, avg_wait, avg_turnaround, context, preempt),
                   out)
    \/ run_rr procs
       = Ok ((avg_burst, avg_wait, avg_turnaround, context, preempt), out) ->
    fdiv (zsum (map (fun p => _burst p * _num p) procs))
         (zsum (map _num procs))
    = Ok avg_burst.
Proof.
  intros fuel n procs ab aw at_ cs pre out [H|[H|H]].
  - unfold run_fcfs in H.
    destruct (CPU.init procs) as [cpu|e] eqn:Hi; [|discriminate].
    apply init_avg_burst in Hi. destruct Hi as [Hi _].
    destruct (fcfs_loop fuel n cpu _) as [[c' out']|e|] eqn:Hl;
      try discriminate.
    apply (fcfs_loop_paced n fuel cpu) in Hl;
      [|apply paced_line; simpl; auto; lia].
    destruct (summary c') as [[[[[ab' aw'] at'] cs'] pre']|e] eqn:Hs;
      [|discriminate].
    apply summary_avg_burst in Hs.
    simpl in H. injection H as <- _ _ _ _ _.
    destruct Hl as [_ Hl]. congruence.
  - unfold run_srt in H.
    destruct (CPU.init procs) as [cpu|e] eqn:Hi; [|discriminate].
    apply init_avg_burst in Hi. destruct Hi as [Hi _].
    destruct (srt_loop fuel n cpu _) as [[c' out']|e|] eqn:Hl;
      try discriminate.
    apply (srt_loop_paced n fuel cpu) in Hl;
      [|apply paced_line; simpl; auto; lia].
    destruct (summary c') as [[[[[ab' aw'] at'] cs'] pre']|e] eqn:Hs;
      [|discriminate].
    apply summary_avg_burst in Hs.
    simpl in H. injection H as <- _ _ _ _ _.
    destruct Hl as [_ Hl]. congruence.
  - unfold run_rr in H. inv_bind H.
    apply init_avg_burst in Hx. destruct Hx as [Hi _].
    inv_bind H. inv_bind H. injection H as <- _ _ _ _ _. exact Hi.
Qed.

Lemma average_burst_is_of_the_workload_witness :
  exists out,
    run_srt 120 3 wl_double = Returned ((107 # 4, 41 # 4, 56%Q, 6, 2), out)
    /\ fdiv (zsum (map (fun p => _burst p * _num p) wl_double))
            (zsum (map _num wl_double))
       = Ok (107 # 4).
Proof.
  eexists. split; [vm_compute; reflexivity|].
  refine (average_burst_is_of_the_workload 120%nat 3 wl_double
            (107 # 4) (41 # 4) 56%Q 6 2 _ (or_intror (or_introl _))).
  vm_compute. reflexivity.
Defined.

(** ** __repr__ *)

Lemma append_nil_r (s : string) : append s "" = s.
Proof. induction s as [|x s IH]; simpl; congruence. Qed.

Lemma length_append (a b : string) :
  String.length (append a b) = (String.length a + String.length b)%nat.
Proof. induction a as [|x a IH]; simpl; congruence. Qed.

Lemma drop_last_two_app (s : string) (a b : ascii) :
  drop_last_two (append s (String a (String b ""))) = s.
Proof.
  unfold drop_last_two. rewrite length_append. simpl.
  replace (String.length s + 2 - 2)%nat with (String.length s) by lia.
  induction s as [|x s IH]; simpl; [reflexivity|]. rewrite IH. reflexivity.
Qed.

Lemma repr_fold (c : CPU.t) (l : list pref) (acc : string) :
  fold_left (fun acc proc => append acc (append (_pid (deref c proc)) ", "))
            l acc
  = append acc
      (String.concat ""
         (map (fun proc => append (_pid (deref c proc)) ", ") l)).
Proof.
  revert acc; induction l as [|p l IH]; intros acc.
  - simpl. rewrite append_nil_r. reflexivity.
  - simpl fold_left. rewrite IH. rewrite append_assoc. f_equal.
    destruct l as [|q l]; [simpl; rewrite append_nil_r|]; reflexivity.
Qed.

Lemma concat_commas (pids : list string) (p : string) :
  String.concat "" (append p ", " :: map (fun s => append s ", ") pids)
  = append (String.concat ", " (p :: pids)) ", ".
Proof.
  revert p; induction pids as [|q pids IH]; intros p.
  - reflexivity.
  - change (String.concat ""
              (append p ", " :: map (fun s => append s ", ") (q :: pids)))
      with (append (append p ", ")
              (append "" (String.concat ""
                            (append q ", "
                             :: map (fun s => append s ", ") pids)))).
    rewrite IH.
    change (String.concat ", " (p :: q :: pids))
      with (append p (append ", " (String.concat ", " (q :: pids)))).
    simpl append at 3. rewrite !append_assoc. reflexivity.
Qed.

(** Equality of two concatenations that differ by bracketing. *)
Ltac flatten_append :=
  repeat (progress (rewrite ?append_assoc; cbn [append]));
  reflexivity.

(** [__repr__] raises [AttributeError] on an idle CPU.  With a running
    process and a ready queue that is not empty it gives the clock, the
    running pid and the pids of the queue separated by [", "] inside
    ["deque([" ... "]))"].  With an empty ready queue the slice cuts the
    opening ["(["] instead of a separator, and the text ends in
    ["deque]))"]. *)
Theorem repr_format (c : CPU.t) :
  (_curr c = None -> __repr__ c = Raise AttributeError)
  /\ (forall cur, _curr c = Some cur ->
        let head :=
          append "CPU(_ticker = "
            (append (format_int (_ticker c))
               (append ", _curr = "
                  (append (_pid (deref c cur)) ", _ready = deque"))) in
        (_ready c = [] -> __repr__ c = Ok (append head "]))"))
        /\ (_ready c <> [] ->
            __repr__ c
            = Ok (append head
                    (append "(["
                       (append
                          (String.concat ", "
                             (map (fun proc => _pid (deref c proc))
                                  (_ready c)))
                          "]))"))))).
Proof.
  unfold __repr__, the_curr. split; [intros ->; reflexivity|].
  intros cur ->. simpl bind. cbv zeta. split.
  - intros ->. simpl fold_left. do 2 f_equal.
    match goal with
    | |- drop_last_two ?x = ?y =>
        replace x with (append y "([");
        [apply drop_last_two_app | flatten_append]
    end.
  - intros Hne. destruct (_ready c) as [|p l]; [contradiction|].
    rewrite repr_fold.
    rewrite <- (map_map (fun proc => _pid (deref c proc))
                        (fun s => append s ", ")).
    simpl map. rewrite concat_commas.
    f_equal. rewrite <- !(append_assoc _ _ "]))"). f_equal.
    match goal with
    | |- drop_last_two ?x = ?y =>
        replace x with (append y ", ");
        [apply drop_last_two_app | flatten_append]
    end.
Qed.

Lemma repr_format_witness :
  __repr__ (CPU.mk wl_late 0 0 2 4%Q 0%Q 0%Q 1 0 4 (Some 1%nat) [] [] [])
  = Ok "CPU(_ticker = 4, _curr = B, _ready = deque]))"%string.
Proof.
  exact (proj1 (proj2 (repr_format
                         (CPU.mk wl_late 0 0 2 4%Q 0%Q 0%Q 1 0 4
                                 (Some 1%nat) [] [] []))
                      1%nat eq_refl) eq_refl).
Defined.
